(** * dagql server: selection resolution and content-addressed IDs

    A shallow embedding of [dagql/server.go]: the ID builder
    ([Selector.appendToID]), the selection resolver ([Server.Resolve],
    [Server.resolvePath]), ID replay ([Server.Load],
    [Server.constructorToSelection]), the literal codec
    ([Server.fromLiteral]) and the wire-query conversion
    ([Server.parseASTSelections]). *)

From Stdlib Require Import ZArith String List Sorted Permutation Lia.
From stdpp Require Import base option list gmap strings fin_maps.

Set Warnings "-register-all".

Local Open Scope string_scope.
Local Open Scope list_scope.
Local Open Scope Z_scope.

(** ** gqlparser [ast] (external library): the declarations used *)

Inductive ast_Type := mk_ast_Type {
  NamedType : string;
  Elem : option ast_Type;
  NonNull : bool
}.

(** [Type.Name] of [ast]: the named type, or the element's name for a
    list.  (The parser builds no type that has neither; the library
    would dereference the nil element.) *)
Fixpoint ast_Type_Name (t : ast_Type) : string :=
  match t with
  | mk_ast_Type named elem _ =>
      if decide (named = "") then
        match elem with
        | Some e => ast_Type_Name e
        | None => named
        end
      else named
  end.

Record ast_ArgumentDefinition := {
  ad_Name : string;
  ad_Type : ast_Type
}.

Record ast_Directive := { dir_Name : string }.

Record ast_FieldDefinition := {
  fd_Name : string;
  fd_Arguments : list ast_ArgumentDefinition;
  fd_Type : ast_Type;
  fd_Directives : list ast_Directive
}.

(** [ArgumentDefinitionList.ForName]: the first entry of that name, or nil. *)
Fixpoint Arguments_ForName (l : list ast_ArgumentDefinition) (name : string)
    : option ast_ArgumentDefinition :=
  match l with
  | [] => None
  | it :: rest =>
      if decide (ad_Name it = name) then Some it
      else Arguments_ForName rest name
  end.

(** [DirectiveList.ForName]. *)
Fixpoint Directives_ForName (l : list ast_Directive) (name : string)
    : option ast_Directive :=
  match l with
  | [] => None
  | it :: rest =>
      if decide (dir_Name it = name) then Some it
      else Directives_ForName rest name
  end.

(** ** [idproto] (external library): the protobuf messages of an ID *)

Inductive Literal :=
| Literal_Id (Id : ID)
| Literal_Int (Int : Z)
| Literal_Float (Float : Z)  (* the binary64 bit pattern *)
| Literal_String_ (String_ : string)
| Literal_Bool (Bool : bool)
| Literal_List (Values : list Literal)
| Literal_Object (Values : list Argument)
| Literal_Enum (Enum : string)
| Literal_unset  (* no member of the oneof is set *)
with ID :=
| mk_ID (Type_ : option ast_Type) (Constructor : list idSelector)
with idSelector :=
| mk_idSelector (Field : string) (Args : list Argument)
    (Tainted Meta : bool) (Nth : Z)
with Argument :=
| mk_Argument (Name : string) (Value : Literal).

Definition id_Type (id : ID) : option ast_Type :=
  let 'mk_ID t _ := id in t.
Definition Constructor (id : ID) : list idSelector :=
  let 'mk_ID _ c := id in c.
Definition is_Field (s : idSelector) : string :=
  let 'mk_idSelector f _ _ _ _ := s in f.
Definition is_Args (s : idSelector) : list Argument :=
  let 'mk_idSelector _ a _ _ _ := s in a.
Definition is_Tainted (s : idSelector) : bool :=
  let 'mk_idSelector _ _ t _ _ := s in t.
Definition is_Meta (s : idSelector) : bool :=
  let 'mk_idSelector _ _ _ m _ := s in m.
Definition is_Nth (s : idSelector) : Z :=
  let 'mk_idSelector _ _ _ _ n := s in n.
Definition arg_Name (a : Argument) : string :=
  let 'mk_Argument n _ := a in n.
Definition arg_Value (a : Argument) : Literal :=
  let 'mk_Argument _ v := a in v.

(** ** Go outcomes

    A Go call of type [(T, error)] returns a value or an error: a
    [res].  [fmt.Errorf] is kept symbolic: the format string of the
    source and its operands.  A format with [%w] wraps the error given
    last.  [Join] is what [pool.ErrorPool.Wait] returns for the errors
    of its tasks.  A function of [server.go] that can also panic (an
    explicit [panic], a nil pointer that is dereferenced) has an
    [outcome]. *)

Inductive operand :=
| of_string (s : string)
| of_int (n : Z)
| of_ID (id : ID).

Inductive error :=
| Errorf (format : string) (operands : list operand)
| Wrapf (format : string) (operands : list operand) (wrapped : error)
| Join (errs : list error).

Inductive res (A : Type) :=
| Ok (a : A)
| Err (e : error).
Arguments Ok {A} a.
Arguments Err {A} e.

Inductive outcome (A : Type) :=
| Returned (r : res A)
| Panicked (msg : string).
Arguments Returned {A} r.
Arguments Panicked {A} msg.

(** Sequencing [v, err := f(); if err != nil { return nil, err }] is
    written [v ← f; ...] below. *)
#[global] Instance res_bind : MBind res := λ A B k r,
  match r with
  | Ok a => k a
  | Err e => Err e
  end.
#[global] Instance res_ret : MRet res := λ A a, Ok a.
#[global] Instance res_fmap : FMap res := λ A B f r,
  match r with
  | Ok a => Ok (f a)
  | Err e => Err e
  end.

#[global] Instance outcome_bind : MBind outcome := λ A B k r,
  match r with
  | Returned (Ok a) => k a
  | Returned (Err e) => Returned (Err e)
  | Panicked p => Panicked p
  end.
#[global] Instance outcome_ret : MRet outcome := λ A a, Returned (Ok a).
#[global] Instance outcome_fmap : FMap outcome := λ A B f r,
  match r with
  | Returned r => Returned (f <$> r)
  | Panicked p => Panicked p
  end.

(** [err != nil] re-wrapped by the caller, as [fmt.Errorf("...%w", err)]. *)
Definition wrap_err {A} (format : string) (operands : list operand)
    (r : res A) : res A :=
  match r with
  | Err e => Err (Wrapf format operands e)
  | _ => r
  end.

Definition nil_dereference : string :=
  "runtime error: invalid memory address or nil pointer dereference".

(** [idproto.NewType] copies the [ast.Type] into the message of the same
    shape, so the two are identified here. *)
Definition idproto_NewType (t : ast_Type) : option ast_Type := Some t.

(** [idproto.New(t)]: the ID of the root, an empty chain. *)
Definition idproto_New (t : ast_Type) : ID :=
  mk_ID (idproto_NewType t) [].

(** [ID.Clone] is a deep copy: on values, the same value. *)
Definition ID_Clone (id : ID) : ID := id.

Definition set_Nth (n : Z) (s : idSelector) : idSelector :=
  mk_idSelector (is_Field s) (is_Args s) (is_Tainted s) (is_Meta s) n.

(** [ID.Nth(i)]: on a clone, the last selector gets the index and the
    type becomes the element type.  (The library indexes the last
    selector, so it is for chains that have one; [appendToID] returns no
    other.) *)
Definition ID_Nth (id : ID) (i : Z) : ID :=
  let cp := ID_Clone id in
  mk_ID (t ← id_Type cp; Elem t)
    (alter (set_Nth i) (length (Constructor cp) - 1)%nat (Constructor cp)).

(** ** [sort.Slice] (Go standard library)

    The slice is reordered so that [less] never holds from a later to an
    earlier element.  Insertion sort is what the library runs on short
    slices; [sort_Slice_unique] below shows that for a strict total
    order on distinct keys every sorting procedure returns this list. *)

Section Sort.
Context {A : Type} (less : A → A → bool).

Fixpoint sort_insert (x : A) (l : list A) : list A :=
  match l with
  | [] => [x]
  | y :: l' => if less x y then x :: l else y :: sort_insert x l'
  end.

Fixpoint sort_Slice (l : list A) : list A :=
  match l with
  | [] => []
  | x :: l' => sort_insert x (sort_Slice l')
  end.

(** [a] is to come before [b]. *)
Definition before (a b : A) : Prop := less a b = true.
End Sort.

(** Go compares strings byte by byte. *)
Definition string_less (a b : string) : bool := String.ltb a b.

(** ** The typed-value model of package [dagql] *)

(** Modelled from the spec: the capability interface [Enumerable] is
    declared in a file of the package other than [server.go]; the spec
    (section 3) has it ordered, 1-indexed and of fixed length.  Its
    methods are [Len()] and [Nth(i)]. *)
Record Enumerable (Typed : Type) := {
  Len : Z;
  Nth : Z → res Typed
}.
Arguments Len {Typed} e.
Arguments Nth {Typed} e nth.

(** [Selector] specifies how to retrieve a value from an Instance. *)
Record Selector (Typed : Type) := {
  Field : string;
  Args : gmap string Typed;
  Nth_ : Z
}.
Arguments Field {Typed} s.
Arguments Args {Typed} s.
Arguments Nth_ {Typed} s.

(** Modelled from the spec: the capability interfaces [Typed], [Object]
    and [Nullable] and the helpers [ToLiteral], [NewInt], [NewFloat],
    [NewString], [NewBoolean] and [Array] are declared in files of the
    package other than [server.go].  The spec (section 3) gives a typed
    value a declared type name and the variants plain scalar, Object
    (identity and resolvable fields), Enumerable and Nullable (a value
    or an absence).  They are taken as parameters: the types, and for a
    Go type assertion [val.(I)] a partial view [as_I val] whose
    components are the methods of [I].  [Select] is the one point where
    a domain type supplies behaviour; it is taken as a function of the
    object and the selector. *)
Class Values := {
  Typed : Type;
  Object : Type;
  (** the Go [any] that a scalar decoder receives *)
  Raw : Type;
  raw_string : string → Raw;
  (** [val.Type()] *)
  Typed_Type : Typed → ast_Type;
  (** the operand of [%T]: the name of the dynamic Go type; [None] is a
      nil interface value *)
  fmt_T : option Typed → string;
  (** [val.(Nullable)], then [Unwrap()]: [Some None] reports absence,
      and the value returned with it is nil *)
  as_Nullable : Typed → option (option Typed);
  (** [val.(Enumerable)] *)
  as_Enumerable : Typed → option (Enumerable Typed);
  (** [val.(Object)] *)
  as_Object : Typed → option Object;
  (** [self.ID()], [self.Type()] and [self.Select(ctx, sel)] *)
  Object_ID : Object → ID;
  Object_Type : Object → ast_Type;
  Select : Object → Selector Typed → res Typed;
  (** [ToLiteral(val)] *)
  ToLiteral : Typed → Literal;
  NewInt : Z → Typed;
  NewFloat : Z → Typed;
  NewString : string → Typed;
  NewBoolean : bool → Typed;
  (** an [Array[Typed]] with these elements *)
  Array : list Typed → Typed;
  (** gqlparser: an [ast.Value], the variables of the operation, and
      [value.Value(vars)] *)
  ast_Value : Type;
  Variables : Type;
  Value_Value : ast_Value → Variables → res Raw;
  (** the Go scheduler: the order in which the goroutines that a pool
      has started finish, some arrangement of the order in which they
      were started *)
  finished : ∀ {A : Type}, list A → list A;
  finished_Permutation : ∀ {A : Type} (tasks : list A),
    finished tasks ≡ₚ tasks
}.

Section Server.
Context `{Values}.

(** [Selection] represents a selection of a field on an object. *)
Inductive Selection := mk_Selection {
  Alias : string;
  Selector_ : Selector Typed;
  Subselections : list Selection
}.

(** [Selection.Name]: either the alias or the field name. *)
Definition Name (sel : Selection) : string :=
  if decide (Alias sel ≠ "") then Alias sel
  else Field (Selector_ sel).

(** *** [Selector.appendToID]

    [range sel.Args] visits the entries of the map in an order that Go
    leaves unspecified: [entries] is that order, any arrangement of the
    entries of the map. *)

Definition less_Name (a b : Argument) : bool :=
  string_less (arg_Name a) (arg_Name b).

Definition appendToID_range (entries : list (string * Typed))
    (sel : Selector Typed) (id : ID) (field : ast_FieldDefinition) : ID :=
  let cp := ID_Clone id in
  let idArgs :=
    (λ '(name, val), mk_Argument name (ToLiteral val)) <$> entries in
  let idArgs := sort_Slice less_Name idArgs in
  mk_ID (idproto_NewType (fd_Type field))
    (Constructor cp ++
       [mk_idSelector (Field sel) idArgs
          (bool_decide (Directives_ForName (fd_Directives field) "tainted" ≠ None))
          (bool_decide (Directives_ForName (fd_Directives field) "meta" ≠ None))
          0]).

Definition appendToID (sel : Selector Typed) (id : ID)
    (field : ast_FieldDefinition) : ID :=
  appendToID_range (map_to_list (Args sel)) sel id field.

(** The argument of the ID for one entry of [sel.Args]. *)
Definition arg_of (entry : string * Typed) : Argument :=
  mk_Argument entry.1 (ToLiteral entry.2).

(** *** [Selector.appendToID] on the store

    The same function with the pointers of the source: an [*idproto.ID]
    is the address of a struct whose [Constructor] is a slice (backing
    array, length, capacity).  [append] writes into the backing array
    when there is room and moves to a larger array when there is none;
    [Clone] builds a new struct over a new backing array.  The capacity
    that [Clone] and [append] give a new array is the runtime's choice:
    [clone_cap] and [growslice].  The selectors are held by value:
    [appendToID] writes through no pointer to a selector. *)

Definition addr := positive.

Record slice := {
  s_array : addr;
  s_len : nat;
  s_cap : nat
}.

Inductive cell :=
| ID_struct (Type_ : option ast_Type) (Constructor : slice)
| Backing (slots : list (option idSelector)).

Definition alloc (c : cell) (h : gmap addr cell) : addr * gmap addr cell :=
  let a := fresh (dom h) in (a, <[a:=c]> h).

(** The selectors a slice holds: slots [0 .. len) of its array. *)
Definition slice_elems (h : gmap addr cell) (s : slice)
    : option (list idSelector) :=
  match h !! s_array s with
  | Some (Backing slots) =>
      if decide (s_len s ≤ s_cap s ∧ s_cap s = length slots)%nat
      then mapM id (take (s_len s) slots)
      else None
  | _ => None
  end.

(** The ID value that the struct at [p] stands for. *)
Definition read_ID (h : gmap addr cell) (p : addr) : option ID :=
  match h !! p with
  | Some (ID_struct t s) => mk_ID t <$> slice_elems h s
  | _ => None
  end.

Section Store.
Variable clone_cap : nat → nat.
Variable growslice : nat → nat.

(** [append(s, x)] *)
Definition go_append (s : slice) (x : idSelector) (h : gmap addr cell)
    : outcome (slice * gmap addr cell) :=
  match h !! s_array s with
  | Some (Backing slots) =>
      if decide (s_len s < s_cap s)%nat then
        Returned (Ok ({| s_array := s_array s; s_len := S (s_len s);
               s_cap := s_cap s |},
            <[s_array s := Backing (<[s_len s := Some x]> slots)]> h))
      else
        let cap := growslice (S (s_len s)) in
        let '(a, h) := alloc (Backing (take (s_len s) slots ++ [Some x]
                           ++ replicate (cap - S (s_len s)) None)) h in
        Returned (Ok ({| s_array := a; s_len := S (s_len s);
                         s_cap := cap |}, h))
  | _ => Panicked nil_dereference
  end.

(** [id.Clone()]: a deep copy *)
Definition st_Clone (id : addr) (h : gmap addr cell)
    : outcome (addr * gmap addr cell) :=
  match h !! id with
  | Some (ID_struct t s) =>
      match h !! s_array s with
      | Some (Backing slots) =>
          let cap := clone_cap (s_len s) in
          let '(a, h) := alloc (Backing (take (s_len s) slots
                             ++ replicate (cap - s_len s) None)) h in
          let '(cp, h) := alloc (ID_struct t
                {| s_array := a; s_len := s_len s; s_cap := cap |}) h in
          Returned (Ok (cp, h))
      | _ => Panicked nil_dereference
      end
  | _ => Panicked nil_dereference
  end.

Definition st_appendToID (entries : list (string * Typed))
    (sel : Selector Typed) (id : addr) (field : ast_FieldDefinition)
    (h : gmap addr cell) : outcome (addr * gmap addr cell) :=
  '(cp, h) ← st_Clone id h;
  let idArgs :=
    (λ '(name, val), mk_Argument name (ToLiteral val)) <$> entries in
  let idArgs := sort_Slice less_Name idArgs in
  match h !! cp with
  | Some (ID_struct t s) =>
      (* cp.Constructor = append(cp.Constructor, &idproto.Selector{...}) *)
      '(s', h) ← go_append s
        (mk_idSelector (Field sel) idArgs
          (bool_decide (Directives_ForName (fd_Directives field) "tainted" ≠ None))
          (bool_decide (Directives_ForName (fd_Directives field) "meta" ≠ None))
          0) h;
      let h := <[cp := ID_struct t s']> h in
      (* cp.Type = idproto.NewType(field.Type) *)
      let h := <[cp := ID_struct (idproto_NewType (fd_Type field)) s']> h in
      Returned (Ok (cp, h))
  | _ => Panicked nil_dereference
  end.
End Store.

(** ** The server and its registries *)

(** Modelled from the spec: the interface [ObjectType] is declared
    outside [server.go].  A class (spec, section 4.1) gives the
    definition of a field by name, makes an ID-backed handle ([NewID])
    and binds a raw value and an ID into an Object ([New]). *)
Record ObjectType := {
  FieldDefinition : string → option ast_FieldDefinition;
  NewID : ID → Typed;
  New : ID → Typed → res Object
}.

(** Modelled from the spec: the interface [ScalarType] is declared
    outside [server.go]; a scalar decodes a raw literal ([New]). *)
Record ScalarType := {
  Scalar_New : Raw → res Typed
}.

(** [Server]; the memoization cache and the install lock take no part in
    resolution. *)
Record Server := {
  root : Object;
  classes : gmap string ObjectType;
  scalars : gmap string ScalarType
}.

(** What resolution produces, a Go [any]: nil, a typed value, the
    [map[string]any] of a sibling group, or the [[]any] of a list. *)
Inductive any :=
| any_nil
| any_Typed (val : Typed)
| any_map (m : gmap string any)
| any_slice (l : list any).

(** [%T] of an [any]. *)
Definition any_T (x : any) : string :=
  match x with
  | any_nil => fmt_T None
  | any_Typed val => fmt_T (Some val)
  | any_map _ => "map[string]interface {}"
  | any_slice _ => "[]interface {}"
  end.

(** [res.(Enumerable)]: only a typed value can have the capability. *)
Definition any_as_Enumerable (x : any) : option (Enumerable Typed) :=
  match x with
  | any_Typed val => as_Enumerable val
  | _ => None
  end.

(** *** [Server.toSelectable] *)
Definition toSelectable (s : Server) (chainedID : ID) (val : Typed)
    : res Object :=
  match as_Object val with
  | Some sel =>
      (* We always support returning something that's already
         Selectable, e.g. an object loaded from its ID. *)
      Ok sel
  | None =>
      match classes s !! ast_Type_Name (Typed_Type val) with
      | None =>
          Err (Errorf "unknown type %q"
                 [of_string (ast_Type_Name (Typed_Type val))])
      | Some class => New class chainedID val
      end
  end.

(** *** The error pool ([conc], external library)

    [pool.Go] runs every task in a goroutine of its own.  A task that
    fails adds its error to the errors of the pool when it finishes,
    [p.errs = errors.Join(p.errs, err)]: [errors.Join] drops the nil of
    the first time and wraps the errors it is given as they are, so the
    joins nest, one level for each failed task.  [pool.Wait] waits for
    all the tasks and returns the errors of the pool, or nil.  The
    order in which the tasks finish is the scheduler's,
    [finished tasks]. *)

Fixpoint pool_errs {A} (tasks : list (res A)) : list error :=
  match tasks with
  | [] => []
  | Err e :: rest => e :: pool_errs rest
  | _ :: rest => pool_errs rest
  end.

Fixpoint pool_done {A} (tasks : list (res A)) : list A :=
  match tasks with
  | [] => []
  | Ok a :: rest => a :: pool_done rest
  | _ :: rest => pool_done rest
  end.

(** [ErrorPool.addErr]: [errs] is what the pool has joined so far, nil
    before the first failure. *)
Definition pool_addErr (errs : option error) (err : error) : option error :=
  match errs with
  | None => Some (Join [err])
  | Some errs => Some (Join [errs; err])
  end.

Definition pool_Wait {A} (tasks : list (res A)) : res (list A) :=
  let tasks := finished tasks in
  match foldl pool_addErr None (pool_errs tasks) with
  | None => Ok (pool_done tasks)
  | Some errs => Err errs
  end.

(** [results.Store(key, value)], one per task that succeeded, in the
    order in which the tasks finished, then [results.Range] into the
    map that is returned. *)
Definition Store_all (stored : list (string * any)) : gmap string any :=
  foldl (λ results kv, <[kv.1 := kv.2]> results) ∅ stored.

(** The task that [pool.Go] is given for [sel]; what it stores is
    returned here. *)
Definition Resolve_task (resolvePath : Selection → res any)
    (sel : Selection) : res (string * any) :=
  res ← wrap_err "%s: %w" [of_string (Name sel)] (resolvePath sel);
  Ok (Name sel, res).

(** The body of [Server.Resolve], over the recursive call it makes. *)
Definition Resolve_tasks (resolvePath : Selection → res any)
    (sels : list Selection) : res (gmap string any) :=
  stored ← pool_Wait (Resolve_task resolvePath <$> sels);
  Ok (Store_all stored).

(** [for nth := 1; nth <= enum.Len(); nth++ { ...; results =
    append(results, res) }], leaving at the first failure. *)
Fixpoint for_nth {A} (body : Z → res A) (nth : Z) (todo : nat)
    (results : list A) : res (list A) :=
  match todo with
  | O => Ok results
  | S todo =>
      res ← body nth;
      for_nth body (nth + 1) todo (results ++ [res])
  end.

(** *** [Server.resolvePath]

    [resolvePath] and [Resolve] call each other.  The body of
    [resolvePath] is written over the [Resolve] it calls on the
    sub-selections, and the recursion is closed below. *)
Definition resolvePath_body
    (Resolve : Object → list Selection → res (gmap string any))
    (s : Server) (self : Object) (sel : Selection) : res any :=
  match classes s !! ast_Type_Name (Object_Type self) with
  | None =>
      Err (Errorf "unknown type: %q"
             [of_string (ast_Type_Name (Object_Type self))])
  | Some class =>
  match FieldDefinition class (Field (Selector_ sel)) with
  | None =>
      Err (Errorf "unknown field: %q" [of_string (Field (Selector_ sel))])
  | Some fieldDef =>
      let chainedID := appendToID (Selector_ sel) (Object_ID self) fieldDef in
      val ← Select self (Selector_ sel);
      (* isNull holds exactly when [val] is [None] *)
      let val : option Typed :=
        match as_Nullable val with
        | Some unwrapped => unwrapped
        | None => Some val
        end in
      res ←
        match val with
        | None => Ok any_nil
        | Some val =>
            match Subselections sel with
            | [] => Ok (any_Typed val)
            | _ :: _ =>
                if decide (NamedType (fd_Type fieldDef) ≠ "") then
                  node ← wrap_err "instantiate: %w" []
                           (toSelectable s chainedID val);
                  any_map <$> Resolve node (Subselections sel)
                else if decide (Elem (fd_Type fieldDef) ≠ None) then
                  match as_Enumerable val with
                  | None =>
                      Err (Errorf "cannot sub-select %T"
                             [of_string (fmt_T (Some val))])
                  | Some enum =>
                      any_slice <$>
                        for_nth
                          (λ nth,
                             val ← Nth enum nth;
                             node ← wrap_err
                                      "instantiate %dth array element: %w"
                                      [of_int nth]
                                      (toSelectable s (ID_Nth chainedID nth)
                                         val);
                             any_map <$> Resolve node (Subselections sel))
                          1 (Z.to_nat (Len enum)) []
                  end
                else
                  Err (Errorf "cannot sub-select %T"
                         [of_string (fmt_T (Some val))])
            end
        end;
      if decide (Nth_ (Selector_ sel) ≠ 0) then
        match any_as_Enumerable res with
        | None =>
            Err (Errorf "cannot sub-select %dth item from %T"
                   [of_int (Nth_ (Selector_ sel)); of_string (fmt_T val)])
        | Some enum => any_Typed <$> Nth enum (Nth_ (Selector_ sel))
        end
      else Ok res
  end
  end.

Fixpoint resolvePath (s : Server) (self : Object) (sel : Selection)
    {struct sel} : res any :=
  resolvePath_body (λ node sels, Resolve_tasks (resolvePath s node) sels)
    s self sel.

(** *** [Server.Resolve] resolves the given selections on the given
    object; the results are returned in a map whose keys correspond to
    the selection's field name or alias. *)
Definition Resolve (s : Server) (self : Object) (sels : list Selection)
    : res (gmap string any) :=
  Resolve_tasks (resolvePath s self) sels.

(** *** [Server.fromLiteral] *)
Fixpoint fromLiteral (s : Server) (lit : Literal)
    (argDef : ast_ArgumentDefinition) {struct lit} : outcome Typed :=
  match lit with
  | Literal_Id id =>
      match id_Type id with
      | None => Panicked nil_dereference
      | Some t =>
          if decide (NamedType t = "") then
            Returned (Err (Errorf "invalid ID: %q" [of_ID id]))
          else
            match classes s !! NamedType t with
            | None =>
                Returned
                  (Err (Errorf "unknown class: %q" [of_string (NamedType t)]))
            | Some class => Returned (Ok (NewID class id))
            end
      end
  | Literal_Int v => Returned (Ok (NewInt v))
  | Literal_Float v => Returned (Ok (NewFloat v))
  | Literal_String_ v => Returned (Ok (NewString v))
  | Literal_Bool v => Returned (Ok (NewBoolean v))
  | Literal_List vals =>
      Array <$> mapM (λ val, fromLiteral s val argDef) vals
  | Literal_Object _ => Returned (Err (Errorf "TODO: objects" []))
  | Literal_Enum v =>
      let typeName := ast_Type_Name (ad_Type argDef) in
      match scalars s !! typeName with
      | None =>
          Returned (Err (Errorf "unknown scalar: %q" [of_string typeName]))
      | Some scalar => Returned (Scalar_New scalar (raw_string v))
      end
  | Literal_unset => Panicked "fromLiteral: unsupported literal type <nil>"
  end.

(** *** [Server.constructorToSelection]

    The loop over [first.Args].  The source appends [Arg{Name, Value}]
    to [sel.Selector.Args], which [Selector] declares as a map from
    argument names: the value is stored under its name. *)
Fixpoint decode_Args (s : Server) (fieldDef : ast_FieldDefinition)
    (args : list Argument) (sel_Args : gmap string Typed)
    : outcome (gmap string Typed) :=
  match args with
  | [] => Returned (Ok sel_Args)
  | arg :: rest =>
      match Arguments_ForName (fd_Arguments fieldDef) (arg_Name arg) with
      | None =>
          Returned
            (Err (Errorf "unknown argument: %q" [of_string (arg_Name arg)]))
      | Some argDef =>
          val ← fromLiteral s (arg_Value arg) argDef;
          decode_Args s fieldDef rest (<[arg_Name arg := val]> sel_Args)
      end
  end.

Fixpoint constructorToSelection (s : Server) (selfType : ast_Type)
    (first : idSelector) (rest : list idSelector) {struct rest}
    : outcome Selection :=
  match classes s !! ast_Type_Name selfType with
  | None =>
      Returned
        (Err (Errorf "unknown type: %q" [of_string (ast_Type_Name selfType)]))
  | Some class =>
  match FieldDefinition class (is_Field first) with
  | None =>
      Returned (Err (Errorf "unknown field: %q" [of_string (is_Field first)]))
  | Some fieldDef =>
      let resType := fd_Type fieldDef in
      sel_Args ← decode_Args s fieldDef (is_Args first) ∅;
      subsels ←
        match rest with
        | [] => Returned (Ok [])
        | rest0 :: rest =>
            subsel ← constructorToSelection s resType rest0 rest;
            Returned (Ok [subsel])
        end;
      Returned
        (Ok {| Alias := "";
               Selector_ := {| Field := is_Field first; Args := sel_Args;
                               Nth_ := is_Nth first |};
               Subselections := subsels |})
  end
  end.

(** *** [Server.Load] loads the object with the given ID. *)

(** [for _, sel := range id.Constructor { res = res.(map[string]any)[sel.Field] }];
    a key that is not in the map reads as nil. *)
Fixpoint Load_descend (cur : any) (chain : list idSelector) : res any :=
  match chain with
  | [] => Ok cur
  | sel :: chain =>
      match cur with
      | any_map m => Load_descend (default any_nil (m !! is_Field sel)) chain
      | x => Err (Errorf "unexpected result type %T" [of_string (any_T x)])
      end
  end.

Definition Load (s : Server) (id : ID) : outcome Object :=
  match Constructor id with
  | [] => Returned (Ok (root s))
  | first :: rest =>
      sel ← constructorToSelection s (Object_Type (root s)) first rest;
      Returned
        (res ← any_map <$> Resolve s (root s) [sel];
         res ← Load_descend res (Constructor id);
         match res with
         | any_Typed val => toSelectable s id val
         | _ =>
             Err (Errorf "unexpected result type %T" [of_string (any_T res)])
         end)
  end.

(** *** [Server.parseASTSelections]

    The selection set that gqlparser hands over: fields, fragment
    spreads and inline fragments.  A fragment spread is looked up in the
    document by name, so the recursion is not on the structure of the
    query: [fuel] bounds the depth of the calls, and [None] means that
    it was too small. *)

Record ast_Argument := {
  av_Name : string;
  av_Value : ast_Value
}.

Inductive ast_Selection :=
| ast_Field (Alias Name : string) (Arguments : list ast_Argument)
    (Definition_ : option ast_FieldDefinition)
    (SelectionSet : list ast_Selection)
| ast_FragmentSpread (Name : string)
| ast_InlineFragment (TypeCondition : string)
    (SelectionSet : list ast_Selection).

Record OperationContext := {
  op_Variables : Variables;
  (** [gqlOp.Doc.Fragments] *)
  op_Fragments : list (string * list ast_Selection)
}.

(** [FragmentDefinitionList.ForName] *)
Fixpoint Fragments_ForName (l : list (string * list ast_Selection))
    (name : string) : option (list ast_Selection) :=
  match l with
  | [] => None
  | it :: rest =>
      if decide (it.1 = name) then Some it.2
      else Fragments_ForName rest name
  end.

(** The loop over [x.Arguments].  In the source the result of
    [ForName] is bound to a new [arg] that hides the argument of the
    query, so the [arg.Name] of the error message is read through the
    nil pointer that was just tested. *)
Fixpoint parse_Arguments (s : Server) (vars : Variables)
    (x_Definition : option ast_FieldDefinition)
    (x_Arguments : list ast_Argument) (args : gmap string Typed)
    : outcome (gmap string Typed) :=
  match x_Arguments with
  | [] => Returned (Ok args)
  | arg :: rest =>
      val ← Returned (Value_Value (av_Value arg) vars);
      match x_Definition with
      | None => Panicked nil_dereference
      | Some definition =>
          match Arguments_ForName (fd_Arguments definition) (av_Name arg) with
          | None => Panicked nil_dereference
          | Some arg =>
              match scalars s !! ast_Type_Name (ad_Type arg) with
              | None =>
                  Returned
                    (Err (Errorf "unknown scalar: %q"
                            [of_string (ast_Type_Name (ad_Type arg))]))
              | Some scalar =>
                  typed ← Returned (Scalar_New scalar val);
                  parse_Arguments s vars x_Definition rest
                    (<[ad_Name arg := typed]> args)
              end
          end
      end
  end.

Fixpoint parseASTSelections (fuel : nat) (s : Server)
    (gqlOp : OperationContext) (astSels : list ast_Selection)
    {struct fuel} : option (outcome (list Selection)) :=
  match fuel with
  | O => None
  | S fuel =>
      let vars := op_Variables gqlOp in
      (fix range (astSels : list ast_Selection) (sels : list Selection)
           : option (outcome (list Selection)) :=
         match astSels with
         | [] => Some (Returned (Ok sels))
         | ast_Field alias name arguments definition selectionSet :: astSels =>
             match parse_Arguments s vars definition arguments ∅ with
             | Returned (Ok args) =>
                 match parseASTSelections fuel s gqlOp selectionSet with
                 | Some (Returned (Ok subsels)) =>
                     range astSels
                       (sels ++ [{| Alias := alias;
                                    Selector_ := {| Field := name; Args := args;
                                                    Nth_ := 0 |};
                                    Subselections := subsels |}])%list
                 | other => other
                 end
             | Returned (Err e) => Some (Returned (Err e))
             | Panicked p => Some (Panicked p)
             end
         | ast_FragmentSpread name :: astSels =>
             match Fragments_ForName (op_Fragments gqlOp) name with
             | None =>
                 Some (Returned
                         (Err (Errorf "unknown fragment: %s" [of_string name])))
             | Some fragment =>
                 match parseASTSelections fuel s gqlOp fragment with
                 | Some (Returned (Ok subsels)) =>
                     range astSels (sels ++ subsels)%list
                 | other => other
                 end
             end
         | ast_InlineFragment _ _ :: _ =>
             Some (Returned
                     (Err (Errorf "unknown field type: %T"
                             [of_string "*ast.InlineFragment"])))
         end) astSels []
  end.

(** *** [Server.field] *)
Definition field (s : Server) (typeName fieldName : string)
    : res ast_FieldDefinition :=
  match classes s !! typeName with
  | None => Err (Errorf "unknown type: %q" [of_string typeName])
  | Some class =>
      match FieldDefinition class fieldName with
      | None => Err (Errorf "unknown field: %q" [of_string fieldName])
      | Some fieldDef => Ok fieldDef
      end
  end.

(** *** [Server.Exec]

    What [Exec] reads of the operation context besides the variables
    and the fragments: the outcome of [gqlOp.Validate], the name of the
    requested operation and the operations of the document.  The kind
    of an operation is the string of [ast.Operation]. *)

Record ast_OperationDefinition := {
  od_Operation : string;
  od_Name : string;
  od_SelectionSet : list ast_Selection
}.

Record Request := {
  rq_gqlOp : OperationContext;
  rq_Validate : option error;
  rq_OperationName : string;
  rq_Operations : list ast_OperationDefinition
}.

(** [graphql.ErrorResponse(ctx, format, err)], or the response that
    carries the marshalled results. *)
Inductive Response :=
| ErrorResponse (format : string) (err : option error)
| Response_Data (data : string).

(** [for _, op := range doc.Operations { switch op.Operation { ... } }]:
    the response that an operation returns at once, or the results
    after the last operation. *)
Fixpoint Exec_range (fuel : nat) (s : Server) (rq : Request)
    (operations : list ast_OperationDefinition) (results : gmap string any)
    : option (outcome (Response + gmap string any)) :=
  match operations with
  | [] => Some (Returned (Ok (inr results)))
  | op :: operations =>
      if decide (od_Operation op = "query") then
        if decide (rq_OperationName rq ≠ "" ∧ rq_OperationName rq ≠ od_Name op)
        then Exec_range fuel s rq operations results
        else
          match parseASTSelections fuel s (rq_gqlOp rq) (od_SelectionSet op) with
          | None => None
          | Some (Panicked p) => Some (Panicked p)
          | Some (Returned (Err err)) =>
              Some (Returned
                      (Ok (inl (ErrorResponse
                                  "failed to convert selections: %s"
                                  (Some err)))))
          | Some (Returned (Ok sels)) =>
              match Resolve s (root s) sels with
              | Err err =>
                  Some (Returned
                          (Ok (inl (ErrorResponse "failed to resolve: %s"
                                      (Some err)))))
              | Ok results => Exec_range fuel s rq operations results
              end
          end
      else if decide (od_Operation op = "mutation") then
        Some (Returned (Ok (inl (ErrorResponse "mutations not supported" None))))
      else if decide (od_Operation op = "subscription") then
        Some (Returned
                (Ok (inl (ErrorResponse "subscriptions not supported" None))))
      else Exec_range fuel s rq operations results
  end.

(** [json.Marshal] of the results is a parameter. *)
Definition Exec (json_Marshal : gmap string any → res string) (fuel : nat)
    (s : Server) (rq : Request) : option (outcome Response) :=
  match rq_Validate rq with
  | Some err => Some (Returned (Ok (ErrorResponse "validate: %s" (Some err))))
  | None =>
      match Exec_range fuel s rq (rq_Operations rq) ∅ with
      | None => None
      | Some (Panicked p) => Some (Panicked p)
      | Some (Returned (Err err)) => Some (Returned (Err err))
      | Some (Returned (Ok (inl response))) => Some (Returned (Ok response))
      | Some (Returned (Ok (inr results))) =>
          match json_Marshal results with
          | Err err =>
              Some (Returned (Ok (ErrorResponse "marshal: %s" (Some err))))
          | Ok data => Some (Returned (Ok (Response_Data data)))
          end
      end
  end.

End Server.

(** ** Notions used in the statements *)

(** A field of list type: no named type, an element type. *)
Definition list_typed (fieldDef : ast_FieldDefinition) : Prop :=
  NamedType (fd_Type fieldDef) = "" ∧ Elem (fd_Type fieldDef) ≠ None.

(** The two errors of [resolvePath] that say "cannot sub-select". *)
Definition cannot_sub_select (e : error) : Prop :=
  ∃ operands,
    e = Errorf "cannot sub-select %T" operands
    ∨ e = Errorf "cannot sub-select %dth item from %T" operands.

(** The errors of a pool whose first failed task to finish added
    [first] and whose later ones added [errs], in this order: each
    error is joined to the join of those before it. *)
Definition joined_in_turn (first : error) (errs : list error) : error :=
  foldl (λ joined err, Join [joined; err]) (Join [first]) errs.

Section Notions.
Context `{Values}.

(** The error of the task that [Resolve] starts for [sel]: the error of
    [resolvePath], wrapped with the name of the selection; [None] when
    the selection resolves. *)
Definition failure (s : Server) (self : Object) (sel : Selection)
    : option error :=
  match resolvePath s self sel with
  | Err e => Some (Wrapf "%s: %w" [of_string (Name sel)] e)
  | Ok _ => None
  end.

(** The value of the field after [Unwrap]: [None] when it is absent. *)
Definition unwrapped (val : Typed) : option Typed :=
  match as_Nullable val with
  | Some unwrapped => unwrapped
  | None => Some val
  end.

(** The step of [resolvePath] for one element of a list. *)
Definition element (s : Server) (chainedID : ID) (enum : Enumerable Typed)
    (subs : list Selection) (nth : Z) : res any :=
  val ← Nth enum nth;
  node ← wrap_err "instantiate %dth array element: %w" [of_int nth]
           (toSelectable s (ID_Nth chainedID nth) val);
  any_map <$> Resolve s node subs.

(** Every element of the list is read, made an Object under its own ID
    and has its sub-selections resolved: [maps] are the results, in
    index order. *)
Definition elements_resolved (s : Server) (chainedID : ID)
    (enum : Enumerable Typed) (subs : list Selection)
    (maps : list (gmap string any)) : Prop :=
  length maps = Z.to_nat (Len enum)
  ∧ ∀ (i : nat) m, maps !! i = Some m →
      ∃ elem node,
        Nth enum (1 + Z.of_nat i) = Ok elem
        ∧ toSelectable s (ID_Nth chainedID (1 + Z.of_nat i)) elem = Ok node
        ∧ Resolve s node subs = Ok m.

(** What [toSelectable] makes of [elem] when it is given the ID [id]:
    an element that is an Object already is taken as it is, with the ID
    that it carries, and [id] is not used; any other element is handed,
    with [id], to the class of its type. *)
Definition materialized (s : Server) (id : ID) (elem : Typed)
    (node : Object) : Prop :=
  as_Object elem = Some node
  ∨ as_Object elem = None
    ∧ ∃ class,
        classes s !! ast_Type_Name (Typed_Type elem) = Some class
        ∧ New class id elem = Ok node.

(** Every element of the list is read, is made an Object, where it is
    not one already, by its class under its own ID [chainedID.Nth(nth)],
    and has its sub-selections resolved: [maps] are the results, in
    index order. *)
Definition elements_materialized (s : Server) (chainedID : ID)
    (enum : Enumerable Typed) (subs : list Selection)
    (maps : list (gmap string any)) : Prop :=
  length maps = Z.to_nat (Len enum)
  ∧ ∀ (i : nat) m, maps !! i = Some m →
      ∃ elem node,
        Nth enum (1 + Z.of_nat i) = Ok elem
        ∧ materialized s (ID_Nth chainedID (1 + Z.of_nat i)) elem node
        ∧ Resolve s node subs = Ok m.

(** [sel] is the synthetic selection of the chain [first :: rest]: one
    selection per element, without alias, with the field and the index
    of the element, each wrapping the selection of the next element. *)
Fixpoint replays (sel : Selection) (first : idSelector)
    (rest : list idSelector) : Prop :=
  Alias sel = ""
  ∧ Field (Selector_ sel) = is_Field first
  ∧ Nth_ (Selector_ sel) = is_Nth first
  ∧ match rest with
    | [] => Subselections sel = []
    | rest0 :: rest =>
        ∃ subsel, Subselections sel = [subsel] ∧ replays subsel rest0 rest
    end.

(** No selection of the tree carries a trailing index. *)
Fixpoint no_index (sel : Selection) : Prop :=
  Nth_ (Selector_ sel) = 0
  ∧ (fix all (subs : list Selection) : Prop :=
       match subs with
       | [] => True
       | sub :: subs => no_index sub ∧ all subs
       end) (Subselections sel).

(** Every selector of the chain names a field of the class of the type
    reached, and gives it only arguments that the field declares. *)
Fixpoint chain_declared (s : Server) (selfType : ast_Type)
    (first : idSelector) (rest : list idSelector) : Prop :=
  ∃ class fieldDef,
    classes s !! ast_Type_Name selfType = Some class
    ∧ FieldDefinition class (is_Field first) = Some fieldDef
    ∧ Forall (λ arg, Arguments_ForName (fd_Arguments fieldDef) (arg_Name arg)
                     ≠ None) (is_Args first)
    ∧ match rest with
      | [] => True
      | rest0 :: rest => chain_declared s (fd_Type fieldDef) rest0 rest
      end.

(** The literal holds, at some depth of its lists, an object literal or
    a literal of which no member is set. *)
Fixpoint undecodable (lit : Literal) : Prop :=
  match lit with
  | Literal_Object _ | Literal_unset => True
  | Literal_List vals =>
      (fix any_of (vals : list Literal) : Prop :=
         match vals with
         | [] => False
         | val :: vals => undecodable val ∨ any_of vals
         end) vals
  | _ => False
  end.

(** The literal holds an enum symbol at some depth of its lists. *)
Fixpoint has_enum (lit : Literal) : Prop :=
  match lit with
  | Literal_Enum _ => True
  | Literal_List vals =>
      (fix any_of (vals : list Literal) : Prop :=
         match vals with
         | [] => False
         | val :: vals => has_enum val ∨ any_of vals
         end) vals
  | _ => False
  end.

(** The depth of the lists of a literal. *)
Fixpoint list_depth (lit : Literal) : nat :=
  match lit with
  | Literal_List vals =>
      S ((fix deepest (vals : list Literal) : nat :=
            match vals with
            | [] => O
            | val :: vals => Nat.max (list_depth val) (deepest vals)
            end) vals)
  | _ => O
  end.

(** The result [v] has the shape of the selection [sel], at every
    depth: null only without trailing index; a typed value only for a
    selection without sub-selections; a map, or a slice of maps, only
    for a selection with sub-selections and no trailing index, each map
    with the names of the sub-selections as its keys and under each key
    a result of the shape of a sub-selection of that name. *)
Fixpoint mirrors (sel : Selection) (v : any) {struct sel} : Prop :=
  let entries (m : gmap string any) : Prop :=
    dom m = list_to_set (Name <$> Subselections sel)
    ∧ ∀ k v, m !! k = Some v →
        (fix some (subs : list Selection) : Prop :=
           match subs with
           | [] => False
           | sub :: subs => (Name sub = k ∧ mirrors sub v) ∨ some subs
           end) (Subselections sel) in
  match v with
  | any_nil => Nth_ (Selector_ sel) = 0
  | any_Typed _ => Subselections sel = []
  | any_map m =>
      Nth_ (Selector_ sel) = 0 ∧ Subselections sel ≠ [] ∧ entries m
  | any_slice l =>
      Nth_ (Selector_ sel) = 0 ∧ Subselections sel ≠ []
      ∧ Forall (λ x, ∃ m, x = any_map m ∧ entries m) l
  end.

(** The map [m] has the shape of the sibling selections [sels]. *)
Definition mirrors_all (sels : list Selection) (m : gmap string any) : Prop :=
  dom m = list_to_set (Name <$> sels)
  ∧ ∀ k v, m !! k = Some v →
      ∃ sel, sel ∈ sels ∧ Name sel = k ∧ mirrors sel v.

(** The loop of [parseASTSelections] over a selection set, from the
    selections appended so far; [parse] stands for the calls that the
    loop makes on the nested selection sets and on the fragments. *)
Definition parse_range
    (parse : list ast_Selection → option (outcome (list Selection)))
    (s : Server) (gqlOp : OperationContext)
    : list ast_Selection → list Selection → option (outcome (list Selection)) :=
  fix range (astSels : list ast_Selection) (sels : list Selection)
      : option (outcome (list Selection)) :=
    match astSels with
    | [] => Some (Returned (Ok sels))
    | ast_Field alias name arguments definition selectionSet :: astSels =>
        match parse_Arguments s (op_Variables gqlOp) definition arguments ∅ with
        | Returned (Ok args) =>
            match parse selectionSet with
            | Some (Returned (Ok subsels)) =>
                range astSels
                  (sels ++ [{| Alias := alias;
                               Selector_ := {| Field := name; Args := args;
                                               Nth_ := 0 |};
                               Subselections := subsels |}])%list
            | other => other
            end
        | Returned (Err e) => Some (Returned (Err e))
        | Panicked p => Some (Panicked p)
        end
    | ast_FragmentSpread name :: astSels =>
        match Fragments_ForName (op_Fragments gqlOp) name with
        | None =>
            Some (Returned
                    (Err (Errorf "unknown fragment: %s" [of_string name])))
        | Some fragment =>
            match parse fragment with
            | Some (Returned (Ok subsels)) =>
                range astSels (sels ++ subsels)%list
            | other => other
            end
        end
    | ast_InlineFragment _ _ :: _ =>
        Some (Returned
                (Err (Errorf "unknown field type: %T"
                        [of_string "*ast.InlineFragment"])))
    end.

(** The operation is a query that [Exec] runs for this request. *)
Definition runs_query (rq : Request) (op : ast_OperationDefinition) : Prop :=
  od_Operation op = "query"
  ∧ ¬ (rq_OperationName rq ≠ "" ∧ rq_OperationName rq ≠ od_Name op).

End Notions.

(** ** The memoization cache

    [server.go] holds the cache and builds it with [NewCacheMap]; the
    type [CacheMap] and its [GetOrCompute] are declared elsewhere in the
    package.  The callers run interleaved.  A caller is about to call,
    runs the computation, is blocked on the computation in flight, or
    has got its result.  [computeFn] stands for what running it returns:
    a value or an error.  [computed] records, per digest, the callers
    that ran their [computeFn]. *)

Section CacheMap.
Context {K V : Type} `{Countable K}.

(** Modelled from the spec: the entries of [CacheMap], which is declared
    outside [server.go].  A digest has no entry, a computation in
    flight, or the value or error that was computed; entries never
    expire (spec, section 4.6). *)
Inductive entry :=
| InFlight
| Done (r : res V).

Inductive caller :=
| Calling (digest : K) (computeFn : res V)
| Computing (digest : K) (computeFn : res V)
| Blocked (digest : K)
| Got (digest : K) (r : res V).

Record cache_state := {
  entries : gmap K entry;
  callers : list caller;
  computed : gmap K (list nat)
}.

Definition computed_by (st : cache_state) (digest : K) : list nat :=
  default [] (computed st !! digest).

Definition set_caller (i : nat) (c : caller) (st : cache_state)
    : cache_state :=
  {| entries := entries st; callers := <[i := c]> (callers st);
     computed := computed st |}.

(** Modelled from the spec: [CacheMap.GetOrCompute], which is declared
    outside [server.go].  The spec (section 4.6): [GetOrCompute(digest,
    computeFn)] returns the previously computed value for [digest] if
    present; otherwise it executes [computeFn] exactly once even under
    concurrent callers requesting the same digest; all concurrent
    callers for the same digest block until the single in-flight
    computation finishes and then receive its value or its error.

    One step of caller [i]: it finds the value, or blocks on the
    computation in flight, or starts the computation; a caller that
    computes finishes and stores the result; a blocked caller is woken
    by the result.  [None] when the caller cannot move: it is blocked
    and the computation is still in flight, or it has returned. *)
Definition cache_step (i : nat) (st : cache_state) : option cache_state :=
  match callers st !! i with
  | Some (Calling digest computeFn) =>
      match entries st !! digest with
      | Some (Done r) => Some (set_caller i (Got digest r) st)
      | Some InFlight => Some (set_caller i (Blocked digest) st)
      | None =>
          Some {| entries := <[digest := InFlight]> (entries st);
                  callers := <[i := Computing digest computeFn]> (callers st);
                  computed := <[digest := computed_by st digest ++ [i]]>
                                (computed st) |}
      end
  | Some (Computing digest computeFn) =>
      Some {| entries := <[digest := Done computeFn]> (entries st);
              callers := <[i := Got digest computeFn]> (callers st);
              computed := computed st |}
  | Some (Blocked digest) =>
      match entries st !! digest with
      | Some (Done r) => Some (set_caller i (Got digest r) st)
      | _ => None
      end
  | Some (Got _ _) | None => None
  end.

(** The callers scheduled in this order; a caller that cannot move
    stays where it is. *)
Fixpoint cache_run (schedule : list nat) (st : cache_state) : cache_state :=
  match schedule with
  | [] => st
  | i :: schedule => cache_run schedule (default st (cache_step i st))
  end.

(** Concurrent calls [GetOrCompute(digest, computeFn)] on a new cache. *)
Definition cache_init (calls : list (K * res V)) : cache_state :=
  {| entries := ∅;
     callers := (λ call, Calling call.1 call.2) <$> calls;
     computed := ∅ |}.

Definition has_returned (c : caller) : Prop :=
  match c with Got _ _ => True | _ => False end.

(** What holds of every state that the callers can reach. *)
Record cache_inv (calls : list (K * res V)) (st : cache_state) : Prop := {
  inv_length : length (callers st) = length calls;
  inv_Calling : ∀ i k f,
    callers st !! i = Some (Calling k f) → calls !! i = Some (k, f);
  inv_Computing : ∀ i k f,
    callers st !! i = Some (Computing k f) →
    calls !! i = Some (k, f) ∧ entries st !! k = Some InFlight
    ∧ computed_by st k = [i];
  inv_Blocked : ∀ i k,
    callers st !! i = Some (Blocked k) →
    is_Some (entries st !! k) ∧ ∃ f, calls !! i = Some (k, f);
  inv_Got : ∀ i k r,
    callers st !! i = Some (Got k r) →
    entries st !! k = Some (Done r) ∧ ∃ f, calls !! i = Some (k, f);
  inv_absent : ∀ k, entries st !! k = None → computed_by st k = [];
  inv_InFlight : ∀ k,
    entries st !! k = Some InFlight →
    ∃ i f, callers st !! i = Some (Computing k f);
  inv_Done : ∀ k r,
    entries st !! k = Some (Done r) →
    ∃ i, computed_by st k = [i] ∧ calls !! i = Some (k, r)
}.

(** Caller [j], whose call was for [digest], has returned, and what it
    holds is the result of the one computation for [digest]: the
    [computeFn] of the caller [i] that ran it. *)
Definition received (calls : list (K * res V)) (st : cache_state)
    (j : nat) (digest : K) : Prop :=
  ∃ i r,
    callers st !! j = Some (Got digest r)
    ∧ entries st !! digest = Some (Done r)
    ∧ computed_by st digest = [i]
    ∧ calls !! i = Some (digest, r).

(** Where caller [j], whose call is [GetOrCompute(digest, computeFn)],
    stands: it has not looked at the cache yet; or it is the one that
    computes; or it is blocked on the entry of its digest, and cannot
    move while the computation is in flight; or it has returned with
    the one result. *)
Definition stands (calls : list (K * res V)) (st : cache_state)
    (j : nat) (digest : K) (computeFn : res V) : Prop :=
  callers st !! j = Some (Calling digest computeFn)
  ∨ callers st !! j = Some (Computing digest computeFn)
    ∧ entries st !! digest = Some InFlight
    ∧ computed_by st digest = [j]
  ∨ callers st !! j = Some (Blocked digest)
    ∧ is_Some (entries st !! digest)
    ∧ (entries st !! digest = Some InFlight → cache_step j st = None)
  ∨ received calls st j digest.

(** The steps that a caller still has to make, at most. *)
Definition steps_left (c : caller) : nat :=
  match c with
  | Calling _ _ => 2
  | Computing _ _ | Blocked _ => 1
  | Got _ _ => 0
  end.

End CacheMap.

(** ** A small schema to run the server on

    [Query] has the fields [hello(name: String): String],
    [items: [Item]], [empty: [Item]], [missing: Item] (absent),
    [first: Item], [loaded: Item] (an object that carries an ID of its
    own) and [boom] (whose resolver fails); [Item] has [n: Int] and
    [fail] (whose resolver fails). *)

Module Demo.

Inductive value :=
| Int (n : Z)
| Float (bits : Z)
| Str (s : string)
| Boolean (b : bool)
| List (elems : list value)
| Optional (v : option value)
| Handle (id : ID)
| Item (n : Z)
| Inst (id : ID) (type : string) (self : value).

Record object := {
  o_ID : ID;
  o_Type : string;
  o_Self : value
}.

Definition named (name : string) : ast_Type :=
  mk_ast_Type name None false.
Definition list_of (t : ast_Type) : ast_Type :=
  mk_ast_Type "" (Some t) false.

Definition value_Type (v : value) : ast_Type :=
  match v with
  | Int _ => named "Int"
  | Float _ => named "Float"
  | Str _ => named "String"
  | Boolean _ => named "Boolean"
  | List _ => list_of (named "Item")
  | Optional _ => named "Item"
  | Handle _ => named "ItemID"
  | Item _ => named "Item"
  | Inst _ type _ => named type
  end.

Definition value_T (v : option value) : string :=
  match v with
  | None => "<nil>"
  | Some (Int _) => "dagql.Int"
  | Some (Float _) => "dagql.Float"
  | Some (Str _) => "dagql.String"
  | Some (Boolean _) => "dagql.Boolean"
  | Some (List _) => "dagql.Array[dagql.Typed]"
  | Some (Optional _) => "dagql.Optional[demo.Item]"
  | Some (Handle _) => "dagql.ID[demo.Item]"
  | Some (Item _) => "demo.Item"
  | Some (Inst _ _ _) => "dagql.Instance[demo.Item]"
  end.

Definition value_Literal (v : value) : Literal :=
  match v with
  | Int n => Literal_Int n
  | Float b => Literal_Float b
  | Str s => Literal_String_ s
  | Boolean b => Literal_Bool b
  | Handle id => Literal_Id id
  | _ => Literal_unset
  end.

Definition list_Enumerable (elems : list value) : Enumerable value :=
  {| Len := Z.of_nat (length elems);
     Nth := λ nth,
       if decide (1 ≤ nth)%Z
       then match elems !! Z.to_nat (nth - 1) with
            | Some v => Ok v
            | None => Err (Errorf "index out of bounds: %d" [of_int nth])
            end
       else Err (Errorf "index out of bounds: %d" [of_int nth]) |}.

Definition loaded_ID : ID :=
  mk_ID (Some (named "Item"))
    [mk_idSelector "first" [] false false 0].

Definition select (self : object) (sel : Selector value) : res value :=
  if decide (o_Type self = "Query") then
    if decide (Field sel = "hello") then
      match Args sel !! "name" with
      | Some (Str name) => Ok (Str ("Hello, " +:+ name))
      | _ => Err (Errorf "missing argument: %q" [of_string "name"])
      end
    else if decide (Field sel = "items") then Ok (List [Item 3; Item 1; Item 2])
    else if decide (Field sel = "empty") then Ok (List [])
    else if decide (Field sel = "missing") then Ok (Optional None)
    else if decide (Field sel = "first") then Ok (Item 1)
    else if decide (Field sel = "loaded") then
      Ok (Inst loaded_ID "Item" (Item 1))
    else if decide (Field sel = "saved") then
      Ok (List [Inst loaded_ID "Item" (Item 1)])
    else Err (Errorf "boom" [])
  else
    match o_Self self with
    | Item n =>
        if decide (Field sel = "n") then Ok (Int n)
        else if decide (Field sel = "twice") then Ok (List [Item n; Item n])
        else Err (Errorf "boom" [])
    | _ => Err (Errorf "boom" [])
    end.

#[global] Instance values : Values := {|
  Typed := value;
  Object := object;
  Raw := string;
  raw_string := λ s, s;
  Typed_Type := value_Type;
  fmt_T := value_T;
  as_Nullable := λ v, match v with Optional o => Some o | _ => None end;
  as_Enumerable := λ v,
    match v with List l => Some (list_Enumerable l) | _ => None end;
  as_Object := λ v,
    match v with
    | Inst id type self =>
        Some {| o_ID := id; o_Type := type; o_Self := self |}
    | _ => None
    end;
  Object_ID := o_ID;
  Object_Type := λ o, named (o_Type o);
  Select := select;
  ToLiteral := value_Literal;
  NewInt := Int;
  NewFloat := Float;
  NewString := Str;
  NewBoolean := Boolean;
  Array := List;
  ast_Value := string;
  Variables := unit;
  Value_Value := λ v _, Ok v;
  finished := λ _ tasks, tasks;
  finished_Permutation := λ _ tasks, Permutation_refl tasks
|}.

Definition field (name : string) (args : list ast_ArgumentDefinition)
    (type : ast_Type) : ast_FieldDefinition :=
  {| fd_Name := name; fd_Arguments := args; fd_Type := type;
     fd_Directives := [] |}.

Definition Query_fields : list ast_FieldDefinition :=
  [ field "hello" [{| ad_Name := "name"; ad_Type := named "String" |}]
      (named "String");
    field "items" [] (list_of (named "Item"));
    field "empty" [] (list_of (named "Item"));
    field "missing" [] (named "Item");
    field "first" [] (named "Item");
    field "loaded" [] (named "Item");
    field "boom" [] (named "Item");
    field "saved" [] (list_of (named "Item")) ].

Definition Item_fields : list ast_FieldDefinition :=
  [ field "n" [] (named "Int"); field "fail" [] (named "Int");
    field "twice" [] (list_of (named "Item")) ].

Definition class (fields : list ast_FieldDefinition) : ObjectType :=
  {| FieldDefinition := λ name,
       list_find (λ f, fd_Name f = name) fields ≫= λ x, Some x.2;
     NewID := Handle;
     New := λ id val,
       Ok {| o_ID := id; o_Type := ast_Type_Name (value_Type val);
             o_Self := val |} |}.

Definition srv : Server :=
  {| root := {| o_ID := idproto_New (named "Query"); o_Type := "Query";
                o_Self := Item 0 |};
     classes := {[ "Query" := class Query_fields;
                   "Item" := class Item_fields ]};
     scalars := {[ "String" := {| Scalar_New := λ raw, Ok (Str raw) |} ]} |}.

(** The selection of [name] with no arguments and these sub-selections. *)
Definition pick (alias name : string) (nth : Z) (subs : list Selection)
    : Selection :=
  {| Alias := alias;
     Selector_ := {| Field := name; Args := ∅; Nth_ := nth |};
     Subselections := subs |}.

(** A query operation that selects one field of the root. *)
Definition query (name fieldName : string) (type : ast_Type)
    : ast_OperationDefinition :=
  {| od_Operation := "query"; od_Name := name;
     od_SelectionSet :=
       [ast_Field "" fieldName [] (Some (field fieldName [] type)) []] |}.

(** A request that passed validation, without variables or fragments. *)
Definition request (operationName : string)
    (operations : list ast_OperationDefinition) : Request :=
  {| rq_gqlOp := {| op_Variables := (); op_Fragments := [] |};
     rq_Validate := None;
     rq_OperationName := operationName;
     rq_Operations := operations |}.

(** In place of [json.Marshal]: the keys of the results. *)
Definition marshal_keys (results : gmap string any) : res string :=
  Ok (String.concat "," (map_to_list results).*1).

End Demo.

(** * Properties *)

(** ** The order on argument names *)

Lemma string_compare_refl (a : string) : String.compare a a = Eq.
Proof.
  induction a as [|c a IH]; simpl; [done|].
  unfold Ascii.compare. by rewrite N.compare_refl.
Qed.

Lemma string_compare_lt_trans (a b c : string) :
  String.compare a b = Lt → String.compare b c = Lt →
  String.compare a c = Lt.
Proof.
  revert b c. induction a as [|x a IH]; intros [|y b] [|z c]; simpl; try done.
  destruct (Ascii.compare x y) eqn:Hxy; try done.
  - apply Ascii.compare_eq_iff in Hxy as ->.
    destruct (Ascii.compare y z); try done. apply IH.
  - intros _. destruct (Ascii.compare y z) eqn:Hyz; try done.
    + apply Ascii.compare_eq_iff in Hyz as <-. by rewrite Hxy.
    + intros _. unfold Ascii.compare in *.
      rewrite N.compare_lt_iff in Hxy, Hyz.
      assert (Ascii.N_of_ascii x < Ascii.N_of_ascii z)%N as Hxz by lia.
      apply N.compare_lt_iff in Hxz. by rewrite Hxz.
Qed.

Lemma string_less_irrefl (a : string) : string_less a a = false.
Proof. unfold string_less, String.ltb. by rewrite string_compare_refl. Qed.

Lemma string_less_trans (a b c : string) :
  string_less a b = true → string_less b c = true → string_less a c = true.
Proof.
  unfold string_less, String.ltb. intros Hab Hbc.
  destruct (String.compare a b) eqn:E1; try done.
  destruct (String.compare b c) eqn:E2; try done.
  by rewrite (string_compare_lt_trans a b c).
Qed.

Lemma string_less_total (a b : string) :
  string_less a b = false → a ≠ b → string_less b a = true.
Proof.
  unfold string_less, String.ltb. intros Hab Hne.
  rewrite (String.compare_antisym b a).
  destruct (String.compare a b) eqn:E; try done.
  by apply String.compare_eq_iff in E.
Qed.

(** ** [sort.Slice] sorts, and a sorted arrangement is unique *)

Section SortFacts.
Context {A : Type} (less : A → A → bool) (key : A → string).
Hypothesis less_key : ∀ a b, less a b = string_less (key a) (key b).

Lemma sort_insert_perm x l : sort_insert less x l ≡ₚ x :: l.
Proof.
  induction l as [|y l IH]; simpl; [done|].
  destruct (less x y); [done|]. rewrite IH. apply Permutation_swap.
Qed.

Lemma sort_Slice_perm l : sort_Slice less l ≡ₚ l.
Proof.
  induction l as [|x l IH]; simpl; [done|].
  by rewrite sort_insert_perm, IH.
Qed.

Lemma sort_insert_sorted x l :
  key x ∉ key <$> l →
  StronglySorted (before less) l → StronglySorted (before less) (sort_insert less x l).
Proof.
  intros Hx Hl. induction Hl as [|y l Hl IH Hy]; simpl.
  - repeat constructor.
  - rewrite fmap_cons, not_elem_of_cons in Hx. destruct Hx as [Hxy Hx].
    destruct (less x y) eqn:E.
    + constructor; [by constructor|].
      constructor; [done|].
      eapply Forall_impl; [exact Hy|]. unfold before. intros z Hz.
      rewrite less_key in *. by eapply string_less_trans.
    + constructor; [by apply IH|].
      rewrite (sort_insert_perm x l). constructor; [|done].
      unfold before. rewrite less_key in *.
      by apply string_less_total.
Qed.

Lemma sort_Slice_sorted l :
  NoDup (key <$> l) → StronglySorted (before less) (sort_Slice less l).
Proof.
  induction l as [|x l IH]; simpl; [constructor|].
  rewrite NoDup_cons. intros [Hx Hl].
  apply sort_insert_sorted; [|by apply IH].
  by rewrite (sort_Slice_perm l).
Qed.

Lemma sorted_unique l1 l2 :
  StronglySorted (before less) l1 → StronglySorted (before less) l2 →
  l1 ≡ₚ l2 → l1 = l2.
Proof.
  intros H1. revert l2.
  induction H1 as [|x l1 H1 IH Hx]; intros l2 H2 Hp.
  - by apply Permutation_nil_l in Hp.
  - destruct H2 as [|y l2 H2 Hy].
    { by apply Permutation_nil_r in Hp. }
    assert (x = y) as ->.
    { assert (x ∈ y :: l2) as Hin by (rewrite <-Hp; left).
      assert (y ∈ x :: l1) as Hin' by (rewrite Hp; left).
      apply elem_of_cons in Hin as [?|Hin]; [done|].
      apply elem_of_cons in Hin' as [?|Hin']; [done|].
      rewrite Forall_forall in Hx, Hy.
      specialize (Hx _ Hin'). specialize (Hy _ Hin).
      unfold before in *. rewrite less_key in *.
      pose proof (string_less_trans _ _ _ Hx Hy) as Hxx.
      by rewrite string_less_irrefl in Hxx. }
    f_equal. apply IH; [done|]. by apply Permutation_cons_inv in Hp.
Qed.

(** Whatever procedure [sort.Slice] runs, on distinct keys its result
    is the one of [sort_Slice]. *)
Lemma sort_Slice_unique l l' :
  NoDup (key <$> l) → l' ≡ₚ l → StronglySorted (before less) l' →
  l' = sort_Slice less l.
Proof.
  intros Hnd Hp Hs. apply sorted_unique; [done|by apply sort_Slice_sorted|].
  by rewrite sort_Slice_perm.
Qed.

Lemma sort_Slice_order l1 l2 :
  NoDup (key <$> l1) → l1 ≡ₚ l2 →
  sort_Slice less l1 = sort_Slice less l2.
Proof.
  intros Hnd Hp. apply sorted_unique.
  - by apply sort_Slice_sorted.
  - apply sort_Slice_sorted. by rewrite <-Hp.
  - by rewrite !sort_Slice_perm.
Qed.
End SortFacts.

(** ** The ID builder *)

Section AppendToID.
Context `{Values}.

Lemma idArgs_arg_of (entries : list (string * Typed)) :
  (λ '(name, val), mk_Argument name (ToLiteral val)) <$> entries
  = arg_of <$> entries.
Proof. apply list_fmap_ext. by intros _ [??] _. Qed.

Lemma arg_Name_arg_of (entries : list (string * Typed)) :
  arg_Name <$> (arg_of <$> entries) = entries.*1.
Proof. rewrite <-list_fmap_compose. by apply list_fmap_ext. Qed.

(** The chain and the type that [appendToID] returns. *)
Lemma appendToID_range_eq entries sel id field :
  appendToID_range entries sel id field
  = mk_ID (Some (fd_Type field))
      (Constructor id ++
         [mk_idSelector (Field sel)
            (sort_Slice less_Name (arg_of <$> entries))
            (bool_decide (Directives_ForName (fd_Directives field) "tainted" ≠ None))
            (bool_decide (Directives_ForName (fd_Directives field) "meta" ≠ None))
            0]).
Proof. unfold appendToID_range. by rewrite idArgs_arg_of. Qed.

(** Any order in which [range] visits the map gives the ID of
    [appendToID]. *)
Lemma appendToID_range_any entries sel id field :
  entries ≡ₚ map_to_list (Args sel) →
  appendToID_range entries sel id field = appendToID sel id field.
Proof.
  intros Hp. unfold appendToID. rewrite !appendToID_range_eq.
  do 3 f_equal. f_equal.
  apply (sort_Slice_order less_Name arg_Name); [done| |by rewrite Hp].
  rewrite arg_Name_arg_of, Hp. apply NoDup_fst_map_to_list.
Qed.
End AppendToID.

(** C1. Two call sites give the same (name, value) pairs in different
    orders: [l1] and [l2], with the names distinct as the keys of a map
    are.  Whatever the order in which the entries of either map are
    visited ([o1], [o2]), [appendToID] returns the same extended ID, and
    the appended selector carries the arguments sorted by name. *)
Theorem appendToID_argument_order `{Values} (id : ID)
    (field : ast_FieldDefinition) (name : string) (nth : Z)
    (l1 l2 o1 o2 : list (string * Typed)) :
  NoDup l1.*1 → l1 ≡ₚ l2 →
  o1 ≡ₚ map_to_list (list_to_map l1 : gmap string Typed) →
  o2 ≡ₚ map_to_list (list_to_map l2 : gmap string Typed) →
  let sel1 := {| Field := name; Args := list_to_map l1; Nth_ := nth |} in
  let sel2 := {| Field := name; Args := list_to_map l2; Nth_ := nth |} in
  appendToID_range o1 sel1 id field = appendToID_range o2 sel2 id field
  ∧ appendToID sel1 id field = appendToID sel2 id field
  ∧ ∃ idArgs tainted meta,
      Constructor (appendToID_range o1 sel1 id field)
        = Constructor id ++ [mk_idSelector name idArgs tainted meta 0]
      ∧ idArgs ≡ₚ arg_of <$> l1
      ∧ StronglySorted
          (λ a b, string_less (arg_Name a) (arg_Name b) = true) idArgs.
Proof.
  intros Hnd Hp Ho1 Ho2 sel1 sel2.
  assert (Args sel1 = Args sel2) as Hargs
    by (by apply list_to_map_proper).
  assert (appendToID sel1 id field = appendToID sel2 id field) as Heq.
  { unfold appendToID. rewrite !appendToID_range_eq. by rewrite Hargs. }
  split; [|split; [done|]].
  - rewrite (appendToID_range_any o1 sel1), (appendToID_range_any o2 sel2);
      done.
  - rewrite appendToID_range_eq. do 3 eexists. split; [done|].
    assert (o1 ≡ₚ l1) as Hol.
    { rewrite Ho1. by apply map_to_list_to_map. }
    split.
    + by rewrite sort_Slice_perm, Hol.
    + apply (sort_Slice_sorted less_Name arg_Name); [done|].
      by rewrite arg_Name_arg_of, Hol.
Qed.

Lemma appendToID_argument_order_witness :
  let l1 := [("name", Demo.Str "Ada"); ("greeting", Demo.Str "Hello")] in
  let l2 := [("greeting", Demo.Str "Hello"); ("name", Demo.Str "Ada")] in
  let field := Demo.field "hello" [] (Demo.named "String") in
  appendToID_range l1
    {| Field := "hello"; Args := list_to_map l1; Nth_ := 0 |}
    (idproto_New (Demo.named "Query")) field
  = appendToID_range l2
      {| Field := "hello"; Args := list_to_map l2; Nth_ := 0 |}
      (idproto_New (Demo.named "Query")) field.
Proof.
  intros l1 l2 field.
  refine (proj1 (appendToID_argument_order (H:=Demo.values)
                   (idproto_New (Demo.named "Query"))
                   field "hello" 0 l1 l2 l1 l2 _ _ _ _)).
  - by apply (bool_decide_unpack _).
  - apply perm_swap.
  - vm_compute. apply perm_swap.
  - vm_compute. reflexivity.
Defined.

(** ** The ID builder on the store *)

Section StoreFacts.
Context `{Values}.
Variable clone_cap growslice : nat → nat.
Hypothesis clone_cap_ge : ∀ n, (n ≤ clone_cap n)%nat.
Hypothesis growslice_ge : ∀ n, (n ≤ growslice n)%nat.

Lemma read_ID_weaken (h h' : gmap addr cell) p v :
  h ⊆ h' → read_ID h p = Some v → read_ID h' p = Some v.
Proof.
  intros Hsub. unfold read_ID, slice_elems.
  destruct (h !! p) as [[t s|]|] eqn:Hp; try done.
  rewrite (lookup_weaken _ _ _ _ Hp Hsub).
  destruct (h !! s_array s) as [[|slots]|] eqn:Ha; try done.
  by rewrite (lookup_weaken _ _ _ _ Ha Hsub).
Qed.

Lemma fresh_lookup (h : gmap addr cell) : h !! fresh (dom h) = None.
Proof. apply not_elem_of_dom, is_fresh. Qed.

Lemma slice_elems_inv (h : gmap addr cell) s chain :
  slice_elems h s = Some chain →
  ∃ slots, h !! s_array s = Some (Backing slots)
    ∧ (s_len s ≤ s_cap s)%nat ∧ s_cap s = length slots
    ∧ Forall2 (λ slot x, slot = Some x) (take (s_len s) slots) chain.
Proof.
  unfold slice_elems. intros Hs.
  destruct (h !! s_array s) as [[|slots]|]; try done.
  case_decide as Hwf; [|done]. destruct Hwf as [Hlen Hcap].
  exists slots. by rewrite mapM_Some in Hs.
Qed.

Lemma slice_elems_intro (h : gmap addr cell) s slots chain :
  h !! s_array s = Some (Backing slots) →
  (s_len s ≤ s_cap s)%nat → s_cap s = length slots →
  Forall2 (λ slot x, slot = Some x) (take (s_len s) slots) chain →
  slice_elems h s = Some chain.
Proof.
  intros Ha Hlen Hcap Hch. unfold slice_elems. rewrite Ha.
  rewrite decide_True by done. by apply mapM_Some.
Qed.

Lemma slice_elems_insert_ne (h : gmap addr cell) s p c :
  s_array s ≠ p → slice_elems (<[p:=c]> h) s = slice_elems h s.
Proof. intros Hne. unfold slice_elems. by rewrite lookup_insert_ne. Qed.

Lemma go_append_spec s x (h : gmap addr cell) chain :
  slice_elems h s = Some chain →
  ∃ s' h',
    go_append growslice s x h = Returned (Ok (s', h'))
    ∧ slice_elems h' s' = Some (chain ++ [x])
    ∧ (s_array s' = s_array s ∨ h !! s_array s' = None)
    ∧ (∀ a c, a ≠ s_array s → h !! a = Some c → h' !! a = Some c).
Proof.
  intros (slots & Ha & Hlen & Hcap & Hch)%slice_elems_inv.
  unfold go_append. rewrite Ha. case_decide as Hroom.
  - do 2 eexists. split; [done|]. split; [|split].
    + eapply slice_elems_intro; simpl.
      * apply lookup_insert_eq.
      * lia.
      * by rewrite length_insert.
      * erewrite take_S_r; [|apply list_lookup_insert_eq; lia].
        rewrite take_insert_ge by lia.
        apply Forall2_app; [done|]. by repeat constructor.
    + by left.
    + intros a c Hne Hac. by rewrite lookup_insert_ne.
  - unfold alloc. do 2 eexists. split; [done|]. split; [|split].
    + assert (length (take (s_len s) slots) = s_len s) as Htl
        by (rewrite length_take; lia).
      pose proof (growslice_ge (S (s_len s))).
      eapply slice_elems_intro; simpl.
      * apply lookup_insert_eq.
      * lia.
      * rewrite length_app, Htl. simpl. rewrite length_replicate. lia.
      * rewrite cons_middle, app_assoc.
        rewrite take_app_le by (rewrite length_app, Htl; simpl; lia).
        rewrite take_ge by (rewrite length_app, Htl; simpl; lia).
        apply Forall2_app; [done|]. by repeat constructor.
    + right. apply fresh_lookup.
    + intros a c Hne Hac. rewrite lookup_insert_ne; [done|].
      intros <-. by rewrite fresh_lookup in Hac.
Qed.

Lemma st_Clone_spec parent (h : gmap addr cell) v :
  read_ID h parent = Some v →
  ∃ cp h' s',
    st_Clone clone_cap parent h = Returned (Ok (cp, h'))
    ∧ h !! cp = None ∧ h !! s_array s' = None ∧ s_array s' ≠ cp
    ∧ h ⊆ h'
    ∧ h' !! cp = Some (ID_struct (id_Type v) s')
    ∧ slice_elems h' s' = Some (Constructor v).
Proof.
  unfold read_ID. intros Hread.
  destruct (h !! parent) as [[t s|]|] eqn:Hp; try done.
  destruct (slice_elems h s) as [chain|] eqn:Hs; [|done].
  simplify_eq/=.
  destruct (slice_elems_inv _ _ _ Hs) as (slots & Ha & Hlen & Hcap & Hch).
  unfold st_Clone, alloc. rewrite Hp, Ha.
  set (a := fresh (dom h)).
  set (h1 := <[a := _]> h).
  set (cp := fresh (dom h1)).
  assert (h !! a = None) as Hfa by apply fresh_lookup.
  assert (h1 !! cp = None) as Hfcp by apply fresh_lookup.
  assert (a ≠ cp) as Hne.
  { intros Heq. rewrite <-Heq in Hfcp. unfold h1 in Hfcp.
    by rewrite lookup_insert_eq in Hfcp. }
  assert (h !! cp = None) as Hfcp'.
  { unfold h1 in Hfcp. by rewrite lookup_insert_ne in Hfcp. }
  eexists cp, _, {| s_array := a; s_len := s_len s;
                    s_cap := clone_cap (s_len s) |}.
  split; [done|]. simpl.
  split; [done|]. split; [done|]. split; [done|]. split; [|split].
  - etrans; [apply (insert_subseteq h a); done|].
    by apply insert_subseteq.
  - apply lookup_insert_eq.
  - assert (length (take (s_len s) slots) = s_len s) as Htl
      by (rewrite length_take; lia).
    pose proof (clone_cap_ge (s_len s)).
    eapply slice_elems_intro; simpl.
    + rewrite lookup_insert_ne by done. apply lookup_insert_eq.
    + lia.
    + rewrite length_app, length_replicate, Htl. lia.
    + rewrite take_app_le by lia. by rewrite take_ge by lia.
Qed.

Lemma st_appendToID_spec entries sel parent field h v :
  read_ID h parent = Some v →
  ∃ cp h',
    st_appendToID clone_cap growslice entries sel parent field h = Returned (Ok (cp, h'))
    ∧ h !! cp = None
    ∧ h ⊆ h'
    ∧ read_ID h' cp = Some (appendToID_range entries sel v field).
Proof.
  intros Hread.
  destruct (st_Clone_spec _ _ _ Hread)
    as (cp & h1 & s1 & Hclone & Hcp & Ha & Hne & Hsub & Hh1cp & Hs1).
  unfold st_appendToID. rewrite Hclone. simpl. rewrite Hh1cp.
  match goal with
  | |- context [go_append _ s1 ?x h1] =>
      destruct (go_append_spec s1 x h1 _ Hs1)
        as (s2 & h2 & Happ & Hs2 & Hs2a & Hframe)
  end.
  rewrite Happ. simpl. do 2 eexists. split; [done|]. split; [done|].
  split.
  - rewrite insert_insert_eq. apply map_subseteq_spec. intros a c Hac.
    assert (a ≠ cp) by (intros ->; congruence).
    assert (a ≠ s_array s1) by (intros ->; congruence).
    rewrite lookup_insert_ne by done. apply Hframe; [done|].
    by eapply lookup_weaken.
  - assert (s_array s2 ≠ cp) as Hne2.
    { destruct Hs2a as [->|Hnone]; [done|]. intros Heq.
      rewrite Heq in Hnone. congruence. }
    unfold read_ID. rewrite lookup_insert_eq.
    rewrite !slice_elems_insert_ne by done. by rewrite Hs2.
Qed.

(** C7. On the store, [appendToID] leaves the parent ID unchanged: the
    selector is appended to a clone.  For two extensions of one parent
    ID, one after the other: each returns a new struct; every cell
    that the store held before a call is the same after it, so the
    parent reads as the same chain and type; and each extended ID
    reads as the chain of the parent plus its own selector, the first
    also after the second was made. *)
Theorem appendToID_parent_unchanged entries1 sel1 field1 entries2 sel2 field2
    parent h v :
  read_ID h parent = Some v →
  ∃ cp1 h1 cp2 h2,
    st_appendToID clone_cap growslice entries1 sel1 parent field1 h
      = Returned (Ok (cp1, h1))
    ∧ st_appendToID clone_cap growslice entries2 sel2 parent field2 h1
      = Returned (Ok (cp2, h2))
    ∧ cp1 ≠ parent ∧ cp2 ≠ parent ∧ cp1 ≠ cp2
    ∧ h ⊆ h1 ∧ h1 ⊆ h2
    ∧ read_ID h1 parent = Some v ∧ read_ID h2 parent = Some v
    ∧ read_ID h1 cp1 = Some (appendToID_range entries1 sel1 v field1)
    ∧ read_ID h2 cp1 = Some (appendToID_range entries1 sel1 v field1)
    ∧ read_ID h2 cp2 = Some (appendToID_range entries2 sel2 v field2).
Proof.
  intros Hread.
  destruct (st_appendToID_spec entries1 sel1 parent field1 h v Hread)
    as (cp1 & h1 & Hrun1 & Hfresh1 & Hsub1 & Hread1).
  pose proof (read_ID_weaken _ _ _ _ Hsub1 Hread) as Hparent1.
  destruct (st_appendToID_spec entries2 sel2 parent field2 h1 v Hparent1)
    as (cp2 & h2 & Hrun2 & Hfresh2 & Hsub2 & Hread2).
  exists cp1, h1, cp2, h2.
  assert (is_Some (h !! parent)) as [c Hc].
  { unfold read_ID in Hread. destruct (h !! parent); [eauto|done]. }
  assert (is_Some (h1 !! cp1)) as [c1 Hc1].
  { unfold read_ID in Hread1. destruct (h1 !! cp1); [eauto|done]. }
  repeat split; try done.
  - intros ->. congruence.
  - intros ->. rewrite (lookup_weaken _ _ _ _ Hc Hsub1) in Hfresh2. done.
  - intros ->. congruence.
  - by eapply read_ID_weaken.
  - by eapply read_ID_weaken.
Qed.
End StoreFacts.

Lemma appendToID_parent_unchanged_witness :
  let Query := Demo.named "Query" in
  let h : gmap addr cell :=
    {[ 1%positive := ID_struct (Some Query)
                       {| s_array := 2%positive; s_len := 0; s_cap := 0 |};
       2%positive := Backing [] ]} in
  let hello := Demo.field "hello" [] (Demo.named "String") in
  let items := Demo.field "items" [] (Demo.list_of (Demo.named "Item")) in
  let sel1 := {| Field := "hello"; Args := ∅; Nth_ := 0 |} in
  let sel2 := {| Field := "items"; Args := ∅; Nth_ := 0 |} in
  ∃ cp1 h1 cp2 h2,
    st_appendToID S (λ n, 2 * n)%nat [] sel1 1%positive hello h
      = Returned (Ok (cp1, h1))
    ∧ st_appendToID S (λ n, 2 * n)%nat [] sel2 1%positive items h1
      = Returned (Ok (cp2, h2))
    ∧ cp1 ≠ 1%positive ∧ cp2 ≠ 1%positive ∧ cp1 ≠ cp2
    ∧ h ⊆ h1 ∧ h1 ⊆ h2
    ∧ read_ID h1 1%positive = Some (idproto_New Query)
    ∧ read_ID h2 1%positive = Some (idproto_New Query)
    ∧ read_ID h1 cp1
      = Some (appendToID_range [] sel1 (idproto_New Query) hello)
    ∧ read_ID h2 cp1
      = Some (appendToID_range [] sel1 (idproto_New Query) hello)
    ∧ read_ID h2 cp2
      = Some (appendToID_range [] sel2 (idproto_New Query) items).
Proof.
  intros Query h hello items sel1 sel2.
  apply (appendToID_parent_unchanged (H:=Demo.values) S (λ n, 2 * n)%nat).
  - intros n. lia.
  - intros n. lia.
  - reflexivity.
Defined.

(** Without the clone the two extensions would share the backing array:
    two appends to one slice that has room write the same slot, and the
    slice returned first reads the selector appended second. *)
Example append_shares_the_backing_array :
  let x := mk_idSelector "hello" [] false false 0 in
  let y := mk_idSelector "items" [] false false 0 in
  let s := {| s_array := 2%positive; s_len := 0; s_cap := 1 |} in
  let h : gmap addr cell := {[ 2%positive := Backing [None] ]} in
  ∃ s1 h1 s2 h2,
    go_append S s x h = Returned (Ok (s1, h1))
    ∧ go_append S s y h1 = Returned (Ok (s2, h2))
    ∧ slice_elems h1 s1 = Some [x]
    ∧ slice_elems h2 s1 = Some [y].
Proof. intros x y s h. by do 4 eexists. Qed.

(** ** Sibling groups *)

Section ResolveFacts.
Context `{Values}.

Lemma resolvePath_unfold s self sel :
  resolvePath s self sel = resolvePath_body (Resolve s) s self sel.
Proof. by destruct sel. Qed.

Lemma Resolve_task_Ok resolve sel v :
  resolve sel = Ok v → Resolve_task resolve sel = Ok (Name sel, v).
Proof. unfold Resolve_task. by intros ->. Qed.

Lemma Resolve_task_Err resolve sel e :
  resolve sel = Err e →
  Resolve_task resolve sel = Err (Wrapf "%s: %w" [of_string (Name sel)] e).
Proof. unfold Resolve_task. by intros ->. Qed.

Lemma pool_errs_task resolve sels e' :
  e' ∈ pool_errs (Resolve_task resolve <$> sels) ↔
  ∃ sel e, sel ∈ sels ∧ resolve sel = Err e
    ∧ e' = Wrapf "%s: %w" [of_string (Name sel)] e.
Proof.
  induction sels as [|sel sels IH]; csimpl.
  - split; [by intros ?%elem_of_nil|]. by intros (?&?&?%elem_of_nil&_).
  - destruct (resolve sel) as [v|e] eqn:Hsel.
    + rewrite (Resolve_task_Ok _ _ _ Hsel), IH. split.
      * intros (sel' & e & Hin & Hr & ->). exists sel', e.
        by rewrite elem_of_cons; auto.
      * intros (sel' & e & [->|Hin]%elem_of_cons & Hr & ->);
          [congruence|eauto].
    + rewrite (Resolve_task_Err _ _ _ Hsel), elem_of_cons, IH. split.
      * intros [->|(sel' & e0 & Hin & Hr & ->)].
        -- exists sel, e. by rewrite elem_of_cons; auto.
        -- exists sel', e0. by rewrite elem_of_cons; auto.
      * intros (sel' & e0 & [->|Hin]%elem_of_cons & Hr & ->).
        -- left. congruence.
        -- right. eauto.
Qed.

Lemma pool_done_task resolve sels (vals : list any) :
  Forall2 (λ sel v, resolve sel = Ok v) sels vals →
  pool_errs (Resolve_task resolve <$> sels) = []
  ∧ pool_done (Resolve_task resolve <$> sels) = zip (Name <$> sels) vals.
Proof.
  induction 1 as [|sel v sels vals Hsel _ [IH1 IH2]]; csimpl; [done|].
  rewrite (Resolve_task_Ok _ _ _ Hsel). by rewrite IH1, IH2.
Qed.

Lemma pool_errs_Permutation {A} (tasks tasks' : list (res A)) :
  tasks ≡ₚ tasks' → pool_errs tasks ≡ₚ pool_errs tasks'.
Proof.
  induction 1 as [|[a|e] ?? _ IH|[a|e] [a'|e'] ?|??? _ IH1 _ IH2]; simpl;
    try done.
  - by constructor.
  - apply perm_swap.
  - by etrans.
Qed.

Lemma pool_done_Permutation {A} (tasks tasks' : list (res A)) :
  tasks ≡ₚ tasks' → pool_done tasks ≡ₚ pool_done tasks'.
Proof.
  induction 1 as [|[a|e] ?? _ IH|[a|e] [a'|e'] ?|??? _ IH1 _ IH2]; simpl;
    try done.
  - by constructor.
  - apply perm_swap.
  - by etrans.
Qed.

Lemma pool_errs_failures s self sels :
  pool_errs (Resolve_task (resolvePath s self) <$> sels)
  = omap (failure s self) sels.
Proof.
  induction sels as [|sel sels IH]; csimpl; [done|].
  unfold failure at 1. destruct (resolvePath s self sel) as [v|e] eqn:Hsel.
  - by rewrite (Resolve_task_Ok _ _ _ Hsel).
  - rewrite (Resolve_task_Err _ _ _ Hsel). simpl. by rewrite IH.
Qed.

Lemma pool_addErr_joined first errs :
  foldl pool_addErr None (first :: errs) = Some (joined_in_turn first errs).
Proof.
  unfold joined_in_turn. simpl. generalize (Join [first]).
  induction errs as [|err errs IH]; intros joined; [done|]. apply IH.
Qed.

(** [pool.Wait] returns nil exactly when no task failed. *)
Lemma pool_Wait_Ok {A} (tasks : list (res A)) (done : list A) :
  pool_Wait tasks = Ok done ↔
  pool_errs tasks = [] ∧ done = pool_done (finished tasks).
Proof.
  unfold pool_Wait.
  pose proof (pool_errs_Permutation _ _ (finished_Permutation tasks)) as Hp.
  destruct (pool_errs (finished tasks)) as [|first errs] eqn:Herrs.
  - apply Permutation_nil_l in Hp. rewrite <-Hp. simpl. split.
    + by intros [= <-].
    + by intros [_ ->].
  - rewrite pool_addErr_joined. split; [done|]. intros [Hnil _].
    rewrite Hnil in Hp. by apply Permutation_nil_r in Hp.
Qed.

(** The error of [pool.Wait]: the errors of the failed tasks, each
    joined in turn to those of the tasks that finished before it. *)
Lemma pool_Wait_Err {A} (tasks : list (res A)) (err : error) :
  pool_Wait tasks = Err err ↔
  ∃ first errs,
    err = joined_in_turn first errs
    ∧ pool_errs (finished tasks) = first :: errs.
Proof.
  unfold pool_Wait.
  destruct (pool_errs (finished tasks)) as [|first errs] eqn:Herrs.
  - simpl. split; [done|]. by intros (? & ? & _ & ?).
  - rewrite pool_addErr_joined. split.
    + intros [= <-]. by exists first, errs.
    + by intros (? & ? & -> & [= <- <-]).
Qed.

Lemma Resolve_tasks_Ok resolve sels m :
  Resolve_tasks resolve sels = Ok m ↔
  pool_errs (Resolve_task resolve <$> sels) = []
  ∧ m = Store_all (pool_done (finished (Resolve_task resolve <$> sels))).
Proof.
  unfold Resolve_tasks.
  destruct (pool_Wait _) as [stored|err] eqn:Hwait; simpl.
  - apply pool_Wait_Ok in Hwait as [Herrs ->]. split.
    + by intros [= <-].
    + by intros [_ ->].
  - split; [done|]. intros [Herrs _].
    apply pool_Wait_Err in Hwait as (first & errs & _ & Hfirst).
    pose proof (pool_errs_Permutation _ _
                  (finished_Permutation (Resolve_task resolve <$> sels)))
      as Hp.
    rewrite Hfirst, Herrs in Hp. by apply Permutation_nil_r in Hp.
Qed.

Lemma Resolve_tasks_Err resolve sels err :
  Resolve_tasks resolve sels = Err err ↔
  ∃ first errs,
    err = joined_in_turn first errs
    ∧ pool_errs (finished (Resolve_task resolve <$> sels)) = first :: errs.
Proof.
  unfold Resolve_tasks. rewrite <-pool_Wait_Err.
  destruct (pool_Wait _) as [stored|err']; simpl; [done|].
  split; congruence.
Qed.

Lemma Store_all_snoc stored k v :
  Store_all (stored ++ [(k, v)]) = <[k := v]> (Store_all stored).
Proof. unfold Store_all. by rewrite foldl_app. Qed.

Lemma Store_all_dom stored : dom (Store_all stored) = list_to_set stored.*1.
Proof.
  induction stored as [|[k v] stored IH] using rev_ind.
  - unfold Store_all. simpl. by rewrite dom_empty_L.
  - rewrite Store_all_snoc, dom_insert_L, IH, fmap_app, list_to_set_app_L.
    simpl. by rewrite (right_id_L ∅ (∪)), (comm_L (∪)).
Qed.

Lemma Store_all_lookup stored k v :
  Store_all stored !! k = Some v → (k, v) ∈ stored.
Proof.
  induction stored as [|[k' v'] stored IH] using rev_ind.
  - unfold Store_all. simpl. by rewrite lookup_empty.
  - rewrite Store_all_snoc, elem_of_app, list_elem_of_singleton.
    destruct (decide (k' = k)) as [->|Hne].
    + rewrite lookup_insert_eq. intros [= ->]. by right.
    + rewrite lookup_insert_ne by done. auto.
Qed.

Lemma Store_all_NoDup stored :
  NoDup stored.*1 →
  size (Store_all stored) = length stored
  ∧ ∀ k v, (k, v) ∈ stored → Store_all stored !! k = Some v.
Proof.
  induction stored as [|[k' v'] stored IH] using rev_ind; intros Hnd.
  - split; [by unfold Store_all|]. by intros ?? ?%elem_of_nil.
  - rewrite fmap_app, NoDup_app in Hnd. destruct Hnd as (Hnd & Hfresh & _).
    destruct (IH Hnd) as [IHsize IHlook].
    assert (k' ∉ stored.*1) as Hk'.
    { intros Hin. apply (Hfresh _ Hin). simpl. by left. }
    assert (Store_all stored !! k' = None) as Hnone.
    { apply not_elem_of_dom. by rewrite Store_all_dom, elem_of_list_to_set. }
    rewrite Store_all_snoc. split.
    + rewrite map_size_insert_None by done. rewrite length_app, IHsize.
      simpl. lia.
    + intros k v [Hin|Heq%list_elem_of_singleton]%elem_of_app.
      * rewrite lookup_insert_ne; [by apply IHlook|].
        intros ->. apply Hk'. apply list_elem_of_fmap. by exists (k, v).
      * injection Heq as -> ->. by rewrite lookup_insert_eq.
Qed.
End ResolveFacts.

(** C5. If resolving one of the sibling selections fails, [Resolve]
    returns an error and no result map, so the results of the siblings
    that succeeded are not returned.  The error wraps, for every sibling
    that failed, its error wrapped with the name of its selection, once
    for each, and nothing else: these are joined one at a time in the
    order in which the siblings finished, each to the join of those
    before it. *)
Theorem Resolve_sibling_error `{Values} (s : Server) (self : Object)
    (sels : list Selection) (sel : Selection) (e : error) :
  sel ∈ sels → resolvePath s self sel = Err e →
  ∃ first errs,
    Resolve s self sels = Err (joined_in_turn first errs)
    ∧ Wrapf "%s: %w" [of_string (Name sel)] e ∈ first :: errs
    ∧ (∀ e', e' ∈ first :: errs →
         ∃ sel' e0, sel' ∈ sels ∧ resolvePath s self sel' = Err e0
           ∧ e' = Wrapf "%s: %w" [of_string (Name sel')] e0)
    ∧ first :: errs ≡ₚ omap (failure s self) sels.
Proof.
  intros Hin Hsel.
  pose proof (pool_errs_Permutation _ _
                (finished_Permutation
                   (Resolve_task (resolvePath s self) <$> sels))) as Hp.
  assert (Wrapf "%s: %w" [of_string (Name sel)] e
          ∈ pool_errs (finished (Resolve_task (resolvePath s self) <$> sels)))
    as Hmem by (rewrite Hp; apply pool_errs_task; eauto).
  destruct (pool_errs (finished _)) as [|first errs] eqn:Herrs;
    [by apply elem_of_nil in Hmem|].
  exists first, errs. split; [|split; [done|split]].
  - apply Resolve_tasks_Err. by exists first, errs.
  - intros e'. by rewrite Hp, pool_errs_task.
  - by rewrite Hp, pool_errs_failures.
Qed.

Lemma Resolve_sibling_error_witness :
  let sels := [Demo.pick "" "boom" 0 []; Demo.pick "" "first" 0 [];
               Demo.pick "" "nowhere" 0 []] in
  ∃ first errs,
    Resolve Demo.srv (root Demo.srv) sels = Err (joined_in_turn first errs)
    ∧ Wrapf "%s: %w" [of_string "nowhere"]
        (Errorf "unknown field: %q" [of_string "nowhere"]) ∈ first :: errs
    ∧ (∀ e', e' ∈ first :: errs →
         ∃ sel' e0, sel' ∈ sels
           ∧ resolvePath Demo.srv (root Demo.srv) sel' = Err e0
           ∧ e' = Wrapf "%s: %w" [of_string (Name sel')] e0)
    ∧ first :: errs ≡ₚ omap (failure Demo.srv (root Demo.srv)) sels.
Proof.
  intros sels.
  apply (Resolve_sibling_error Demo.srv (root Demo.srv) sels
           (Demo.pick "" "nowhere" 0 [])
           (Errorf "unknown field: %q" [of_string "nowhere"])).
  - right. right. left.
  - reflexivity.
Defined.

(** Two of three siblings fail and finish in the order they were
    started: the error of the first is joined alone, and the join is
    joined with the error of the second. *)
Example Resolve_two_of_three_fail :
  Resolve Demo.srv (root Demo.srv)
    [Demo.pick "" "boom" 0 []; Demo.pick "" "first" 0 [];
     Demo.pick "" "nowhere" 0 []]
  = Err (Join [Join [Wrapf "%s: %w" [of_string "boom"] (Errorf "boom" [])];
               Wrapf "%s: %w" [of_string "nowhere"]
                 (Errorf "unknown field: %q" [of_string "nowhere"])]).
Proof. reflexivity. Qed.

(** The group of three whose second selection fails. *)
Example Resolve_second_of_three_fails :
  Resolve Demo.srv (root Demo.srv)
    [Demo.pick "" "first" 0 []; Demo.pick "" "boom" 0 [];
     Demo.pick "" "items" 0 []]
  = Err (Join [Wrapf "%s: %w" [of_string "boom"] (Errorf "boom" [])]).
Proof. reflexivity. Qed.

(** The example of the spec: [hello(name: "Ada")] on the root. *)
Example Resolve_hello_Ada :
  let selector :=
    {| Field := "hello"; Args := {[ "name" := Demo.Str "Ada" ]}; Nth_ := 0 |} in
  let hello := Demo.field "hello"
                 [{| ad_Name := "name"; ad_Type := Demo.named "String" |}]
                 (Demo.named "String") in
  Resolve Demo.srv (root Demo.srv)
    [{| Alias := ""; Selector_ := selector; Subselections := [] |}]
  = Ok {[ "hello" := any_Typed (Demo.Str "Hello, Ada") ]}
  ∧ Constructor (appendToID selector (Object_ID (root Demo.srv)) hello)
    = [mk_idSelector "hello" [mk_Argument "name" (Literal_String_ "Ada")]
         false false 0].
Proof. split; reflexivity. Qed.

(** C9, as stated, fails for siblings that share a name: both selections
    below resolve, under the one alias [x], and the map has one entry
    for the two of them. *)
Lemma Resolve_shared_name_one_entry :
  let sels := [Demo.pick "x" "first" 0 []; Demo.pick "x" "empty" 0 []] in
  let self := root Demo.srv in
  let m : gmap string any := {[ "x" := any_Typed (Demo.List []) ]} in
  resolvePath Demo.srv self (Demo.pick "x" "first" 0 [])
    = Ok (any_Typed (Demo.Item 1))
  ∧ resolvePath Demo.srv self (Demo.pick "x" "empty" 0 [])
    = Ok (any_Typed (Demo.List []))
  ∧ Resolve Demo.srv self sels = Ok m
  ∧ size m = 1%nat ∧ length sels = 2%nat.
Proof. repeat split; reflexivity. Qed.

(** C9, amended.  When every selection of the group resolves, [Resolve]
    returns a map whose keys are exactly the names of the selections,
    each holding the result of a selection of that name; when the names
    are pairwise distinct, the map has one entry per selection, holding
    the result of that selection.  The name of a selection is its alias
    when the alias is not empty and its field name otherwise. *)
Theorem Resolve_result_keys `{Values} (s : Server) (self : Object)
    (sels : list Selection) :
  (∀ sel, sel ∈ sels → ∃ v, resolvePath s self sel = Ok v) →
  (∀ sel, Name sel = if decide (Alias sel ≠ "") then Alias sel
                     else Field (Selector_ sel))
  ∧ ∃ m,
      Resolve s self sels = Ok m
      ∧ dom m = list_to_set (Name <$> sels)
      ∧ (∀ k v, m !! k = Some v →
           ∃ sel, sel ∈ sels ∧ Name sel = k ∧ resolvePath s self sel = Ok v)
      ∧ (NoDup (Name <$> sels) →
           size m = length sels
           ∧ ∀ sel v, sel ∈ sels → resolvePath s self sel = Ok v →
               m !! Name sel = Some v).
Proof.
  intros Hall. split; [done|].
  assert (∃ vals, Forall2 (λ sel v, resolvePath s self sel = Ok v) sels vals)
    as [vals Hvals].
  { induction sels as [|sel sels IH]; [by exists []|].
    destruct (Hall sel) as [v Hv]; [by left|].
    destruct IH as [vals Hvals]; [intros ??; apply Hall; by right|].
    exists (v :: vals). by constructor. }
  destruct (pool_done_task _ _ _ Hvals) as [Herrs Hdone].
  pose proof (Forall2_length _ _ _ Hvals) as Hlen.
  assert ((zip (Name <$> sels) vals).*1 = Name <$> sels) as Hfst.
  { apply fst_zip. rewrite length_fmap. lia. }
  set (stored := pool_done
                   (finished (Resolve_task (resolvePath s self) <$> sels))).
  assert (stored ≡ₚ zip (Name <$> sels) vals) as Hstored.
  { unfold stored. rewrite <-Hdone.
    apply pool_done_Permutation, finished_Permutation. }
  exists (Store_all stored).
  assert (∀ k v, (k, v) ∈ zip (Name <$> sels) vals ↔
            ∃ sel, sel ∈ sels ∧ Name sel = k ∧ resolvePath s self sel = Ok v)
    as Hzip.
  { clear -Hvals. induction Hvals as [|sel v sels vals Hv _ IH]; intros k v'.
    - simpl. split; [by intros ?%elem_of_nil|].
      by intros (?&?%elem_of_nil&_).
    - csimpl. rewrite elem_of_cons, IH. split.
      + intros [[= -> ->]|(sel' & Hin & <- & Hr)].
        * exists sel. by rewrite elem_of_cons; auto.
        * exists sel'. by rewrite elem_of_cons; auto.
      + intros (sel' & [->|Hin]%elem_of_cons & <- & Hr).
        * left. congruence.
        * right. eauto. }
  split; [|split; [|split]].
  - by apply Resolve_tasks_Ok.
  - rewrite Store_all_dom. rewrite <-Hfst.
    apply list_to_set_perm_L. by rewrite Hstored.
  - intros k v Hkv%Store_all_lookup. apply Hzip. by rewrite <-Hstored.
  - intros Hnd. rewrite <-Hfst, <-Hstored in Hnd.
    destruct (Store_all_NoDup _ Hnd) as [Hsize Hlook]. split.
    + rewrite Hsize, Hstored, length_zip_with_l_eq; rewrite length_fmap; lia.
    + intros sel v Hin Hv. apply Hlook. rewrite Hstored. apply Hzip. eauto.
Qed.

Lemma Resolve_result_keys_witness :
  let sels := [Demo.pick "" "first" 0 []; Demo.pick "none" "empty" 0 []] in
  ∃ m,
    Resolve Demo.srv (root Demo.srv) sels = Ok m
    ∧ dom m = list_to_set (Name <$> sels)
    ∧ (∀ k v, m !! k = Some v →
         ∃ sel, sel ∈ sels ∧ Name sel = k
           ∧ resolvePath Demo.srv (root Demo.srv) sel = Ok v)
    ∧ (NoDup (Name <$> sels) →
         size m = length sels
         ∧ ∀ sel v, sel ∈ sels →
             resolvePath Demo.srv (root Demo.srv) sel = Ok v →
             m !! Name sel = Some v).
Proof.
  intros sels.
  refine (proj2 (Resolve_result_keys Demo.srv (root Demo.srv) sels _)).
  intros sel [->|[->|[]%elem_of_nil]%elem_of_cons]%elem_of_cons;
    eexists; reflexivity.
Defined.

(** ** One selection *)

Section ResolvePathFacts.
Context `{Values}.

(** The loop over the elements returns a result exactly when every
    element does, and then the results are in index order. *)
Lemma for_nth_Ok {A} (body : Z → res A) (nth : Z) (todo : nat)
    (results all : list A) :
  for_nth body nth todo results = Ok all ↔
  ∃ new, all = results ++ new ∧ length new = todo
    ∧ ∀ i r, new !! i = Some r → body (nth + Z.of_nat i) = Ok r.
Proof.
  revert nth results. induction todo as [|todo IH]; intros nth results; simpl.
  - split.
    + intros [= <-]. exists []. rewrite app_nil_r. by split.
    + intros (new & -> & ->%nil_length_inv & _). by rewrite app_nil_r.
  - destruct (body nth) as [r|e] eqn:Hbody; simpl.
    + rewrite IH. split.
      * intros (new & -> & Hlen & Hnew). exists (r :: new).
        rewrite <-app_assoc. split; [done|]. split; [simpl; lia|].
        intros [|i] r'; simpl.
        -- intros [= <-]. by rewrite Z.add_0_r.
        -- intros Hi. rewrite <-(Hnew i r' Hi). f_equal. lia.
      * intros ([|r' new] & -> & Hlen & Hnew); [done|].
        assert (r' = r) as ->.
        { specialize (Hnew 0%nat r' eq_refl). rewrite Z.add_0_r in Hnew.
          congruence. }
        exists new. rewrite <-app_assoc. split; [done|].
        split; [simpl in Hlen; lia|].
        intros i r' Hi. rewrite <-(Hnew (S i) r' Hi). f_equal. lia.
    + split; [done|]. intros ([|r' new] & _ & Hlen & Hnew); [done|].
      specialize (Hnew 0%nat r' eq_refl). rewrite Z.add_0_r in Hnew.
      congruence.
Qed.

Lemma for_nth_total {A} (body : Z → res A) (nth : Z) (todo : nat)
    (results : list A) :
  (∃ all, for_nth body nth todo results = Ok all)
  ∨ (∃ i e, (i < todo)%nat ∧ for_nth body nth todo results = Err e
       ∧ body (nth + Z.of_nat i) = Err e).
Proof.
  revert nth results. induction todo as [|todo IH]; intros nth results; simpl.
  - left. eauto.
  - destruct (body nth) as [r|e] eqn:Hbody; simpl.
    + destruct (IH (nth + 1) (results ++ [r])) as [?|(i & e & Hi & He & Hb)];
        [by left|].
      right. exists (S i), e. split; [lia|]. split; [done|].
      rewrite <-Hb. f_equal. lia.
    + right. exists 0%nat, e. split; [lia|]. by rewrite Z.add_0_r.
Qed.

(** [resolvePath] on a field that is found and whose resolver returns. *)
Lemma resolvePath_selected s self sel class fieldDef val :
  classes s !! ast_Type_Name (Object_Type self) = Some class →
  FieldDefinition class (Field (Selector_ sel)) = Some fieldDef →
  Select self (Selector_ sel) = Ok val →
  resolvePath s self sel =
    let chainedID := appendToID (Selector_ sel) (Object_ID self) fieldDef in
    res ←
      match unwrapped val with
      | None => Ok any_nil
      | Some val =>
          match Subselections sel with
          | [] => Ok (any_Typed val)
          | _ :: _ =>
              if decide (NamedType (fd_Type fieldDef) ≠ "") then
                node ← wrap_err "instantiate: %w" []
                         (toSelectable s chainedID val);
                any_map <$> Resolve s node (Subselections sel)
              else if decide (Elem (fd_Type fieldDef) ≠ None) then
                match as_Enumerable val with
                | None =>
                    Err (Errorf "cannot sub-select %T"
                           [of_string (fmt_T (Some val))])
                | Some enum =>
                    any_slice <$>
                      for_nth (element s chainedID enum (Subselections sel))
                        1 (Z.to_nat (Len enum)) []
                end
              else
                Err (Errorf "cannot sub-select %T"
                       [of_string (fmt_T (Some val))])
          end
      end;
    if decide (Nth_ (Selector_ sel) ≠ 0) then
      match any_as_Enumerable res with
      | None =>
          Err (Errorf "cannot sub-select %dth item from %T"
                 [of_int (Nth_ (Selector_ sel));
                  of_string (fmt_T (unwrapped val))])
      | Some enum => any_Typed <$> Nth enum (Nth_ (Selector_ sel))
      end
    else Ok res.
Proof.
  intros Hclass Hfield Hval. rewrite resolvePath_unfold.
  unfold resolvePath_body. by rewrite Hclass, Hfield, Hval.
Qed.

Lemma element_Ok s chainedID enum subs nth r :
  element s chainedID enum subs nth = Ok r ↔
  ∃ elem node m,
    r = any_map m ∧ Nth enum nth = Ok elem
    ∧ toSelectable s (ID_Nth chainedID nth) elem = Ok node
    ∧ Resolve s node subs = Ok m.
Proof.
  unfold element. split.
  - destruct (Nth enum nth) as [elem|] eqn:Helem; [|done]. simpl.
    destruct (toSelectable _ _ _) as [node|] eqn:Hnode; [|done]. simpl.
    destruct (Resolve _ _ _) as [m|] eqn:Hm; [|done].
    intros [= <-]. by exists elem, node, m.
  - intros (elem & node & m & -> & -> & Hnode & Hm). simpl.
    rewrite Hnode. simpl. by rewrite Hm.
Qed.

Lemma for_nth_elements s chainedID enum subs all :
  for_nth (element s chainedID enum subs) 1 (Z.to_nat (Len enum)) [] = Ok all
  ↔ ∃ maps, all = any_map <$> maps
      ∧ elements_resolved s chainedID enum subs maps.
Proof.
  rewrite for_nth_Ok. unfold elements_resolved. split.
  - intros (new & -> & Hlen & Hnew). simpl.
    assert (∃ maps, new = any_map <$> maps) as [maps ->].
    { clear Hlen. revert Hnew. generalize 1. intros start. revert start.
      induction new as [|r new IH]; intros start Hnew; [by exists []|].
      destruct (IH (start + 1)) as [maps ->].
      { intros i r' Hi. rewrite <-(Hnew (S i) r' Hi). f_equal. lia. }
      pose proof (Hnew 0%nat r eq_refl) as Hr.
      apply element_Ok in Hr as (_ & _ & m & -> & _).
      by exists (m :: maps). }
    exists maps. split; [done|]. rewrite length_fmap in Hlen.
    split; [done|]. intros i m Hm.
    specialize (Hnew i (any_map m)). rewrite list_lookup_fmap, Hm in Hnew.
    apply element_Ok in Hnew as (elem & node & m' & [= <-] & ?); [|done].
    by exists elem, node.
  - intros (maps & -> & Hlen & Hmaps). exists (any_map <$> maps).
    split; [done|]. split; [by rewrite length_fmap|].
    intros i r. rewrite list_lookup_fmap.
    destruct (maps !! i) as [m|] eqn:Hm; [|done]. intros [= <-].
    apply element_Ok. destruct (Hmaps i m Hm) as (elem & node & ?).
    by exists elem, node, m.
Qed.

(** The sub-selections of a present, Enumerable value of a field of
    list type: the result before the trailing index is applied. *)
Lemma resolvePath_list s self sel sub subs class fieldDef val0 val enum :
  classes s !! ast_Type_Name (Object_Type self) = Some class →
  FieldDefinition class (Field (Selector_ sel)) = Some fieldDef →
  list_typed fieldDef →
  Select self (Selector_ sel) = Ok val0 →
  unwrapped val0 = Some val →
  as_Enumerable val = Some enum →
  Subselections sel = sub :: subs →
  resolvePath s self sel =
    res ← any_slice <$>
            for_nth (element s
                       (appendToID (Selector_ sel) (Object_ID self) fieldDef)
                       enum (sub :: subs))
              1 (Z.to_nat (Len enum)) [];
    if decide (Nth_ (Selector_ sel) ≠ 0) then
      match any_as_Enumerable res with
      | None =>
          Err (Errorf "cannot sub-select %dth item from %T"
                 [of_int (Nth_ (Selector_ sel)); of_string (fmt_T (Some val))])
      | Some enum => any_Typed <$> Nth enum (Nth_ (Selector_ sel))
      end
    else Ok res.
Proof.
  intros Hclass Hfield [Hnamed Helem] Hval0 Hval Henum Hsubs.
  rewrite (resolvePath_selected s self sel class fieldDef val0) by done.
  rewrite Hval, Hsubs. simpl. rewrite Hnamed, Henum.
  destruct (decide ("" ≠ "")) as [?|_]; [done|].
  by destruct (decide (Elem (fd_Type fieldDef) ≠ None)) as [_|?].
Qed.
End ResolvePathFacts.

(** C3, as stated, fails for a selection that carries a trailing index:
    the field [missing] is absent, the selection has a sub-selection and
    [Nth = 1], and [resolvePath] returns an error, not a null result. *)
Lemma resolvePath_null_with_index_fails :
  let sel := Demo.pick "" "missing" 1 [Demo.pick "" "n" 0 []] in
  Subselections sel ≠ []
  ∧ Select (root Demo.srv) (Selector_ sel) = Ok (Demo.Optional None)
  ∧ as_Nullable (Demo.Optional None) = Some None
  ∧ resolvePath Demo.srv (root Demo.srv) sel
    = Err (Errorf "cannot sub-select %dth item from %T"
             [of_int 1; of_string "<nil>"]).
Proof. repeat split; done. Qed.

(** C3, amended.  The value of the field implements Nullable and
    unwrapping reports absence.  For a selection without a trailing
    index ([Nth = 0]), [resolvePath] returns a null result whatever the
    sub-selections are: none of them is resolved, and a sub-selection of
    a field that does not exist raises no error.  With a trailing index
    the null result is not Enumerable and [resolvePath] fails, again
    whatever the sub-selections are. *)
Theorem resolvePath_null_short_circuit `{Values} (s : Server) (self : Object)
    (alias : string) (selector : Selector Typed) (subs : list Selection)
    (class : ObjectType) (fieldDef : ast_FieldDefinition) (val : Typed) :
  classes s !! ast_Type_Name (Object_Type self) = Some class →
  FieldDefinition class (Field selector) = Some fieldDef →
  Select self selector = Ok val →
  as_Nullable val = Some None →
  let sel := mk_Selection alias selector subs in
  (Nth_ selector = 0 → resolvePath s self sel = Ok any_nil)
  ∧ (Nth_ selector ≠ 0 →
       resolvePath s self sel
       = Err (Errorf "cannot sub-select %dth item from %T"
                [of_int (Nth_ selector); of_string (fmt_T None)])).
Proof.
  intros Hclass Hfield Hval Hnull sel.
  rewrite (resolvePath_selected s self sel class fieldDef val) by done.
  unfold unwrapped. rewrite Hnull. simpl.
  split; intros Hnth; case_decide; done.
Qed.

Lemma resolvePath_null_short_circuit_witness :
  resolvePath Demo.srv (root Demo.srv)
    (Demo.pick "" "missing" 0 [Demo.pick "" "nowhere" 0 []])
  = Ok any_nil.
Proof.
  refine (proj1 (resolvePath_null_short_circuit Demo.srv (root Demo.srv) ""
                   {| Field := "missing"; Args := ∅; Nth_ := 0 |}
                   [Demo.pick "" "nowhere" 0 []]
                   (Demo.class Demo.Query_fields)
                   (Demo.field "missing" [] (Demo.named "Item"))
                   (Demo.Optional None) _ _ _ _) _); reflexivity.
Defined.

Section Materialized.
Context `{Values}.

Lemma toSelectable_Ok s id elem node :
  toSelectable s id elem = Ok node ↔ materialized s id elem node.
Proof.
  unfold toSelectable, materialized.
  destruct (as_Object elem) as [obj|].
  - split; [intros [= <-]; by left|]. by intros [[= <-]|[? _]].
  - destruct (classes s !! _) as [class|].
    + split; [intros ?; right; eauto|].
      by intros [?|(_ & class' & [= <-] & ?)].
    + split; [done|]. by intros [?|(_ & ? & ? & _)].
Qed.

Lemma elements_resolved_materialized s chainedID enum subs maps :
  elements_resolved s chainedID enum subs maps ↔
  elements_materialized s chainedID enum subs maps.
Proof.
  unfold elements_resolved, elements_materialized. apply and_iff_compat_l.
  split; intros Hmaps i m Hm;
    destruct (Hmaps i m Hm) as (elem & node & Helem & Hnode & Hsubs);
    exists elem, node; (split; [done|]); (split; [|done]);
    by apply toSelectable_Ok.
Qed.
End Materialized.

(** C4, as stated, fails for a selection that carries a trailing index:
    [empty] is a list of length zero, the selection has a sub-selection
    and [Nth = 1], and [resolvePath] returns an error, not the empty
    sequence. *)
Lemma resolvePath_empty_list_with_index_fails :
  let sel := Demo.pick "" "empty" 1 [Demo.pick "" "n" 0 []] in
  Subselections sel ≠ []
  ∧ list_typed (Demo.field "empty" [] (Demo.list_of (Demo.named "Item")))
  ∧ Select (root Demo.srv) (Selector_ sel) = Ok (Demo.List [])
  ∧ Len (Demo.list_Enumerable []) = 0
  ∧ resolvePath Demo.srv (root Demo.srv) sel
    = Err (Errorf "cannot sub-select %dth item from %T"
             [of_int 1; of_string "dagql.Array[dagql.Typed]"]).
Proof. repeat split; done. Qed.

(** C4, amended.  A selection with sub-selections and without a
    trailing index ([Nth = 0]) on a field of list type whose value is
    present and Enumerable.  For a length of zero [resolvePath] returns
    the empty sequence, not a null result.  For any length it returns a
    result exactly when every element [nth] of [1 .. Len] is read, is
    made an Object and has its sub-selections resolved on that Object:
    an element that is an Object already is taken as it is, with the ID
    that it carries, and any other element is handed to the class of
    its type with its own ID [chainedID.Nth(nth)].  The result is then
    the sequence of the maps of the elements in index order.  The IDs
    [chainedID.Nth(nth)] of two indices differ. *)
Theorem resolvePath_list_in_index_order `{Values} (s : Server) (self : Object)
    (alias : string) (selector : Selector Typed) (sub : Selection)
    (subs : list Selection) (class : ObjectType)
    (fieldDef : ast_FieldDefinition) (val0 val : Typed)
    (enum : Enumerable Typed) :
  classes s !! ast_Type_Name (Object_Type self) = Some class →
  FieldDefinition class (Field selector) = Some fieldDef →
  list_typed fieldDef →
  Select self selector = Ok val0 →
  unwrapped val0 = Some val →
  as_Enumerable val = Some enum →
  Nth_ selector = 0 →
  let sel := mk_Selection alias selector (sub :: subs) in
  let chainedID := appendToID selector (Object_ID self) fieldDef in
  (Len enum ≤ 0 → resolvePath s self sel = Ok (any_slice []))
  ∧ (∀ result,
       resolvePath s self sel = Ok result ↔
       ∃ maps : list (gmap string any),
         result = any_slice (any_map <$> maps)
         ∧ elements_materialized s chainedID enum (sub :: subs) maps)
  ∧ (∀ nth nth', nth ≠ nth' → ID_Nth chainedID nth ≠ ID_Nth chainedID nth').
Proof.
  intros Hclass Hfield Hlist Hval0 Hval Henum Hnth sel chainedID.
  assert (resolvePath s self sel
          = any_slice <$> for_nth (element s chainedID enum (sub :: subs))
                            1 (Z.to_nat (Len enum)) []) as Heq.
  { rewrite (resolvePath_list s self sel sub subs class fieldDef val0 val enum)
      by done.
    simpl. rewrite Hnth. fold chainedID. by destruct (for_nth _ _ _ _). }
  split; [|split].
  - intros Hlen. rewrite Heq.
    by replace (Z.to_nat (Len enum)) with 0%nat by lia.
  - intros result. rewrite Heq. split.
    + destruct (for_nth _ _ _ _) as [all|] eqn:Hloop; [|done].
      intros [= <-]. apply for_nth_elements in Hloop as (maps & -> & Hmaps).
      exists maps. split; [done|]. by apply elements_resolved_materialized.
    + intros (maps & -> & Hmaps%elements_resolved_materialized).
      assert (for_nth (element s chainedID enum (sub :: subs)) 1
                (Z.to_nat (Len enum)) [] = Ok (any_map <$> maps)) as ->; [|done].
      apply for_nth_elements. by exists maps.
  - intros nth nth' Hne. unfold chainedID, appendToID.
    rewrite appendToID_range_eq. unfold ID_Nth, ID_Clone. simpl.
    rewrite length_app. simpl.
    replace (length (Constructor (Object_ID self)) + 1 - 1)%nat
      with (length (Constructor (Object_ID self)) + 0)%nat by lia.
    rewrite !alter_app_r. simpl. intros Heq'.
    apply (f_equal Constructor) in Heq'. simpl in Heq'.
    apply app_inv_head in Heq'. injection Heq'. done.
Qed.

Lemma resolvePath_list_in_index_order_witness :
  resolvePath Demo.srv (root Demo.srv)
    (Demo.pick "" "empty" 0 [Demo.pick "" "n" 0 []])
  = Ok (any_slice []).
Proof.
  refine (proj1 (resolvePath_list_in_index_order Demo.srv (root Demo.srv) ""
                   {| Field := "empty"; Args := ∅; Nth_ := 0 |}
                   (Demo.pick "" "n" 0 []) []
                   (Demo.class Demo.Query_fields)
                   (Demo.field "empty" [] (Demo.list_of (Demo.named "Item")))
                   (Demo.List []) (Demo.List []) (Demo.list_Enumerable [])
                   _ _ _ _ _ _ _) _);
    first [reflexivity | by split | (simpl; lia)].
Defined.

(** The field [items] returns three elements; their sub-selections are
    resolved and collected in index order. *)
Example resolvePath_items_in_order :
  resolvePath Demo.srv (root Demo.srv)
    (Demo.pick "" "items" 0 [Demo.pick "" "n" 0 []])
  = Ok (any_slice [any_map {[ "n" := any_Typed (Demo.Int 3) ]};
                   any_map {[ "n" := any_Typed (Demo.Int 1) ]};
                   any_map {[ "n" := any_Typed (Demo.Int 2) ]}]).
Proof. reflexivity. Qed.

(** The field [saved] returns a list whose one element is an Object
    already, with the ID [loaded_ID]: its sub-selections are resolved
    on that Object, which keeps its ID and does not get the ID of the
    first element of [saved]. *)
Example resolvePath_element_keeps_its_ID :
  let selector := {| Field := "saved"; Args := ∅; Nth_ := 0 |} in
  let chainedID :=
    appendToID selector (Object_ID (root Demo.srv))
      (Demo.field "saved" [] (Demo.list_of (Demo.named "Item"))) in
  let elem := Demo.Inst Demo.loaded_ID "Item" (Demo.Item 1) in
  Select (root Demo.srv) selector = Ok (Demo.List [elem])
  ∧ resolvePath Demo.srv (root Demo.srv)
      (mk_Selection "" selector [Demo.pick "" "n" 0 []])
    = Ok (any_slice [any_map {[ "n" := any_Typed (Demo.Int 1) ]}])
  ∧ ∃ node,
      toSelectable Demo.srv (ID_Nth chainedID 1) elem = Ok node
      ∧ Object_ID node = Demo.loaded_ID
      ∧ Object_ID node ≠ ID_Nth chainedID 1.
Proof.
  split; [reflexivity|]. split; [reflexivity|].
  eexists. split; [reflexivity|]. split; [reflexivity|]. done.
Qed.

(** C10, as stated, fails when the resolution of an element fails: the
    selection [items] carries [Nth = 1], within the three elements of
    the list, and the sub-selection [fail]; [resolvePath] returns the
    error of the sub-selection, which is not a "cannot sub-select"
    error. *)
Lemma resolvePath_index_returns_element_error :
  let sel := Demo.pick "" "items" 1 [Demo.pick "" "fail" 0 []] in
  let e := Join [Wrapf "%s: %w" [of_string "fail"] (Errorf "boom" [])] in
  1 ≤ Nth_ (Selector_ sel)
  ∧ Subselections sel ≠ []
  ∧ list_typed (Demo.field "items" [] (Demo.list_of (Demo.named "Item")))
  ∧ resolvePath Demo.srv (root Demo.srv) sel = Err e
  ∧ ¬ cannot_sub_select e.
Proof.
  repeat split; try done. by intros (ops & [?|?]).
Qed.

(** C10, amended.  A selection that carries a trailing index [Nth >= 1]
    and sub-selections on a field of list type never returns a result:
    [resolvePath] always fails.  When the value is absent, or is not
    Enumerable, or is a list all of whose elements have their
    sub-selections resolved, the error is a "cannot sub-select" error,
    whether or not [Nth] is within the bounds of the list: the assembled
    results are a plain slice, which is not Enumerable.  When the call
    of the field fails, or the step of an element of the list does, the
    error is that one. *)
Theorem resolvePath_index_with_subselections `{Values} (s : Server)
    (self : Object) (alias : string) (selector : Selector Typed)
    (sub : Selection) (subs : list Selection) (class : ObjectType)
    (fieldDef : ast_FieldDefinition) :
  classes s !! ast_Type_Name (Object_Type self) = Some class →
  FieldDefinition class (Field selector) = Some fieldDef →
  list_typed fieldDef →
  1 ≤ Nth_ selector →
  let sel := mk_Selection alias selector (sub :: subs) in
  let chainedID := appendToID selector (Object_ID self) fieldDef in
  (∃ e, resolvePath s self sel = Err e)
  ∧ (∀ e, Select self selector = Err e → resolvePath s self sel = Err e)
  ∧ ∀ val0, Select self selector = Ok val0 →
      match unwrapped val0 with
      | None =>
          resolvePath s self sel
          = Err (Errorf "cannot sub-select %dth item from %T"
                   [of_int (Nth_ selector); of_string (fmt_T None)])
      | Some val =>
          match as_Enumerable val with
          | None =>
              resolvePath s self sel
              = Err (Errorf "cannot sub-select %T"
                       [of_string (fmt_T (Some val))])
          | Some enum =>
              (∀ maps, elements_resolved s chainedID enum (sub :: subs) maps →
                 resolvePath s self sel
                 = Err (Errorf "cannot sub-select %dth item from %T"
                          [of_int (Nth_ selector);
                           of_string (fmt_T (Some val))]))
              ∧ ((∀ maps,
                    ¬ elements_resolved s chainedID enum (sub :: subs) maps) →
                 ∃ (i : nat) e,
                   (i < Z.to_nat (Len enum))%nat
                   ∧ element s chainedID enum (sub :: subs) (1 + Z.of_nat i)
                     = Err e
                   ∧ resolvePath s self sel = Err e)
          end
      end.
Proof.
  intros Hclass Hfield Hlist Hnth sel chainedID.
  assert (Nth_ selector ≠ 0) as Hnth0 by lia.
  assert (∀ e, Select self selector = Err e → resolvePath s self sel = Err e)
    as Hfailed.
  { intros e He. rewrite resolvePath_unfold. unfold resolvePath_body.
    simpl. by rewrite Hclass, Hfield, He. }
  assert (∀ val0, Select self selector = Ok val0 →
            (∃ e, resolvePath s self sel = Err e)
            ∧ match unwrapped val0 with
              | None =>
                  resolvePath s self sel
                  = Err (Errorf "cannot sub-select %dth item from %T"
                           [of_int (Nth_ selector); of_string (fmt_T None)])
              | Some val =>
                  match as_Enumerable val with
                  | None =>
                      resolvePath s self sel
                      = Err (Errorf "cannot sub-select %T"
                               [of_string (fmt_T (Some val))])
                  | Some enum =>
                      (∀ maps,
                         elements_resolved s chainedID enum (sub :: subs) maps →
                         resolvePath s self sel
                         = Err (Errorf "cannot sub-select %dth item from %T"
                                  [of_int (Nth_ selector);
                                   of_string (fmt_T (Some val))]))
                      ∧ ((∀ maps,
                            ¬ elements_resolved s chainedID enum (sub :: subs)
                                maps) →
                         ∃ (i : nat) e,
                           (i < Z.to_nat (Len enum))%nat
                           ∧ element s chainedID enum (sub :: subs)
                               (1 + Z.of_nat i) = Err e
                           ∧ resolvePath s self sel = Err e)
                  end
              end) as Hselected.
  { intros val0 Hval0.
    destruct (unwrapped val0) as [val|] eqn:Hval.
    - destruct (as_Enumerable val) as [enum|] eqn:Henum.
      + rewrite (resolvePath_list s self sel sub subs class fieldDef val0 val
                   enum) by done.
        simpl. fold chainedID.
        destruct (for_nth_total (element s chainedID enum (sub :: subs)) 1
                    (Z.to_nat (Len enum)) [])
          as [[all Hloop]|(i & e & Hi & Hloop & Hbody)]; rewrite Hloop; simpl.
        * rewrite decide_True by done. split; [eauto|]. split; [done|].
          intros Hnone. apply for_nth_elements in Hloop as (maps & _ & Hmaps).
          by destruct (Hnone maps).
        * split; [eauto|]. split; [|by eauto].
          intros maps Hmaps.
          assert (for_nth (element s chainedID enum (sub :: subs)) 1
                    (Z.to_nat (Len enum)) [] = Ok (any_map <$> maps)) as Hok
            by (apply for_nth_elements; eauto).
          congruence.
      + rewrite (resolvePath_selected s self sel class fieldDef val0) by done.
        rewrite Hval. simpl. destruct Hlist as [-> Helem]. rewrite Henum.
        destruct (decide ("" ≠ "")) as [?|_]; [done|].
        destruct (decide (Elem (fd_Type fieldDef) ≠ None)); [|done].
        split; [eauto|done].
    - rewrite (resolvePath_selected s self sel class fieldDef val0) by done.
      rewrite Hval. simpl. rewrite decide_True by done. split; [eauto|done]. }
  split; [|split; [done|intros val0 Hval0; by apply Hselected]].
  destruct (Select self selector) as [val0|e] eqn:Hval0.
  - by apply (Hselected val0).
  - eauto.
Qed.

Lemma resolvePath_index_with_subselections_witness :
  ∃ e, resolvePath Demo.srv (root Demo.srv)
         (Demo.pick "" "items" 2 [Demo.pick "" "n" 0 []]) = Err e.
Proof.
  refine (proj1 (resolvePath_index_with_subselections Demo.srv
                   (root Demo.srv) ""
                   {| Field := "items"; Args := ∅; Nth_ := 2 |}
                   (Demo.pick "" "n" 0 []) []
                   (Demo.class Demo.Query_fields)
                   (Demo.field "items" [] (Demo.list_of (Demo.named "Item")))
                   _ _ _ _));
    first [reflexivity | by split | (simpl; lia)].
Defined.

(** The second of the three [items], with a sub-selection. *)
Example resolvePath_second_item_fails :
  resolvePath Demo.srv (root Demo.srv)
    (Demo.pick "" "items" 2 [Demo.pick "" "n" 0 []])
  = Err (Errorf "cannot sub-select %dth item from %T"
           [of_int 2; of_string "dagql.Array[dagql.Typed]"]).
Proof. reflexivity. Qed.

(** ** Replay of an ID *)

Section LoadFacts.
Context `{Values}.

Lemma outcome_bind_Ok {A B} (r : outcome A) (k : A → outcome B) b :
  r ≫= k = Returned (Ok b) ↔ ∃ a, r = Returned (Ok a) ∧ k a = Returned (Ok b).
Proof.
  destruct r as [[a|e]|p]; simpl; split; try done; eauto.
  - by intros (a' & [= <-] & ?).
  - by intros (? & ? & _).
  - by intros (? & ? & _).
Qed.

Lemma constructorToSelection_replays s selfType first rest sel :
  constructorToSelection s selfType first rest = Returned (Ok sel) →
  replays sel first rest.
Proof.
  revert selfType first sel.
  induction rest as [|rest0 rest IH]; intros selfType first sel; simpl;
    destruct (classes s !! ast_Type_Name selfType) as [class|]; try done;
    destruct (FieldDefinition class (is_Field first)) as [fieldDef|];
    try done;
    intros (sel_Args & _ & Hrest)%outcome_bind_Ok.
  - simpl in Hrest. by injection Hrest as <-.
  - apply outcome_bind_Ok in Hrest as (subsels & Hsub & Hsel).
    apply outcome_bind_Ok in Hsub as (subsel & Hsub & [= <-]).
    injection Hsel as <-. simpl. repeat split; try done.
    exists subsel. split; [done|]. by eapply IH.
Qed.
End LoadFacts.

(** C2, as stated, fails when the value of the final field is already
    an Object: the field [loaded] returns an object that carries the ID
    [first], and [Load] of the ID [loaded] returns that object, with
    the ID [first], not the ID it was given. *)
Lemma Load_returns_object_with_its_own_ID :
  let id := mk_ID (Some (Demo.named "Item"))
              [mk_idSelector "loaded" [] false false 0] in
  ∃ obj, Load Demo.srv id = Returned (Ok obj)
    ∧ Object_ID obj = Demo.loaded_ID
    ∧ Object_ID obj ≠ id.
Proof. eexists. repeat split. done. Qed.

(** C2, amended.  [Load] of an ID with an empty chain returns the root
    object.  For a chain [first :: rest], [Load] returns an object
    exactly when the chain is replayed as a nested synthetic selection,
    one per element, each wrapping the next, that selection is resolved,
    once, against the root, the result is followed down the fields of
    the chain to a typed value, and that value either is an Object
    already, which is returned as it is, with the ID it carries, or is
    bound by its class to the ID that was given. *)
Theorem Load_replays_chain `{Values} (s : Server) (id : ID) :
  match Constructor id with
  | [] => Load s id = Returned (Ok (root s))
  | first :: rest =>
      ∀ obj,
        Load s id = Returned (Ok obj) ↔
        ∃ sel m val,
          constructorToSelection s (Object_Type (root s)) first rest
            = Returned (Ok sel)
          ∧ replays sel first rest
          ∧ Resolve s (root s) [sel] = Ok m
          ∧ Load_descend (any_map m) (first :: rest) = Ok (any_Typed val)
          ∧ (as_Object val = Some obj
             ∨ as_Object val = None
               ∧ ∃ class,
                   classes s !! ast_Type_Name (Typed_Type val) = Some class
                   ∧ New class id val = Ok obj)
  end.
Proof.
  unfold Load. destruct (Constructor id) as [|first rest] eqn:Hchain; [done|].
  intros obj. rewrite outcome_bind_Ok. split.
  - intros (sel & Hsel & Hrun). exists sel.
    destruct (Resolve s (root s) [sel]) as [m|] eqn:Hm; [|done].
    simpl in Hrun.
    change (Load_descend (default any_nil (m !! is_Field first)) rest)
      with (Load_descend (any_map m) (first :: rest)) in Hrun.
    destruct (Load_descend (any_map m) (first :: rest)) as [[|val|m'|l]|e]
      eqn:Hdesc; simpl in Hrun; try done.
    exists m, val.
    split; [done|]. split; [by eapply constructorToSelection_replays|].
    split; [done|]. split; [done|].
    unfold toSelectable in Hrun.
    destruct (as_Object val) as [o|]; [left; congruence|right].
    split; [done|].
    destruct (classes s !! ast_Type_Name (Typed_Type val)) as [class|];
      [|done].
    exists class. split; [done|]. congruence.
  - intros (sel & m & val & Hsel & _ & Hm & Hdesc & Hobj).
    exists sel. split; [done|]. rewrite Hm. cbn -[Load_descend].
    rewrite Hdesc. simpl.
    unfold toSelectable.
    destruct Hobj as [->|(-> & class & -> & ->)]; done.
Qed.

(** [Load] of the root ID and of the ID of the field [first]: the value
    of [first] is a plain [Item], which its class binds to the ID. *)
Example Load_root :
  Load Demo.srv (idproto_New (Demo.named "Query"))
  = Returned (Ok (root Demo.srv)).
Proof. reflexivity. Qed.

Example Load_first :
  let id := mk_ID (Some (Demo.named "Item"))
              [mk_idSelector "first" [] false false 0] in
  Load Demo.srv id
  = Returned (Ok {| Demo.o_ID := id; Demo.o_Type := "Item";
                    Demo.o_Self := Demo.Item 1 |}).
Proof. reflexivity. Qed.

(** ** Unknown arguments *)

Section UnknownArgument.
Context `{Values}.

(** The replay of an ID: the first argument of the selector that the
    field does not declare is reported by name, when the arguments
    before it decode. *)
Lemma decode_Args_unknown s fieldDef known arg later sel_Args :
  Forall (λ a, ∃ argDef val,
            Arguments_ForName (fd_Arguments fieldDef) (arg_Name a)
              = Some argDef
            ∧ fromLiteral s (arg_Value a) argDef = Returned (Ok val)) known →
  Arguments_ForName (fd_Arguments fieldDef) (arg_Name arg) = None →
  decode_Args s fieldDef (known ++ arg :: later) sel_Args
  = Returned (Err (Errorf "unknown argument: %q" [of_string (arg_Name arg)])).
Proof.
  intros Hknown Harg. revert sel_Args.
  induction Hknown as [|a known (argDef & val & Hdef & Hval) _ IH];
    intros sel_Args; simpl.
  - by rewrite Harg.
  - rewrite Hdef, Hval. simpl. apply IH.
Qed.

Lemma constructorToSelection_unknown_argument s selfType first rest class
    fieldDef known arg later :
  classes s !! ast_Type_Name selfType = Some class →
  FieldDefinition class (is_Field first) = Some fieldDef →
  is_Args first = known ++ arg :: later →
  Forall (λ a, ∃ argDef val,
            Arguments_ForName (fd_Arguments fieldDef) (arg_Name a)
              = Some argDef
            ∧ fromLiteral s (arg_Value a) argDef = Returned (Ok val)) known →
  Arguments_ForName (fd_Arguments fieldDef) (arg_Name arg) = None →
  constructorToSelection s selfType first rest
  = Returned (Err (Errorf "unknown argument: %q" [of_string (arg_Name arg)])).
Proof.
  intros Hclass Hfield Hargs Hknown Harg.
  destruct rest; simpl; rewrite Hclass, Hfield, Hargs;
    by rewrite (decode_Args_unknown s fieldDef known arg later ∅).
Qed.

(** The wire query: the first argument of the field that its definition
    does not declare makes [parseASTSelections] panic, when the
    arguments before it decode; no error is returned. *)
Lemma parse_Arguments_unknown s vars definition known arg later val args :
  Forall (λ a, ∃ raw argDef scalar typed,
            Value_Value (av_Value a) vars = Ok raw
            ∧ Arguments_ForName (fd_Arguments definition) (av_Name a)
              = Some argDef
            ∧ scalars s !! ast_Type_Name (ad_Type argDef) = Some scalar
            ∧ Scalar_New scalar raw = Ok typed) known →
  Value_Value (av_Value arg) vars = Ok val →
  Arguments_ForName (fd_Arguments definition) (av_Name arg) = None →
  parse_Arguments s vars (Some definition) (known ++ arg :: later) args
  = Panicked nil_dereference.
Proof.
  intros Hknown Hval Harg. revert args.
  induction Hknown
    as [|a known (raw & argDef & scalar & typed & Hraw & Hdef & Hsc & Hnew)
          _ IH];
    intros args; simpl.
  - by rewrite Hval, Harg.
  - rewrite Hraw. simpl. rewrite Hdef, Hsc, Hnew. simpl. apply IH.
Qed.
End UnknownArgument.

(** C6.  The field [hello] declares the one argument [name].  Replaying
    an ID whose selector gives [hello] the argument [nme] fails with the
    error "unknown argument" naming [nme]; converting the wire query
    [hello(nme: "Ada")] does not: [parseASTSelections] panics with a nil
    pointer dereference, whatever the fuel. *)
Theorem parseASTSelections_unknown_argument_panics :
  let hello := Demo.field "hello"
                 [{| ad_Name := "name"; ad_Type := Demo.named "String" |}]
                 (Demo.named "String") in
  let gqlOp := {| op_Variables := (); op_Fragments := [] |} in
  let query := [ast_Field "" "hello"
                  [{| av_Name := "nme"; av_Value := "Ada" |}]
                  (Some hello) []] in
  Arguments_ForName (fd_Arguments hello) "nme" = None
  ∧ constructorToSelection Demo.srv (Demo.named "Query")
      (mk_idSelector "hello" [mk_Argument "nme" (Literal_String_ "Ada")]
         false false 0) []
    = Returned (Err (Errorf "unknown argument: %q" [of_string "nme"]))
  ∧ ∀ fuel,
      parseASTSelections (S fuel) Demo.srv gqlOp query
      = Some (Panicked nil_dereference).
Proof. repeat split. Qed.


Section CacheFacts.
Context {K V : Type} `{Countable K}.
Implicit Types (st : cache_state (K:=K) (V:=V)) (calls : list (K * res V)).



Lemma cache_init_inv calls : cache_inv calls (cache_init calls).
Proof.
  split; simpl; try (intros; by rewrite ?lookup_empty in * ).
  - by rewrite length_fmap.
  - intros i k f. rewrite list_lookup_fmap.
    destruct (calls !! i) as [[??]|]; naive_solver.
  - intros i k f. rewrite list_lookup_fmap.
    destruct (calls !! i) as [[??]|]; naive_solver.
  - intros i k. rewrite list_lookup_fmap.
    destruct (calls !! i) as [[??]|]; naive_solver.
  - intros i k r. rewrite list_lookup_fmap.
    destruct (calls !! i) as [[??]|]; naive_solver.
Qed.

Lemma computed_by_insert (computed : gmap K (list nat)) k l k' :
  default [] (<[k := l]> computed !! k')
  = if decide (k = k') then l else default [] (computed !! k').
Proof.
  case_decide as Hk.
  - subst. by rewrite lookup_insert_eq.
  - by rewrite lookup_insert_ne.
Qed.

Lemma cache_step_inv calls i st st' :
  cache_inv calls st → cache_step i st = Some st' → cache_inv calls st'.
Proof.
  intros [Hlen HCalling HComputing HBlocked HGot Habsent HInFlight HDone].
  unfold cache_step. unfold computed_by in *.
  destruct (callers st !! i) as [[k f|k f|k|k r]|] eqn:Hi; try done.
  - (* the call is made *)
    destruct (entries st !! k) as [[|r]|] eqn:Hk; intros [= <-].
    + (* a computation is in flight: the caller blocks *)
      split; unfold computed_by; simpl; try done.
      * by rewrite length_insert.
      * intros j k' f' [(_&?&_)|(_&?)]%list_lookup_insert_Some; [done|eauto].
      * intros j k' f' [(_&?&_)|(_&?)]%list_lookup_insert_Some; [done|eauto].
      * intros j k' [(<-&[= <-]&_)|(_&?)]%list_lookup_insert_Some; eauto.
      * intros j k' r [(_&?&_)|(_&?)]%list_lookup_insert_Some; [done|eauto].
      * intros k' Hk'. destruct (HInFlight k' Hk') as (j & f' & Hj).
        exists j, f'. rewrite list_lookup_insert_ne; [done|]. congruence.
    + (* the value is there *)
      split; unfold computed_by; simpl; try done.
      * by rewrite length_insert.
      * intros j k' f' [(_&?&_)|(_&?)]%list_lookup_insert_Some; [done|eauto].
      * intros j k' f' [(_&?&_)|(_&?)]%list_lookup_insert_Some; [done|eauto].
      * intros j k' [(_&?&_)|(_&?)]%list_lookup_insert_Some; [done|eauto].
      * intros j k' r' [(<-&[= <- <-]&_)|(_&?)]%list_lookup_insert_Some;
          eauto.
      * intros k' Hk'. destruct (HInFlight k' Hk') as (j & f' & Hj).
        exists j, f'. rewrite list_lookup_insert_ne; [done|]. congruence.
    + (* nothing is there: this caller computes *)
      pose proof (lookup_lt_Some _ _ _ Hi) as Hlt.
      split; unfold computed_by; simpl.
      * by rewrite length_insert.
      * intros j k' f' [(_&?&_)|(_&?)]%list_lookup_insert_Some; [done|eauto].
      * intros j k' f' [(<-&[= <- <-]&_)|(Hne&Hj)]%list_lookup_insert_Some.
        -- rewrite lookup_insert_eq, computed_by_insert, decide_True by done.
           rewrite (Habsent k Hk). eauto.
        -- destruct (HComputing j k' f' Hj) as (? & Hk' & ?).
           assert (k ≠ k') by congruence.
           rewrite lookup_insert_ne, computed_by_insert, decide_False by done.
           done.
      * intros j k' [(_&?&_)|(_&Hj)]%list_lookup_insert_Some; [done|].
        destruct (HBlocked j k' Hj) as [? ?]. split; [|done].
        destruct (decide (k = k')) as [->|?].
        -- rewrite lookup_insert_eq. eauto.
        -- by rewrite lookup_insert_ne.
      * intros j k' r [(_&?&_)|(_&Hj)]%list_lookup_insert_Some; [done|].
        destruct (HGot j k' r Hj) as [? ?]. split; [|done].
        rewrite lookup_insert_ne; [done|]. congruence.
      * intros k' Hk'. destruct (decide (k = k')) as [->|?].
        -- by rewrite lookup_insert_eq in Hk'.
        -- rewrite lookup_insert_ne in Hk' by done.
           rewrite computed_by_insert, decide_False by done. eauto.
      * intros k' Hk'. destruct (decide (k = k')) as [<-|?].
        -- exists i, f. by apply list_lookup_insert_eq.
        -- rewrite lookup_insert_ne in Hk' by done.
           destruct (HInFlight k' Hk') as (j & f' & Hj).
           exists j, f'. rewrite list_lookup_insert_ne; [done|]. congruence.
      * intros k' r Hk'. destruct (decide (k = k')) as [<-|?].
        -- by rewrite lookup_insert_eq in Hk'.
        -- rewrite lookup_insert_ne in Hk' by done.
           rewrite computed_by_insert, decide_False by done. eauto.
  - (* the computation finishes *)
    intros [= <-]. destruct (HComputing i k f Hi) as (Hcall & Hk & Hby).
    pose proof (lookup_lt_Some _ _ _ Hi) as Hlt.
    split; unfold computed_by; simpl.
    + by rewrite length_insert.
    + intros j k' f' [(_&?&_)|(_&?)]%list_lookup_insert_Some; [done|eauto].
    + intros j k' f' [(_&?&_)|(Hne&Hj)]%list_lookup_insert_Some; [done|].
      destruct (HComputing j k' f' Hj) as (? & Hk' & Hby').
      assert (k ≠ k').
      { intros <-. rewrite Hby in Hby'. congruence. }
      by rewrite lookup_insert_ne.
    + intros j k' [(_&?&_)|(_&Hj)]%list_lookup_insert_Some; [done|].
      destruct (HBlocked j k' Hj) as [? ?]. split; [|done].
      destruct (decide (k = k')) as [->|?].
      * rewrite lookup_insert_eq. eauto.
      * by rewrite lookup_insert_ne.
    + intros j k' r [(<-&[= <- <-]&_)|(_&Hj)]%list_lookup_insert_Some.
      * rewrite lookup_insert_eq. eauto.
      * destruct (HGot j k' r Hj) as [? ?]. split; [|done].
        rewrite lookup_insert_ne; [done|]. congruence.
    + intros k' Hk'. destruct (decide (k = k')) as [->|?].
      * by rewrite lookup_insert_eq in Hk'.
      * rewrite lookup_insert_ne in Hk' by done. eauto.
    + intros k' Hk'. destruct (decide (k = k')) as [->|?].
      * by rewrite lookup_insert_eq in Hk'.
      * rewrite lookup_insert_ne in Hk' by done.
        destruct (HInFlight k' Hk') as (j & f' & Hj).
        exists j, f'. rewrite list_lookup_insert_ne; [done|]. congruence.
    + intros k' r Hk'. destruct (decide (k = k')) as [<-|?].
      * rewrite lookup_insert_eq in Hk'. injection Hk' as <-. eauto.
      * rewrite lookup_insert_ne in Hk' by done. eauto.
  - (* a blocked caller is woken *)
    destruct (entries st !! k) as [[|r]|] eqn:Hk; try done. intros [= <-].
    destruct (HBlocked i k Hi) as [_ Hcall].
    split; unfold computed_by; simpl; try done.
    + by rewrite length_insert.
    + intros j k' f' [(_&?&_)|(_&?)]%list_lookup_insert_Some; [done|eauto].
    + intros j k' f' [(_&?&_)|(_&?)]%list_lookup_insert_Some; [done|eauto].
    + intros j k' [(_&?&_)|(_&?)]%list_lookup_insert_Some; [done|eauto].
    + intros j k' r' [(<-&[= <- <-]&_)|(_&?)]%list_lookup_insert_Some; eauto.
    + intros k' Hk'. destruct (HInFlight k' Hk') as (j & f' & Hj).
      exists j, f'. rewrite list_lookup_insert_ne; [done|]. congruence.
Qed.

Lemma cache_run_inv calls schedule st :
  cache_inv calls st → cache_inv calls (cache_run schedule st).
Proof.
  revert st. induction schedule as [|i schedule IH]; intros st Hinv; [done|].
  simpl. apply IH. destruct (cache_step i st) as [st'|] eqn:Hstep; [|done].
  by eapply cache_step_inv.
Qed.

Lemma cache_run_app schedule more st :
  cache_run (schedule ++ more) st = cache_run more (cache_run schedule st).
Proof.
  revert st. induction schedule as [|i schedule IH]; intros st; [done|].
  simpl. apply IH.
Qed.

(** A caller that cannot return yet leaves some caller able to move. *)
Lemma cache_progress calls st :
  cache_inv calls st →
  Forall has_returned (callers st) ∨ ∃ i st', cache_step i st = Some st'.
Proof.
  intros Hinv.
  destruct (Forall_Exists_dec has_returned (λ c, ¬ has_returned c)
              (λ c, match c with
                    | Got _ _ => left I
                    | _ => right (λ x, x)
                    end) (callers st)) as [?|Hex]; [by left|right].
  apply Exists_exists in Hex as (c & Hin & Hc).
  apply list_elem_of_lookup in Hin as [j Hj].
  destruct c as [k f|k f|k|k r]; [| | |done].
  - exists j. unfold cache_step. rewrite Hj.
    destruct (entries st !! k) as [[|r]|]; eauto.
  - exists j. unfold cache_step. rewrite Hj. eauto.
  - destruct (inv_Blocked _ _ Hinv j k Hj) as [[e Hk] _].
    destruct e as [|r].
    + destruct (inv_InFlight _ _ Hinv k Hk) as (i & f & Hi).
      exists i. unfold cache_step. rewrite Hi. eauto.
    + exists j. unfold cache_step. rewrite Hj, Hk. eauto.
Qed.

Lemma steps_left_insert (l : list (caller (K:=K) (V:=V))) i c c' :
  l !! i = Some c →
  (sum_list (steps_left <$> <[i := c']> l) + steps_left c
   = sum_list (steps_left <$> l) + steps_left c')%nat.
Proof.
  revert i. induction l as [|x l IH]; intros [|i]; csimpl; try done.
  - intros [= ->]. lia.
  - intros Hi. specialize (IH i Hi). lia.
Qed.

Lemma cache_step_steps_left i st st' :
  cache_step i st = Some st' →
  (sum_list (steps_left <$> callers st')
   < sum_list (steps_left <$> callers st))%nat.
Proof.
  unfold cache_step.
  destruct (callers st !! i) as [[k f|k f|k|k r]|] eqn:Hi; try done.
  - destruct (entries st !! k) as [[|r]|]; intros [= <-]; simpl;
      match goal with
      | |- context [<[i := ?c']> _] =>
          pose proof (steps_left_insert _ i _ c' Hi)
      end; simpl in *; lia.
  - intros [= <-]. simpl.
    pose proof (steps_left_insert _ i _ (Got k f) Hi). simpl in *. lia.
  - destruct (entries st !! k) as [[|r]|]; try done. intros [= <-]. simpl.
    pose proof (steps_left_insert _ i _ (Got k r) Hi). simpl in *. lia.
Qed.

Lemma cache_completes calls st :
  cache_inv calls st →
  ∃ more, Forall has_returned (callers (cache_run more st)).
Proof.
  remember (sum_list (steps_left <$> callers st)) as n eqn:Hn.
  revert st Hn. induction (lt_wf n) as [n _ IH]. intros st -> Hinv.
  destruct (cache_progress calls st Hinv) as [?|(i & st' & Hstep)].
  - by exists [].
  - destruct (IH _ (cache_step_steps_left _ _ _ Hstep) st' eq_refl)
      as [more Hmore]; [by eapply cache_step_inv|].
    exists (i :: more). simpl. by rewrite Hstep.
Qed.

(** An entry, once made, stays. *)
Lemma cache_step_entries i st st' k :
  cache_step i st = Some st' →
  is_Some (entries st !! k) → is_Some (entries st' !! k).
Proof.
  unfold cache_step.
  destruct (callers st !! i) as [[k' f|k' f|k'|k' r]|]; try done.
  - destruct (entries st !! k') as [[|r]|]; intros [= <-]; simpl; try done.
    intros ?. destruct (decide (k' = k)) as [->|?].
    + rewrite lookup_insert_eq. eauto.
    + by rewrite lookup_insert_ne.
  - intros [= <-]. simpl. intros ?. destruct (decide (k' = k)) as [->|?].
    + rewrite lookup_insert_eq. eauto.
    + by rewrite lookup_insert_ne.
  - destruct (entries st !! k') as [[|r]|]; try done. by intros [= <-].
Qed.

(** Once a caller for [k] was scheduled, there is an entry for [k]. *)
Lemma cache_scheduled_entry calls schedule j k f :
  j ∈ schedule → calls !! j = Some (k, f) →
  is_Some (entries (cache_run schedule (cache_init calls)) !! k).
Proof.
  induction schedule as [|x schedule IH] using rev_ind;
    [by intros ?%elem_of_nil|].
  rewrite cache_run_app. simpl.
  pose proof (cache_run_inv calls schedule _ (cache_init_inv calls)) as Hinv.
  set (st := cache_run schedule (cache_init calls)) in *.
  intros [Hin|Heq%list_elem_of_singleton]%elem_of_app Hcall; [|subst x].
  - destruct (cache_step x st) as [st'|] eqn:Hstep; simpl; [|by apply IH].
    eapply cache_step_entries; [done|]. by apply IH.
  - assert (is_Some (callers st !! j)) as [c Hj].
    { apply lookup_lt_is_Some. rewrite (inv_length _ _ Hinv).
      by eapply lookup_lt_Some. }
    unfold cache_step. rewrite Hj. destruct c as [k' f'|k' f'|k'|k' r].
    + pose proof (inv_Calling _ _ Hinv j k' f' Hj) as Hc.
      assert (k' = k) as -> by congruence.
      destruct (entries st !! k) as [[|r]|] eqn:Hk; simpl;
        rewrite ?Hk, ?lookup_insert_eq; eauto.
    + destruct (inv_Computing _ _ Hinv j k' f' Hj) as (Hc & _).
      assert (k' = k) as -> by congruence.
      simpl. rewrite lookup_insert_eq. eauto.
    + destruct (inv_Blocked _ _ Hinv j k' Hj) as (Hk & f' & Hc).
      assert (k' = k) as -> by congruence.
      destruct (entries st !! k) as [[|r]|] eqn:Hk'; simpl;
        rewrite ?Hk'; eauto.
    + destruct (inv_Got _ _ Hinv j k' r Hj) as (Hk & f' & Hc).
      assert (k' = k) as -> by congruence. simpl. rewrite Hk. eauto.
Qed.

(** The caller that computes for [k] is the first caller for [k] in the
    schedule. *)
Lemma cache_first_caller calls schedule k i :
  computed_by (cache_run schedule (cache_init calls)) k = [i] →
  ∃ before after,
    schedule = before ++ i :: after
    ∧ ∀ j f, j ∈ before → calls !! j ≠ Some (k, f).
Proof.
  induction schedule as [|x schedule IH] using rev_ind; [done|].
  rewrite cache_run_app. simpl.
  pose proof (cache_run_inv calls schedule _ (cache_init_inv calls)) as Hinv.
  assert (∀ j f, j ∈ schedule → calls !! j = Some (k, f) →
            is_Some (entries (cache_run schedule (cache_init calls)) !! k))
    as Hsched by (intros; by eapply cache_scheduled_entry).
  set (st := cache_run schedule (cache_init calls)) in *.
  assert (computed_by st k = [i] →
          ∃ before after,
            schedule ++ [x] = before ++ i :: after
            ∧ ∀ j f, j ∈ before → calls !! j ≠ Some (k, f)) as Hold.
  { intros (before & after & -> & Hbefore)%IH.
    exists before, (after ++ [x]). by rewrite <-app_assoc. }
  unfold cache_step.
  destruct (callers st !! x) as [[k' f|k' f|k'|k' r]|] eqn:Hx; simpl;
    try exact Hold.
  - destruct (entries st !! k') as [[|r]|] eqn:Hk'; simpl; try exact Hold.
    unfold computed_by. simpl. rewrite computed_by_insert.
    case_decide as Hkk; [subst k'|exact Hold].
    pose proof (inv_absent _ _ Hinv k Hk') as Hnone.
    unfold computed_by in Hnone. rewrite Hnone. simpl. intros [= <-].
    exists schedule, []. split; [done|].
    intros j f' Hj Hcall. destruct (Hsched j f' Hj Hcall) as [e He].
    congruence.
  - destruct (entries st !! k') as [[|r]|] eqn:Hk'; simpl; exact Hold.
Qed.
(** Every caller stands where its own call has brought it. *)
Lemma cache_inv_stands calls st j digest computeFn :
  cache_inv calls st → calls !! j = Some (digest, computeFn) →
  stands calls st j digest computeFn.
Proof.
  intros Hinv Hcall.
  destruct (lookup_lt_is_Some_2 (callers st) j) as [c Hc].
  { rewrite (inv_length _ _ Hinv). by eapply lookup_lt_Some. }
  destruct c as [k f|k f|k|k r].
  - pose proof (inv_Calling _ _ Hinv j k f Hc) as Hj.
    rewrite Hcall in Hj. injection Hj as <- <-. by left.
  - destruct (inv_Computing _ _ Hinv j k f Hc) as (Hj & Hk & Hby).
    rewrite Hcall in Hj. injection Hj as <- <-. right. by left.
  - destruct (inv_Blocked _ _ Hinv j k Hc) as (Hk & f & Hj).
    rewrite Hcall in Hj. injection Hj as <- _. right. right. left.
    split; [done|]. split; [done|].
    intros Hflight. unfold cache_step. by rewrite Hc, Hflight.
  - destruct (inv_Got _ _ Hinv j k r Hc) as (Hk & f & Hj).
    rewrite Hcall in Hj. injection Hj as <- _.
    destruct (inv_Done _ _ Hinv digest r Hk) as (i & Hby & Hi).
    right. right. right. by exists i, r.
Qed.

Lemma cache_inv_received calls st j digest computeFn :
  cache_inv calls st → Forall has_returned (callers st) →
  calls !! j = Some (digest, computeFn) →
  received calls st j digest.
Proof.
  intros Hinv Hall Hcall.
  destruct (cache_inv_stands calls st j digest computeFn Hinv Hcall)
    as [Hc|[(Hc & _)|[(Hc & _)|?]]]; [| | |done];
    by destruct (proj1 (Forall_lookup _ _) Hall j _ Hc).
Qed.
End CacheFacts.

(** C8.  Callers call [GetOrCompute], each with a digest and a
    [computeFn], on a new cache, and run interleaved in any order
    ([schedule]).  At every point of the run: for each digest the
    computation has run at most once, and exactly once as soon as the
    cache has an entry for the digest, by the first caller for that
    digest in the schedule; each caller stands where its own call for
    its own digest has brought it: it has not looked at the cache yet,
    or it is the one caller that computes for its digest, or it is
    blocked on its digest and cannot move while the computation is in
    flight, or it has returned with the result of the one computation
    for its digest, value or error; so two callers for the same digest
    that have returned hold the same result; when no caller can move,
    every caller has returned with the one result for its digest; and
    the run can always be continued until every caller has. *)
Theorem GetOrCompute_computes_once {K V : Type} `{Countable K}
    (calls : list (K * res V)) (schedule : list nat) :
  let st := cache_run schedule (cache_init calls) in
  (∀ digest,
     match entries st !! digest with
     | None => computed_by st digest = []
     | Some _ =>
         ∃ i computeFn before after,
           computed_by st digest = [i]
           ∧ calls !! i = Some (digest, computeFn)
           ∧ schedule = before ++ i :: after
           ∧ ∀ j f, j ∈ before → calls !! j ≠ Some (digest, f)
     end)
  ∧ length (callers st) = length calls
  ∧ (∀ j digest computeFn,
       calls !! j = Some (digest, computeFn) →
       stands calls st j digest computeFn)
  ∧ (∀ j j' digest computeFn computeFn' k k' r r',
       calls !! j = Some (digest, computeFn) →
       calls !! j' = Some (digest, computeFn') →
       callers st !! j = Some (Got k r) →
       callers st !! j' = Some (Got k' r') →
       k = digest ∧ k' = digest ∧ r = r')
  ∧ ((∀ i, cache_step i st = None) →
     ∀ j digest computeFn,
       calls !! j = Some (digest, computeFn) → received calls st j digest)
  ∧ ∃ more,
      ∀ j digest computeFn,
        calls !! j = Some (digest, computeFn) →
        received calls (cache_run more st) j digest.
Proof.
  intros st.
  pose proof (cache_run_inv calls schedule _ (cache_init_inv calls)) as Hinv.
  fold st in Hinv.
  split; [|split; [|split; [|split; [|split]]]].
  - intros digest. destruct (entries st !! digest) as [[|r]|] eqn:Hd.
    + destruct (inv_InFlight _ _ Hinv digest Hd) as (i & f & Hi).
      destruct (inv_Computing _ _ Hinv i digest f Hi) as (Hcall & _ & Hby).
      destruct (cache_first_caller calls schedule digest i Hby)
        as (before & after & ? & ?).
      by exists i, f, before, after.
    + destruct (inv_Done _ _ Hinv digest r Hd) as (i & Hby & Hcall).
      destruct (cache_first_caller calls schedule digest i Hby)
        as (before & after & ? & ?).
      by exists i, r, before, after.
    + by apply (inv_absent _ _ Hinv).
  - by apply (inv_length _ _ Hinv).
  - intros j digest computeFn. by apply cache_inv_stands.
  - intros j j' digest f f' k k' r r' Hcall Hcall' Hj Hj'.
    destruct (inv_Got _ _ Hinv j k r Hj) as (Hk & f0 & Hj0).
    destruct (inv_Got _ _ Hinv j' k' r' Hj') as (Hk' & f0' & Hj0').
    rewrite Hcall in Hj0. injection Hj0 as <- _.
    rewrite Hcall' in Hj0'. injection Hj0' as <- _.
    split; [done|]. split; [done|]. congruence.
  - intros Hstuck j digest computeFn.
    apply cache_inv_received; [done|].
    destruct (cache_progress calls st Hinv) as [?|(i & st' & Hstep)]; [done|].
    by rewrite Hstuck in Hstep.
  - destruct (cache_completes calls st Hinv) as [more Hmore].
    exists more. intros j digest computeFn.
    apply cache_inv_received; [|done]. by apply cache_run_inv.
Qed.

(** Three callers for one digest, the second scheduled first: it
    computes, the others wait and get its result. *)
Example GetOrCompute_three_callers :
  let calls := [("sha", Ok 1); ("sha", Ok 2); ("sha", Ok 3)] in
  let st := cache_run [1; 0; 2; 0; 1; 0; 2]%nat (cache_init calls) in
  callers st = [Got "sha" (Ok 2); Got "sha" (Ok 2); Got "sha" (Ok 2)]
  ∧ computed_by st "sha" = [1%nat].
Proof. split; reflexivity. Qed.

(** Callers for two digests: each returns with the result computed for
    its own digest, by the first caller scheduled for it. *)
Example GetOrCompute_two_digests :
  let calls := [("a", Ok 1); ("b", Err (Errorf "boom" [])); ("a", Ok 3);
                ("b", Ok 4)] in
  let st := cache_run [2; 1; 0; 3; 2; 1; 3; 0]%nat (cache_init calls) in
  callers st = [Got "a" (Ok 3); Got "b" (Err (Errorf "boom" []));
                Got "a" (Ok 3); Got "b" (Err (Errorf "boom" []))]
  ∧ computed_by st "a" = [2%nat] ∧ computed_by st "b" = [1%nat].
Proof. repeat split; reflexivity. Qed.

(** * Further properties *)

(** ** What an extended ID depends on *)

Section Identity.
Context `{Values}.

(** The (name, literal) pairs that the arguments of an ID stand for. *)
Lemma arg_of_literals (m : gmap string Typed) :
  (λ a, (arg_Name a, arg_Value a)) <$> (arg_of <$> map_to_list m)
  = map_to_list (ToLiteral <$> m).
Proof.
  rewrite map_to_list_fmap, <-list_fmap_compose.
  apply list_fmap_ext. by intros _ [??] _.
Qed.

Lemma literals_arg_of (m : gmap string Typed) :
  (λ p, mk_Argument p.1 p.2) <$> map_to_list (ToLiteral <$> m)
  = arg_of <$> map_to_list m.
Proof.
  rewrite map_to_list_fmap, <-list_fmap_compose.
  apply list_fmap_ext. by intros _ [??] _.
Qed.

Lemma idArgs_of_literals (m1 m2 : gmap string Typed) :
  sort_Slice less_Name (arg_of <$> map_to_list m1)
  = sort_Slice less_Name (arg_of <$> map_to_list m2)
  ↔ ToLiteral <$> m1 = ToLiteral <$> m2.
Proof.
  split.
  - intros Heq. apply map_to_list_inj. rewrite <-!arg_of_literals.
    apply fmap_Permutation.
    by rewrite <-(sort_Slice_perm less_Name (arg_of <$> map_to_list m1)),
      Heq, sort_Slice_perm.
  - intros Heq. apply (sort_Slice_order less_Name arg_Name); [done| |].
    + rewrite arg_Name_arg_of. apply NoDup_fst_map_to_list.
    + by rewrite <-!literals_arg_of, Heq.
Qed.
End Identity.

(** X1. Two extended IDs are equal exactly when the chains of the
    parents are, the fields selected have the same name, the arguments
    have the same literals under the same names, and the field
    definitions have the same type and agree on the [tainted] and on the
    [meta] directive.  The trailing index of the selector and the type
    of the parent ID take no part. *)
Theorem appendToID_identity `{Values} (sel1 sel2 : Selector Typed)
    (id1 id2 : ID) (field1 field2 : ast_FieldDefinition) :
  appendToID sel1 id1 field1 = appendToID sel2 id2 field2 ↔
  Constructor id1 = Constructor id2
  ∧ Field sel1 = Field sel2
  ∧ ToLiteral <$> Args sel1 = ToLiteral <$> Args sel2
  ∧ fd_Type field1 = fd_Type field2
  ∧ bool_decide (Directives_ForName (fd_Directives field1) "tainted" ≠ None)
    = bool_decide (Directives_ForName (fd_Directives field2) "tainted" ≠ None)
  ∧ bool_decide (Directives_ForName (fd_Directives field1) "meta" ≠ None)
    = bool_decide (Directives_ForName (fd_Directives field2) "meta" ≠ None).
Proof.
  unfold appendToID. rewrite !appendToID_range_eq. split.
  - intros [= Htype [Hchain Hsel]%app_inj_tail].
    injection Hsel as Hfield Hargs Htainted Hmeta.
    by apply idArgs_of_literals in Hargs.
  - intros (-> & -> & Hargs%idArgs_of_literals & -> & -> & ->).
    by rewrite Hargs.
Qed.

(** ** The order of the siblings *)

Section SiblingOrder.
Context `{Values}.

Lemma pool_done_names resolve sels :
  pool_errs (Resolve_task resolve <$> sels) = [] →
  (pool_done (Resolve_task resolve <$> sels)).*1 = Name <$> sels.
Proof.
  induction sels as [|sel sels IH]; csimpl; [done|].
  destruct (resolve sel) as [v|e] eqn:Hsel.
  - rewrite (Resolve_task_Ok _ _ _ Hsel). intros Herrs. csimpl. f_equal.
    by apply IH.
  - by rewrite (Resolve_task_Err _ _ _ Hsel).
Qed.

Lemma Store_all_Permutation (stored stored' : list (string * any)) :
  NoDup stored.*1 → stored ≡ₚ stored' → Store_all stored = Store_all stored'.
Proof.
  intros Hnd Hp. assert (NoDup stored'.*1) as Hnd' by (by rewrite <-Hp).
  apply map_eq. intros k. apply option_eq. intros v. split.
  - intros Hk%Store_all_lookup. apply Store_all_NoDup; [done|].
    by rewrite <-Hp.
  - intros Hk%Store_all_lookup. apply Store_all_NoDup; [done|].
    by rewrite Hp.
Qed.

Lemma joined_in_turn_snoc first errs err :
  joined_in_turn first (errs ++ [err])
  = Join [joined_in_turn first errs; err].
Proof. unfold joined_in_turn. by rewrite foldl_app. Qed.

(** The join tells which errors were joined, and in which order. *)
Lemma joined_in_turn_inj first first' errs errs' :
  joined_in_turn first errs = joined_in_turn first' errs' →
  first = first' ∧ errs = errs'.
Proof.
  revert errs'. induction errs as [|err errs IH] using rev_ind;
    intros errs'; destruct errs' as [|err' errs' _] using rev_ind;
    rewrite ?joined_in_turn_snoc; unfold joined_in_turn at 1 2; simpl.
  - by intros [= ->].
  - done.
  - done.
  - intros [= Hjoined ->]. by destruct (IH _ Hjoined) as [-> ->].
Qed.
End SiblingOrder.

(** X2. The siblings have no ordering dependency.  For a group whose
    selections have pairwise distinct names, [Resolve] returns the same
    map for every arrangement of the group; and for any group, if one
    arrangement fails, every arrangement fails, with the errors of the
    same siblings: the errors joined in turn are the same up to their
    order, which is the order in which the siblings finished. *)
Theorem Resolve_any_order `{Values} (s : Server) (self : Object)
    (sels sels' : list Selection) :
  sels ≡ₚ sels' →
  (NoDup (Name <$> sels) →
   ∀ m, Resolve s self sels = Ok m → Resolve s self sels' = Ok m)
  ∧ (∀ first errs,
       Resolve s self sels = Err (joined_in_turn first errs) →
       ∃ first' errs',
         Resolve s self sels' = Err (joined_in_turn first' errs')
         ∧ first :: errs ≡ₚ first' :: errs').
Proof.
  intros Hp.
  assert (Resolve_task (resolvePath s self) <$> sels
          ≡ₚ Resolve_task (resolvePath s self) <$> sels') as Htasks
    by (by apply fmap_Permutation).
  pose proof (finished_Permutation
                (Resolve_task (resolvePath s self) <$> sels)) as Hfin.
  pose proof (finished_Permutation
                (Resolve_task (resolvePath s self) <$> sels')) as Hfin'.
  split.
  - intros Hnd m [Herrs ->]%Resolve_tasks_Ok. apply Resolve_tasks_Ok.
    split.
    + symmetry. apply Permutation_nil_l. rewrite <-Herrs.
      by apply pool_errs_Permutation.
    + apply Store_all_Permutation.
      * rewrite (pool_done_Permutation _ _ Hfin).
        by rewrite pool_done_names.
      * apply pool_done_Permutation. by rewrite Hfin, Hfin'.
  - intros first errs (first0 & errs0 & [<- <-]%joined_in_turn_inj & Herrs)
      %Resolve_tasks_Err.
    assert (pool_errs (finished (Resolve_task (resolvePath s self) <$> sels'))
            ≡ₚ first :: errs) as Herrs'.
    { rewrite <-Herrs. apply pool_errs_Permutation.
      by rewrite Hfin, Hfin'. }
    destruct (pool_errs (finished (_ <$> sels'))) as [|first' errs']
      eqn:Hsels'; [by apply Permutation_nil_l in Herrs'|].
    exists first', errs'. split; [|done].
    apply Resolve_tasks_Err. by exists first', errs'.
Qed.

Lemma Resolve_any_order_witness :
  let boom := Wrapf "%s: %w" [of_string "boom"] (Errorf "boom" []) in
  let nowhere := Wrapf "%s: %w" [of_string "nowhere"]
                   (Errorf "unknown field: %q" [of_string "nowhere"]) in
  Resolve Demo.srv (root Demo.srv)
    [Demo.pick "" "first" 0 []; Demo.pick "" "empty" 0 []]
  = Ok {[ "first" := any_Typed (Demo.Item 1);
          "empty" := any_Typed (Demo.List []) ]}
  ∧ ∃ first' errs',
      Resolve Demo.srv (root Demo.srv)
        [Demo.pick "" "nowhere" 0 []; Demo.pick "" "first" 0 [];
         Demo.pick "" "boom" 0 []]
      = Err (joined_in_turn first' errs')
      ∧ [boom; nowhere] ≡ₚ first' :: errs'.
Proof.
  intros boom nowhere. split.
  - refine (proj1 (Resolve_any_order Demo.srv (root Demo.srv)
                     [Demo.pick "" "empty" 0 []; Demo.pick "" "first" 0 []]
                     [Demo.pick "" "first" 0 []; Demo.pick "" "empty" 0 []]
                     _) _ _ _).
    + apply perm_swap.
    + by apply (bool_decide_unpack _).
    + reflexivity.
  - refine (proj2 (Resolve_any_order Demo.srv (root Demo.srv)
                     [Demo.pick "" "boom" 0 []; Demo.pick "" "first" 0 [];
                      Demo.pick "" "nowhere" 0 []]
                     [Demo.pick "" "nowhere" 0 []; Demo.pick "" "first" 0 [];
                      Demo.pick "" "boom" 0 []]
                     _) boom [nowhere] _).
    + etrans; [apply perm_swap|]. etrans; [apply perm_skip, perm_swap|].
      apply perm_swap.
    + reflexivity.
Defined.

(** The group of [Resolve_two_of_three_fail] in another arrangement,
    finishing in the order of that arrangement: the same two errors,
    joined in the other order. *)
Example Resolve_two_of_three_fail_rearranged :
  Resolve Demo.srv (root Demo.srv)
    [Demo.pick "" "nowhere" 0 []; Demo.pick "" "first" 0 [];
     Demo.pick "" "boom" 0 []]
  = Err (Join [Join [Wrapf "%s: %w" [of_string "nowhere"]
                       (Errorf "unknown field: %q" [of_string "nowhere"])];
               Wrapf "%s: %w" [of_string "boom"] (Errorf "boom" [])]).
Proof. reflexivity. Qed.

(** ** The lookup of a field *)

(** X3. The three lookups of a field agree.  When [field] fails for a
    type name and a field name, with "unknown type" or "unknown field",
    [resolvePath] on an object of that type fails with the same error
    for every selection of that field, before anything is selected, and
    [constructorToSelection] fails with it for every chain that starts
    with that field. *)
Theorem field_errors_are_shared `{Values} (s : Server) (typeName : string)
    (fieldName : string) (e : error) :
  field s typeName fieldName = Err e →
  (e = Errorf "unknown type: %q" [of_string typeName]
   ∨ e = Errorf "unknown field: %q" [of_string fieldName])
  ∧ (∀ self sel,
       ast_Type_Name (Object_Type self) = typeName →
       Field (Selector_ sel) = fieldName →
       resolvePath s self sel = Err e)
  ∧ (∀ selfType first rest,
       ast_Type_Name selfType = typeName →
       is_Field first = fieldName →
       constructorToSelection s selfType first rest = Returned (Err e)).
Proof.
  unfold field. intros Hfield. split; [|split].
  - destruct (classes s !! typeName) as [class|]; [|left; congruence].
    destruct (FieldDefinition class fieldName); [done|right; congruence].
  - intros self sel <- <-. rewrite resolvePath_unfold.
    unfold resolvePath_body.
    destruct (classes s !! _) as [class|]; [|congruence].
    destruct (FieldDefinition class _); [done|congruence].
  - intros selfType first rest <- <-.
    destruct rest; simpl;
      (destruct (classes s !! _) as [class|]; [|congruence]);
      (destruct (FieldDefinition class _); [done|congruence]).
Qed.

Lemma field_errors_are_shared_witness :
  resolvePath Demo.srv (root Demo.srv) (Demo.pick "" "nowhere" 0 [])
  = Err (Errorf "unknown field: %q" [of_string "nowhere"]).
Proof.
  refine (proj1 (proj2 (field_errors_are_shared Demo.srv "Query" "nowhere"
                          _ _)) (root Demo.srv) (Demo.pick "" "nowhere" 0 [])
            _ _); reflexivity.
Defined.

(** ** The literal codec *)

Section Literals.
Context `{Values}.

Lemma outcome_mapM_Ok {A B} (f : A → outcome B) (l : list A) (k : list B) :
  mapM f l = Returned (Ok k) ↔ Forall2 (λ x y, f x = Returned (Ok y)) l k.
Proof.
  revert k. induction l as [|x l IH]; intros k; simpl.
  - unfold mret, outcome_ret. split; [intros [= <-]; constructor|].
    by inversion 1.
  - destruct (f x) as [[y|e]|p] eqn:Hx; simpl.
    + destruct (mapM f l) as [[k'|e]|p] eqn:Hl; simpl;
        unfold mret, outcome_ret.
      * split.
        -- intros [= <-]. constructor; [done|]. by apply IH.
        -- inversion 1 as [|???? Hy Hk]; subst.
           apply IH in Hk. congruence.
      * split; [done|]. inversion 1 as [|???? Hy Hk]; subst.
        by apply IH in Hk.
      * split; [done|]. inversion 1 as [|???? Hy Hk]; subst.
        by apply IH in Hk.
    + split; [done|]. inversion 1; congruence.
    + split; [done|]. inversion 1; congruence.
Qed.

(** The first element that does not decode decides the outcome. *)
Lemma outcome_mapM_first_failure {A B} (f : A → outcome B)
    (decoded l : list A) (x : A) (k : list B) :
  Forall2 (λ x y, f x = Returned (Ok y)) decoded k →
  (∀ y, f x ≠ Returned (Ok y)) →
  mapM f (decoded ++ x :: l)
  = match f x with
    | Returned (Ok y) => Returned (Err (Errorf "" []))
    | Returned (Err e) => Returned (Err e)
    | Panicked p => Panicked p
    end.
Proof.
  intros Hdec Hx. induction Hdec as [|x' y' decoded k Hy _ IH]; simpl.
  - destruct (f x) as [[y|e]|p]; [by destruct (Hx y)|done|done].
  - rewrite Hy. simpl. rewrite IH. by destruct (f x) as [[y|e]|p].
Qed.

Lemma list_depth_elem (vals : list Literal) (val : Literal) :
  val ∈ vals → (list_depth val < list_depth (Literal_List vals))%nat.
Proof.
  simpl. induction 1 as [val vals|val' val vals _ IH]; lia.
Qed.

Lemma undecodable_List (vals : list Literal) :
  undecodable (Literal_List vals) ↔ Exists undecodable vals.
Proof.
  simpl. induction vals as [|val vals IH]; [by rewrite Exists_nil|].
  by rewrite Exists_cons, IH.
Qed.

Lemma has_enum_List (vals : list Literal) :
  has_enum (Literal_List vals) ↔ Exists has_enum vals.
Proof.
  simpl. induction vals as [|val vals IH]; [by rewrite Exists_nil|].
  by rewrite Exists_cons, IH.
Qed.

Lemma fromLiteral_List s vals argDef :
  fromLiteral s (Literal_List vals) argDef
  = Array <$> mapM (λ val, fromLiteral s val argDef) vals.
Proof. done. Qed.
End Literals.

(** X4. A list literal is decoded element by element: [fromLiteral]
    returns a value exactly when every element decodes, and the value is
    then the [Array] of the decoded elements, in the order and of the
    length of the literal.  When the elements before one decode and that
    one does not, the list fails the way that element does, whatever
    comes after it. *)
Theorem fromLiteral_list_elementwise `{Values} (s : Server)
    (vals : list Literal) (argDef : ast_ArgumentDefinition) :
  (∀ typed,
     fromLiteral s (Literal_List vals) argDef = Returned (Ok typed) ↔
     ∃ elems,
       typed = Array elems
       ∧ Forall2 (λ val elem, fromLiteral s val argDef = Returned (Ok elem))
           vals elems)
  ∧ (∀ decoded val later elems,
       vals = decoded ++ val :: later →
       Forall2 (λ val elem, fromLiteral s val argDef = Returned (Ok elem))
         decoded elems →
       (∀ e, fromLiteral s val argDef = Returned (Err e) →
          fromLiteral s (Literal_List vals) argDef = Returned (Err e))
       ∧ (∀ p, fromLiteral s val argDef = Panicked p →
            fromLiteral s (Literal_List vals) argDef = Panicked p)).
Proof.
  split.
  - intros typed. rewrite fromLiteral_List.
    destruct (mapM _ vals) as [[elems|e]|p] eqn:Hm; simpl.
    + apply outcome_mapM_Ok in Hm. split.
      * intros [= <-]. eauto.
      * intros (elems' & -> & Hall). do 2 f_equal.
        apply outcome_mapM_Ok in Hm, Hall. congruence.
    + split; [done|]. intros (elems & _ & Hall%outcome_mapM_Ok). congruence.
    + split; [done|]. intros (elems & _ & Hall%outcome_mapM_Ok). congruence.
  - intros decoded val later elems -> Hdec. rewrite fromLiteral_List.
    split.
    + intros e He.
      rewrite (outcome_mapM_first_failure _ decoded later val elems Hdec)
        by (intros ?; congruence).
      by rewrite He.
    + intros p Hp.
      rewrite (outcome_mapM_first_failure _ decoded later val elems Hdec)
        by (intros ?; congruence).
      by rewrite Hp.
Qed.

Lemma fromLiteral_list_elementwise_witness :
  fromLiteral Demo.srv
    (Literal_List [Literal_Int 1; Literal_Object []; Literal_unset])
    {| ad_Name := "name"; ad_Type := Demo.named "String" |}
  = Returned (Err (Errorf "TODO: objects" [])).
Proof.
  apply (proj2 (fromLiteral_list_elementwise Demo.srv _ _)
           [Literal_Int 1] (Literal_Object []) [Literal_unset] [Demo.Int 1]).
  - reflexivity.
  - by repeat constructor.
  - reflexivity.
Defined.

Section LiteralInduction.
Context `{Values}.

Lemma Literal_depth_ind (P : Literal → Prop) :
  (∀ lit, (∀ val, (list_depth val < list_depth lit)%nat → P val) → P lit) →
  ∀ lit, P lit.
Proof.
  intros HP.
  cut (∀ (n : nat) lit, (list_depth lit < n)%nat → P lit).
  { intros Hn lit. apply (Hn (S (list_depth lit))). lia. }
  induction n as [|n IH]; intros lit Hlt; [lia|].
  apply HP. intros val Hval. apply IH. lia.
Qed.

Lemma outcome_mapM_ext {A B} (f g : A → outcome B) (l : list A) :
  (∀ x, x ∈ l → f x = g x) → mapM f l = mapM g l.
Proof.
  induction l as [|x l IH]; intros Hfg; [done|]. simpl.
  rewrite (Hfg x) by left. rewrite IH; [done|].
  intros y Hy. apply Hfg. by right.
Qed.
End LiteralInduction.

(** X5. A literal that holds an object literal, or a literal of which no
    member is set, at any depth of its lists is never decoded:
    [fromLiteral] returns an error or panics, whatever the server and
    the argument definition. *)
Theorem fromLiteral_undecodable `{Values} (s : Server) (lit : Literal)
    (argDef : ast_ArgumentDefinition) :
  undecodable lit → ∀ typed, fromLiteral s lit argDef ≠ Returned (Ok typed).
Proof.
  induction lit as [lit IH] using Literal_depth_ind.
  destruct lit as [id|n|f|str|b|vals|fields|sym|]; try done.
  intros Hvals%undecodable_List typed.
  rewrite fromLiteral_List.
  destruct (mapM _ vals) as [[elems|e]|p] eqn:Hm; [|done..].
  apply outcome_mapM_Ok in Hm.
  apply Exists_exists in Hvals as (val & Hin & Hval).
  apply list_elem_of_lookup in Hin as [i Hi].
  destruct (Forall2_lookup_l _ _ _ _ _ Hm Hi) as (elem & _ & Helem).
  destruct (IH val (list_depth_elem vals val (list_elem_of_lookup_2 _ _ _ Hi))
              Hval elem Helem).
Qed.

Lemma fromLiteral_undecodable_witness :
  undecodable (Literal_List [Literal_Int 1; Literal_List [Literal_Object []]])
  ∧ fromLiteral Demo.srv
      (Literal_List [Literal_Int 1; Literal_List [Literal_Object []]])
      {| ad_Name := "name"; ad_Type := Demo.named "String" |}
    ≠ Returned (Ok (Demo.List [Demo.Int 1; Demo.List []])).
Proof.
  assert (undecodable
            (Literal_List [Literal_Int 1; Literal_List [Literal_Object []]]))
    as Hlit by (simpl; tauto).
  split; [exact Hlit|].
  exact (fromLiteral_undecodable (H:=Demo.values) Demo.srv _ _ Hlit _).
Defined.

(** X6. [fromLiteral] reads of the argument definition only the name of
    its type, and only to decode an enum symbol: for a literal without
    enum symbols, and for two definitions whose types have one name,
    the two calls have the same outcome. *)
Theorem fromLiteral_reads_argDef_for_enums `{Values} (s : Server)
    (lit : Literal) (argDef argDef' : ast_ArgumentDefinition) :
  (has_enum lit →
   ast_Type_Name (ad_Type argDef) = ast_Type_Name (ad_Type argDef')) →
  fromLiteral s lit argDef = fromLiteral s lit argDef'.
Proof.
  induction lit as [lit IH] using Literal_depth_ind.
  destruct lit as [id|n|f|str|b|vals|fields|sym|]; try done.
  - intros Henum. rewrite !fromLiteral_List. f_equal.
    apply outcome_mapM_ext. intros val Hval. apply IH.
    + by apply list_depth_elem.
    + intros Hval'. apply Henum, has_enum_List, Exists_exists.
      by exists val.
  - intros Henum. simpl. by rewrite Henum.
Qed.

Lemma fromLiteral_reads_argDef_for_enums_witness :
  fromLiteral Demo.srv (Literal_List [Literal_Int 1; Literal_String_ "a"])
    {| ad_Name := "name"; ad_Type := Demo.named "String" |}
  = fromLiteral Demo.srv (Literal_List [Literal_Int 1; Literal_String_ "a"])
      {| ad_Name := "count"; ad_Type := Demo.named "Int" |}.
Proof.
  apply fromLiteral_reads_argDef_for_enums. simpl. tauto.
Defined.

(** ** Replaying an ID *)

Section Replay.
Context `{Values}.

Lemma decode_Args_declared s fieldDef args acc sel_Args :
  decode_Args s fieldDef args acc = Returned (Ok sel_Args) →
  Forall (λ arg, Arguments_ForName (fd_Arguments fieldDef) (arg_Name arg)
                 ≠ None) args.
Proof.
  revert acc. induction args as [|arg args IH]; intros acc; simpl; [done|].
  destruct (Arguments_ForName _ _) as [argDef|] eqn:Hdef; [|done].
  intros (val & _ & Hrest)%outcome_bind_Ok.
  constructor; [congruence|by eapply IH].
Qed.

Lemma replays_head sel first rest :
  replays sel first rest →
  Alias sel = "" ∧ Field (Selector_ sel) = is_Field first
  ∧ Nth_ (Selector_ sel) = is_Nth first ∧ Name sel = is_Field first.
Proof.
  intros Hsel.
  assert (Alias sel = "" ∧ Field (Selector_ sel) = is_Field first
          ∧ Nth_ (Selector_ sel) = is_Nth first) as (Halias & Hfield & Hnth).
  { by destruct rest; destruct Hsel as (? & ? & ? & _). }
  repeat split; try done.
  unfold Name. rewrite Halias. by destruct (decide ("" ≠ "")).
Qed.

(** [Resolve] of one selection is [resolvePath] of it, stored under its
    name; its error is wrapped with the name and joined. *)
Lemma Resolve_one s self sel :
  Resolve s self [sel]
  = match resolvePath s self sel with
    | Ok v => Ok {[ Name sel := v ]}
    | Err e => Err (Join [Wrapf "%s: %w" [of_string (Name sel)] e])
    end.
Proof.
  unfold Resolve, Resolve_tasks, pool_Wait. csimpl.
  rewrite (proj1 (Permutation_singleton_r _ _)
             (finished_Permutation [Resolve_task (resolvePath s self) sel])).
  destruct (resolvePath s self sel) as [v|e] eqn:Hsel.
  - by rewrite (Resolve_task_Ok _ _ _ Hsel).
  - by rewrite (Resolve_task_Err _ _ _ Hsel).
Qed.

(** A map is the result of [resolvePath] only for a selection without
    trailing index, with sub-selections, of a field of a named type:
    the map is what [Resolve] returns for the sub-selections. *)
Lemma resolvePath_map s self sel m :
  resolvePath s self sel = Ok (any_map m) →
  Nth_ (Selector_ sel) = 0
  ∧ ∃ class fieldDef node,
      classes s !! ast_Type_Name (Object_Type self) = Some class
      ∧ FieldDefinition class (Field (Selector_ sel)) = Some fieldDef
      ∧ NamedType (fd_Type fieldDef) ≠ ""
      ∧ Resolve s node (Subselections sel) = Ok m.
Proof.
  rewrite resolvePath_unfold. unfold resolvePath_body.
  destruct (classes s !! _) as [class|] eqn:Hclass; [|done].
  destruct (FieldDefinition class _) as [fieldDef|] eqn:Hfield; [|done].
  destruct (Select self _) as [val0|]; [|done]. simpl.
  set (val := match as_Nullable val0 with
              | Some u => u | None => Some val0 end).
  destruct val as [val|].
  - destruct (Subselections sel) as [|sub subs].
    + simpl. destruct (decide (Nth_ (Selector_ sel) ≠ 0)) as [Hnth|Hnth].
      * simpl. destruct (as_Enumerable val) as [enum|]; [|done].
        by destruct (Nth enum _).
      * done.
    + destruct (decide (NamedType (fd_Type fieldDef) ≠ "")) as [Hnamed|Hnamed].
      * destruct (toSelectable _ _ val) as [node|]; [|done]. simpl.
        destruct (Resolve s node (sub :: subs)) as [m'|] eqn:Hm; [|done].
        simpl. destruct (decide (Nth_ (Selector_ sel) ≠ 0)) as [Hnth|Hnth];
          [done|].
        intros [= <-]. split; [by destruct (decide (Nth_ (Selector_ sel) = 0))|].
        by exists class, fieldDef, node.
      * destruct (decide (Elem (fd_Type fieldDef) ≠ None)); [|done].
        destruct (as_Enumerable val) as [enum|]; [|done].
        destruct (for_nth _ _ _ _) as [all|]; [|done]. simpl.
        by destruct (decide (Nth_ (Selector_ sel) ≠ 0)).
  - simpl. by destruct (decide (Nth_ (Selector_ sel) ≠ 0)).
Qed.

Lemma Load_descend_not_map x sel chain :
  (∀ m, x ≠ any_map m) →
  Load_descend x (sel :: chain)
  = Err (Errorf "unexpected result type %T" [of_string (any_T x)]).
Proof. intros Hx. destruct x as [|val|m|l]; try done. by destruct (Hx m). Qed.

(** [Load] after the replayed selection is built: the value of the
    selection is followed down the rest of the chain. *)
Lemma Load_replayed s id first rest sel :
  Constructor id = first :: rest →
  constructorToSelection s (Object_Type (root s)) first rest
    = Returned (Ok sel) →
  Load s id
  = Returned
      match resolvePath s (root s) sel with
      | Ok v =>
          res ← Load_descend v rest;
          match res with
          | any_Typed val => toSelectable s id val
          | _ => Err (Errorf "unexpected result type %T"
                        [of_string (any_T res)])
          end
      | Err e => Err (Join [Wrapf "%s: %w" [of_string (is_Field first)] e])
      end.
Proof.
  intros Hchain Hsel. unfold Load. rewrite Hchain, Hsel. simpl. f_equal.
  destruct (replays_head _ _ _ (constructorToSelection_replays _ _ _ _ _ Hsel))
    as (_ & _ & _ & Hname).
  rewrite Resolve_one, Hname.
  destruct (resolvePath s (root s) sel) as [v|e]; [|done].
  simpl. by rewrite lookup_singleton_eq.
Qed.

(** A chain that is followed down to a typed value carries a trailing
    index on its last selector only. *)
Lemma Load_descend_index s rest :
  ∀ self sel first v val,
    replays sel first rest →
    resolvePath s self sel = Ok v →
    Load_descend v rest = Ok (any_Typed val) →
    ∀ (i : nat) x, (first :: rest) !! i = Some x →
      (i < length rest)%nat → is_Nth x = 0.
Proof.
  induction rest as [|next rest IH];
    intros self sel first v val Hsel Hv Hdesc i x Hi Hlt; [simpl in Hlt; lia|].
  destruct v as [| |m|]; try done.
  destruct Hsel as (_ & _ & Hnth & subsel & Hsubs & Hsub).
  apply resolvePath_map in Hv as (Hzero & _ & _ & node & _ & _ & _ & Hm).
  destruct i as [|i]; [simpl in Hi; congruence|].
  rewrite Hsubs, Resolve_one in Hm.
  destruct (resolvePath s node subsel) as [v'|] eqn:Hv'; [|done].
  injection Hm as <-.
  destruct (replays_head _ _ _ Hsub) as (_ & _ & _ & Hname).
  simpl in Hdesc. rewrite Hname, lookup_singleton_eq in Hdesc. simpl in Hdesc.
  apply (IH node subsel next v' val Hsub Hv' Hdesc i x Hi).
  simpl in Hlt. lia.
Qed.
End Replay.

(** X7. [constructorToSelection] builds a selection only for a chain
    that is declared: every selector names a field of the class of the
    type that the chain has reached, the root's type first and then the
    declared type of the field before, and gives that field only
    arguments of declared names. *)
Theorem constructorToSelection_declared `{Values} (s : Server)
    (selfType : ast_Type) (first : idSelector) (rest : list idSelector)
    (sel : Selection) :
  constructorToSelection s selfType first rest = Returned (Ok sel) →
  chain_declared s selfType first rest.
Proof.
  revert selfType first sel.
  induction rest as [|rest0 rest IH]; intros selfType first sel; simpl;
    destruct (classes s !! ast_Type_Name selfType) as [class|]; try done;
    destruct (FieldDefinition class (is_Field first)) as [fieldDef|] eqn:Hfd;
    try done;
    intros (sel_Args & Hargs%decode_Args_declared & Hrest)%outcome_bind_Ok;
    exists class, fieldDef; repeat split; try done.
  apply outcome_bind_Ok in Hrest as (subsels & Hsub & _).
  apply outcome_bind_Ok in Hsub as (subsel & Hsub & _).
  by eapply IH.
Qed.

Lemma constructorToSelection_declared_witness :
  chain_declared Demo.srv (Demo.named "Query")
    (mk_idSelector "first" [] false false 0)
    [mk_idSelector "n" [] false false 0].
Proof.
  eapply constructorToSelection_declared. reflexivity.
Defined.

(** X8. [Load] of an ID with a chain of one selector is [resolvePath]
    of the replayed selection against the root: a typed value is handed
    to [toSelectable] with the ID that was given, so the map that
    [Resolve] builds and the walk down the chain cancel; a null result
    is an "unexpected result type" error; an error of [resolvePath]
    comes back wrapped with the name of the field and joined. *)
Theorem Load_one_selector `{Values} (s : Server) (id : ID)
    (first : idSelector) (sel : Selection) :
  Constructor id = [first] →
  constructorToSelection s (Object_Type (root s)) first []
    = Returned (Ok sel) →
  Load s id
  = Returned
      match resolvePath s (root s) sel with
      | Ok (any_Typed val) => toSelectable s id val
      | Ok res =>
          Err (Errorf "unexpected result type %T" [of_string (any_T res)])
      | Err e => Err (Join [Wrapf "%s: %w" [of_string (is_Field first)] e])
      end.
Proof.
  intros Hchain Hsel. rewrite (Load_replayed s id first [] sel) by done.
  by destruct (resolvePath s (root s) sel) as [[| | |]|].
Qed.

Lemma Load_one_selector_witness :
  Load Demo.srv
    (mk_ID (Some (Demo.named "Item")) [mk_idSelector "boom" [] false false 0])
  = Returned
      (Err (Join [Wrapf "%s: %w" [of_string "boom"] (Errorf "boom" [])])).
Proof.
  apply (Load_one_selector Demo.srv
           (mk_ID (Some (Demo.named "Item"))
              [mk_idSelector "boom" [] false false 0])
           (mk_idSelector "boom" [] false false 0)
           (Demo.pick "" "boom" 0 [])); reflexivity.
Defined.

(** X9. [Load] never returns an object for an ID whose chain goes on
    after a selector of a field of list type on the root: the value of
    that selector is null, a slice, or an error, and the walk down the
    chain needs a map. *)
Theorem Load_through_list_fails `{Values} (s : Server) (id : ID)
    (first next : idSelector) (rest : list idSelector)
    (class : ObjectType) (fieldDef : ast_FieldDefinition) :
  Constructor id = first :: next :: rest →
  classes s !! ast_Type_Name (Object_Type (root s)) = Some class →
  FieldDefinition class (is_Field first) = Some fieldDef →
  list_typed fieldDef →
  ∀ obj, Load s id ≠ Returned (Ok obj).
Proof.
  intros Hchain Hclass Hfield [Hnamed _] obj Hload.
  destruct (constructorToSelection s (Object_Type (root s)) first
              (next :: rest)) as [[sel|]|] eqn:Hsel;
    [|unfold Load in Hload; by rewrite Hchain, Hsel in Hload..].
  rewrite (Load_replayed s id first (next :: rest) sel) in Hload by done.
  destruct (replays_head _ _ _ (constructorToSelection_replays _ _ _ _ _ Hsel))
    as (_ & Hname & _).
  destruct (resolvePath s (root s) sel) as [v|] eqn:Hv; [|done].
  destruct v as [| |m|]; try done.
  apply resolvePath_map in Hv
    as (_ & class' & fieldDef' & _ & Hclass' & Hfield' & Hnamed' & _).
  rewrite Hname in Hfield'. congruence.
Qed.

Lemma Load_through_list_fails_witness :
  list_typed (Demo.field "items" [] (Demo.list_of (Demo.named "Item")))
  ∧ Load Demo.srv
      (mk_ID (Some (Demo.named "Int"))
         [mk_idSelector "items" [] false false 0;
          mk_idSelector "n" [] false false 0])
    ≠ Returned (Ok (root Demo.srv)).
Proof.
  split; [by split|].
  apply (Load_through_list_fails Demo.srv _
           (mk_idSelector "items" [] false false 0)
           (mk_idSelector "n" [] false false 0) []
           (Demo.class Demo.Query_fields)
           (Demo.field "items" [] (Demo.list_of (Demo.named "Item"))));
    first [reflexivity | by split].
Defined.

(** X10. A trailing index is honoured on the last selector of a chain
    and nowhere else.  [Load] returns an object only for an ID none of
    whose selectors but the last carries an index: a selector with an
    index that is followed by another makes [Load] fail.  For a chain
    of one selector, without arguments and with an index, on a field of
    the root whose value is present and Enumerable, [Load] returns what
    [toSelectable] makes, with the ID that was given, of the element
    that the value has at that index, and the error of the value,
    wrapped with the name of the field and joined, when it has none. *)
Theorem Load_index_on_last_selector_only `{Values} (s : Server) (id : ID) :
  (∀ obj, Load s id = Returned (Ok obj) →
     ∀ (i : nat) x, Constructor id !! i = Some x →
       (S i < length (Constructor id))%nat → is_Nth x = 0)
  ∧ (∀ first class fieldDef val0 val enum,
       Constructor id = [first] →
       is_Args first = [] →
       is_Nth first ≠ 0 →
       classes s !! ast_Type_Name (Object_Type (root s)) = Some class →
       FieldDefinition class (is_Field first) = Some fieldDef →
       Select (root s)
         {| Field := is_Field first; Args := ∅; Nth_ := is_Nth first |}
         = Ok val0 →
       unwrapped val0 = Some val →
       as_Enumerable val = Some enum →
       Load s id
       = Returned
           match Nth enum (is_Nth first) with
           | Ok elem => toSelectable s id elem
           | Err e =>
               Err (Join [Wrapf "%s: %w" [of_string (is_Field first)] e])
           end).
Proof.
  split.
  - intros obj Hload i x Hi Hlt.
    destruct (Constructor id) as [|first rest] eqn:Hchain; [done|].
    destruct (constructorToSelection s (Object_Type (root s)) first rest)
      as [[sel|]|] eqn:Hsel;
      [|unfold Load in Hload; by rewrite Hchain, Hsel in Hload..].
    rewrite (Load_replayed s id first rest sel) in Hload by done.
    destruct (resolvePath s (root s) sel) as [v|] eqn:Hv; [|done].
    destruct (Load_descend v rest) as [[|val| |]|] eqn:Hdesc; try done.
    apply (Load_descend_index s rest (root s) sel first v val
             (constructorToSelection_replays _ _ _ _ _ Hsel) Hv Hdesc i x Hi).
    simpl in Hlt. lia.
  - intros first class fieldDef val0 val enum Hchain Hargs Hnth Hclass Hfield
      Hval0 Hval Henum.
    set (sel := {| Alias := "";
                   Selector_ := {| Field := is_Field first; Args := ∅;
                                   Nth_ := is_Nth first |};
                   Subselections := [] |}).
    assert (constructorToSelection s (Object_Type (root s)) first []
            = Returned (Ok sel)) as Hsel.
    { simpl. by rewrite Hclass, Hfield, Hargs. }
    rewrite (Load_replayed s id first [] sel Hchain Hsel).
    rewrite (resolvePath_selected s (root s) sel class fieldDef val0)
      by done.
    simpl. rewrite Hval. simpl.
    destruct (decide (is_Nth first ≠ 0)) as [_|?]; [|done].
    simpl. rewrite Henum. by destruct (Nth enum (is_Nth first)).
Qed.

Lemma Load_index_on_last_selector_only_witness :
  let element := mk_ID (Some (Demo.named "Item"))
                   [mk_idSelector "items" [] false false 2] in
  let inner := mk_ID (Some (Demo.named "Item"))
                 [mk_idSelector "first" [] false false 0;
                  mk_idSelector "twice" [] false false 2] in
  Load Demo.srv element
    = Returned (Ok {| Demo.o_ID := element; Demo.o_Type := "Item";
                      Demo.o_Self := Demo.Item 1 |})
  ∧ Load Demo.srv inner
    = Returned (Ok {| Demo.o_ID := inner; Demo.o_Type := "Item";
                      Demo.o_Self := Demo.Item 1 |})
  ∧ is_Nth (mk_idSelector "first" [] false false 0) = 0.
Proof.
  intros element inner.
  assert (Load Demo.srv inner
          = Returned (Ok {| Demo.o_ID := inner; Demo.o_Type := "Item";
                            Demo.o_Self := Demo.Item 1 |})) as Hinner
    by (vm_compute; reflexivity).
  split; [|split; [exact Hinner|]].
  - refine (proj2 (Load_index_on_last_selector_only Demo.srv element)
              (mk_idSelector "items" [] false false 2)
              (Demo.class Demo.Query_fields)
              (Demo.field "items" [] (Demo.list_of (Demo.named "Item")))
              (Demo.List [Demo.Item 3; Demo.Item 1; Demo.Item 2])
              (Demo.List [Demo.Item 3; Demo.Item 1; Demo.Item 2])
              (Demo.list_Enumerable [Demo.Item 3; Demo.Item 1; Demo.Item 2])
              _ _ _ _ _ _ _ _); done.
  - refine (proj1 (Load_index_on_last_selector_only Demo.srv inner) _ Hinner
              0%nat _ _ _); [reflexivity|simpl; lia].
Defined.

(** ** Selections from the wire *)

Section Parse.
Context `{Values}.

Lemma parseASTSelections_S fuel s gqlOp astSels :
  parseASTSelections (S fuel) s gqlOp astSels
  = parse_range (parseASTSelections fuel s gqlOp) s gqlOp astSels [].
Proof. reflexivity. Qed.

(** What the loop returns from [acc] is what it returns from nothing,
    after [acc]. *)
Lemma parse_range_onto parse s gqlOp astSels acc :
  parse_range parse s gqlOp astSels acc
  = fmap (M:=outcome) (app acc) <$> parse_range parse s gqlOp astSels [].
Proof.
  revert acc. induction astSels as [|sel astSels IH]; intros acc.
  - simpl. by rewrite app_nil_r.
  - destruct sel as [alias name arguments definition selectionSet|name|];
      simpl; [| |done].
    + destruct (parse_Arguments _ _ _ _ _) as [[args|]|]; [|done..].
      destruct (parse selectionSet) as [[[subsels|]|]|]; [|done..].
      rewrite (IH (acc ++ _)), (IH [_]).
      destruct (parse_range _ _ _ astSels []) as [[[sels|]|]|]; [|done..].
      simpl. by rewrite <-app_assoc.
    + destruct (Fragments_ForName _ _) as [fragment|]; [|done].
      destruct (parse fragment) as [[[subsels|]|]|]; [|done..].
      rewrite (IH (acc ++ _)), (IH subsels).
      destruct (parse_range _ _ _ astSels []) as [[[sels|]|]|]; [|done..].
      simpl. by rewrite <-app_assoc.
Qed.

(** The loop over [a ++ b] is the loop over [a] and then, from what it
    has appended, the loop over [b]. *)
Lemma parse_range_app parse s gqlOp a b acc :
  parse_range parse s gqlOp (a ++ b) acc
  = match parse_range parse s gqlOp a acc with
    | Some (Returned (Ok sels)) => parse_range parse s gqlOp b sels
    | other => other
    end.
Proof.
  revert acc. induction a as [|sel a IH]; intros acc; [done|].
  destruct sel as [alias name arguments definition selectionSet|name|];
    simpl; [| |done].
  - destruct (parse_Arguments _ _ _ _ _) as [[args|]|]; [|done..].
    destruct (parse selectionSet) as [[[subsels|]|]|]; [|done..].
    apply IH.
  - destruct (Fragments_ForName _ _) as [fragment|]; [|done].
    destruct (parse fragment) as [[[subsels|]|]|]; [|done..].
    apply IH.
Qed.

Lemma parse_range_mono parse parse' s gqlOp astSels acc r :
  (∀ x r, parse x = Some r → parse' x = Some r) →
  parse_range parse s gqlOp astSels acc = Some r →
  parse_range parse' s gqlOp astSels acc = Some r.
Proof.
  intros Hsub. revert acc.
  induction astSels as [|sel astSels IH]; intros acc; [done|].
  destruct sel as [alias name arguments definition selectionSet|name|];
    simpl; [| |done].
  - destruct (parse_Arguments _ _ _ _ _) as [[args|]|]; [|done..].
    destruct (parse selectionSet) as [r'|] eqn:Hsub'; [|done].
    rewrite (Hsub _ _ Hsub').
    destruct r' as [[subsels|]|]; [|done..]. apply IH.
  - destruct (Fragments_ForName _ _) as [fragment|]; [|done].
    destruct (parse fragment) as [r'|] eqn:Hsub'; [|done].
    rewrite (Hsub _ _ Hsub').
    destruct r' as [[subsels|]|]; [|done..]. apply IH.
Qed.

(** More fuel does not change an outcome. *)
Lemma parseASTSelections_fuel fuel fuel' s gqlOp astSels r :
  (fuel ≤ fuel')%nat →
  parseASTSelections fuel s gqlOp astSels = Some r →
  parseASTSelections fuel' s gqlOp astSels = Some r.
Proof.
  revert fuel' astSels r.
  induction fuel as [|fuel IH]; intros fuel' astSels r Hle; [done|].
  destruct fuel' as [|fuel']; [lia|].
  rewrite !parseASTSelections_S. apply parse_range_mono.
  intros x r'. apply IH. lia.
Qed.

Lemma no_index_unfold sel :
  no_index sel ↔
  Nth_ (Selector_ sel) = 0 ∧ Forall no_index (Subselections sel).
Proof.
  destruct sel as [alias selector subs]. simpl.
  apply and_iff_compat_l.
  induction subs as [|sub subs IH]; [by rewrite Forall_nil|].
  by rewrite Forall_cons, IH.
Qed.

Lemma parse_range_spread parse s gqlOp name fragment post acc :
  Fragments_ForName (op_Fragments gqlOp) name = Some fragment →
  parse_range parse s gqlOp (ast_FragmentSpread name :: post) acc
  = match parse fragment with
    | Some (Returned (Ok subsels)) =>
        parse_range parse s gqlOp post (acc ++ subsels)
    | other => other
    end.
Proof. intros Hfragment. simpl. by rewrite Hfragment. Qed.

Lemma parse_range_no_index parse s gqlOp astSels acc sels :
  (∀ x sels, parse x = Some (Returned (Ok sels)) → Forall no_index sels) →
  Forall no_index acc →
  parse_range parse s gqlOp astSels acc = Some (Returned (Ok sels)) →
  Forall no_index sels.
Proof.
  intros Hparse. revert acc.
  induction astSels as [|sel astSels IH]; intros acc Hacc.
  - by intros [= <-].
  - destruct sel as [alias name arguments definition selectionSet|name|];
      simpl; [| |done].
    + destruct (parse_Arguments _ _ _ _ _) as [[args|]|]; [|done..].
      destruct (parse selectionSet) as [[[subsels|]|]|] eqn:Hsub; [|done..].
      apply IH, Forall_app. split; [done|].
      apply Forall_singleton, no_index_unfold. split; [done|].
      by eapply Hparse.
    + destruct (Fragments_ForName _ _) as [fragment|]; [|done].
      destruct (parse fragment) as [[[subsels|]|]|] eqn:Hsub; [|done..].
      apply IH, Forall_app. split; [done|]. by eapply Hparse.
Qed.
End Parse.

(** X11. The selections that [parseASTSelections] builds from a query
    carry no trailing index, at any depth. *)
Theorem parseASTSelections_no_index `{Values} (fuel : nat) (s : Server)
    (gqlOp : OperationContext) (astSels : list ast_Selection)
    (sels : list Selection) :
  parseASTSelections fuel s gqlOp astSels = Some (Returned (Ok sels)) →
  Forall no_index sels.
Proof.
  revert astSels sels.
  induction fuel as [|fuel IH]; intros astSels sels; [done|].
  rewrite parseASTSelections_S. by apply parse_range_no_index.
Qed.

Lemma parseASTSelections_no_index_witness :
  Forall no_index
    [Demo.pick "me" "first" 0 [Demo.pick "" "n" 0 []]].
Proof.
  apply (parseASTSelections_no_index 3 Demo.srv
           (@Build_OperationContext Demo.values () [])
           [ast_Field "me" "first" []
              (Some (Demo.field "first" [] (Demo.named "Item")))
              [ast_Field "" "n" []
                 (Some (Demo.field "n" [] (Demo.named "Int"))) []]]).
  reflexivity.
Defined.

(** X12. [parseASTSelections] works through a selection set from left
    to right: the selections of [a ++ b] are those of [a] followed by
    those of [b], and they are built exactly when both parts are; when
    [a] fails or panics, so does [a ++ b], in the same way, whatever
    [b] holds. *)
Theorem parseASTSelections_app `{Values} (fuel : nat) (s : Server)
    (gqlOp : OperationContext) (a b : list ast_Selection) :
  (∀ sels,
     parseASTSelections fuel s gqlOp (a ++ b) = Some (Returned (Ok sels)) ↔
     ∃ sels_a sels_b,
       parseASTSelections fuel s gqlOp a = Some (Returned (Ok sels_a))
       ∧ parseASTSelections fuel s gqlOp b = Some (Returned (Ok sels_b))
       ∧ sels = sels_a ++ sels_b)
  ∧ (∀ p, parseASTSelections fuel s gqlOp a = Some (Panicked p) →
          parseASTSelections fuel s gqlOp (a ++ b) = Some (Panicked p))
  ∧ (∀ e, parseASTSelections fuel s gqlOp a = Some (Returned (Err e)) →
          parseASTSelections fuel s gqlOp (a ++ b) = Some (Returned (Err e))).
Proof.
  destruct fuel as [|fuel]; [by split; [split; [|intros (?&?&?&_)]|]|].
  rewrite !parseASTSelections_S, parse_range_app.
  destruct (parse_range _ _ _ a []) as [[[sels_a|e]|p]|] eqn:Ha.
  - split; [|done]. intros sels.
    rewrite (parse_range_onto _ _ _ b sels_a).
    destruct (parse_range _ _ _ b []) as [[[sels_b|]|]|] eqn:Hb; simpl.
    + split.
      * intros [= <-]. by exists sels_a, sels_b.
      * by intros (? & ? & [= <-] & [= <-] & ->).
    + split; [done|]. by intros (? & ? & _ & ? & _).
    + split; [done|]. by intros (? & ? & _ & ? & _).
    + split; [done|]. by intros (? & ? & _ & ? & _).
  - split; [|by split]. intros sels. split; [done|]. by intros (?&?&?&_).
  - split; [|by split]. intros sels. split; [done|]. by intros (?&?&?&_).
  - split; [|by split]. intros sels. split; [done|]. by intros (?&?&?&_).
Qed.

(** X13. A fragment spread stands for the selection set of its fragment:
    with some depth of calls [parseASTSelections] gives an outcome, the
    selections, an error or a panic, for a selection set with the
    spread exactly when it gives that outcome for the selection set
    with the selections of the fragment written in place of the
    spread. *)
Theorem parseASTSelections_spread_inlined `{Values} (s : Server)
    (gqlOp : OperationContext) (name : string)
    (fragment pre post : list ast_Selection)
    (r : outcome (list Selection)) :
  Fragments_ForName (op_Fragments gqlOp) name = Some fragment →
  (∃ fuel, parseASTSelections fuel s gqlOp
             (pre ++ ast_FragmentSpread name :: post) = Some r)
  ↔ (∃ fuel, parseASTSelections fuel s gqlOp (pre ++ fragment ++ post)
             = Some r).
Proof.
  intros Hfragment. split.
  - intros [[|fuel] Hr]; [done|]. exists (S fuel).
    pose proof (parseASTSelections_fuel fuel (S fuel) s gqlOp fragment)
      as Hmore.
    rewrite !parseASTSelections_S in *.
    rewrite parse_range_app in Hr. rewrite parse_range_app.
    destruct (parse_range _ _ _ pre []) as [[[sels|]|]|]; [|done..].
    rewrite (parse_range_spread _ _ _ _ _ _ _ Hfragment) in Hr.
    rewrite parse_range_app, (parse_range_onto _ _ _ fragment sels).
    destruct (parseASTSelections fuel s gqlOp fragment) as [r'|]; [|done].
    rewrite (Hmore r') by (done || lia).
    by destruct r' as [[subsels|]|].
  - intros [[|fuel] Hr]; [done|]. exists (S (S fuel)).
    pose proof (parseASTSelections_fuel fuel (S fuel) s gqlOp) as Hmore.
    rewrite (parseASTSelections_S (S fuel)).
    pose proof (parseASTSelections_S fuel s gqlOp fragment) as Hnow.
    rewrite parseASTSelections_S in Hr.
    revert Hmore Hnow. generalize (parseASTSelections (S fuel) s gqlOp).
    intros parse' Hmore Hnow.
    assert (∀ x r, parseASTSelections fuel s gqlOp x = Some r →
                   parse' x = Some r) as Hsub.
    { intros x r0. apply Hmore. lia. }
    rewrite parse_range_app in Hr. rewrite parse_range_app.
    destruct (parse_range _ _ _ pre []) as [r'|] eqn:Hpre; [|done].
    rewrite (parse_range_mono _ parse' _ _ _ _ r' Hsub Hpre).
    destruct r' as [[sels|]|]; [|done..].
    rewrite (parse_range_spread _ _ _ _ _ _ _ Hfragment).
    rewrite parse_range_app, (parse_range_onto _ _ _ fragment sels) in Hr.
    rewrite Hnow.
    destruct (parse_range _ _ _ fragment []) as [[[subsels|]|]|]; [|done..].
    simpl in Hr. by eapply parse_range_mono.
Qed.

Lemma parseASTSelections_spread_inlined_witness :
  ∃ fuel,
    parseASTSelections fuel Demo.srv
      {| op_Variables := ();
         op_Fragments :=
           [("item",
             [ast_Field "" "first" []
                (Some (Demo.field "first" [] (Demo.named "Item"))) []])] |}
      ([] ++ ast_FragmentSpread "item" :: [])
    = Some (Returned (Ok [Demo.pick "" "first" 0 []])).
Proof.
  apply (parseASTSelections_spread_inlined Demo.srv _ "item"
           [ast_Field "" "first" []
              (Some (Demo.field "first" [] (Demo.named "Item"))) []]
           [] []).
  - reflexivity.
  - by exists 2%nat.
Defined.

(** ** Requests *)

Section ExecFacts.
Context `{Values}.

Lemma Exec_range_app fuel s rq a b results :
  Exec_range fuel s rq (a ++ b) results
  = match Exec_range fuel s rq a results with
    | Some (Returned (Ok (inr results))) => Exec_range fuel s rq b results
    | other => other
    end.
Proof.
  revert results. induction a as [|op a IH]; intros results; [done|].
  simpl. repeat case_decide; try done.
  destruct (parseASTSelections _ _ _ _) as [[[sels|]|]|]; try done.
  by destruct (Resolve _ _ _).
Qed.

(** Operations that are not queries to run leave the results as they
    are. *)
Lemma Exec_range_skip fuel s rq ops results results' :
  Forall (λ op, ¬ runs_query rq op) ops →
  Exec_range fuel s rq ops results = Some (Returned (Ok (inr results'))) →
  results' = results.
Proof.
  induction 1 as [|op ops Hop _ IH]; simpl; [congruence|].
  unfold runs_query in Hop. repeat case_decide; try done. tauto.
Qed.

Lemma Exec_range_kinds fuel s rq ops results results' :
  Exec_range fuel s rq ops results = Some (Returned (Ok (inr results'))) →
  Forall (λ op, od_Operation op ≠ "mutation"
                ∧ od_Operation op ≠ "subscription") ops.
Proof.
  revert results. induction ops as [|op ops IH]; intros results; [done|].
  simpl. repeat case_decide; try done.
  - intros ?%IH. constructor; [|done]. split; congruence.
  - destruct (parseASTSelections _ _ _ _) as [[[sels|]|]|]; try done.
    destruct (Resolve _ _ _); [|done].
    intros ?%IH. constructor; [|done]. split; congruence.
  - intros ?%IH. by constructor.
Qed.

Lemma Exec_data json_Marshal fuel s rq data :
  Exec json_Marshal fuel s rq = Some (Returned (Ok (Response_Data data))) →
  rq_Validate rq = None
  ∧ ∃ results,
      Exec_range fuel s rq (rq_Operations rq) ∅
        = Some (Returned (Ok (inr results)))
      ∧ json_Marshal results = Ok data.
Proof.
  unfold Exec. destruct (rq_Validate rq); [done|].
  destruct (Exec_range _ _ _ _ _) as [[[[response|results]|]|]|] eqn:Hrange;
    try done.
  - intros [= ->]. exfalso. revert Hrange. generalize (∅ : gmap string any).
    induction (rq_Operations rq) as [|op ops IH]; intros results; [done|].
    simpl. repeat case_decide; try done; try apply IH.
    destruct (parseASTSelections _ _ _ _) as [[[sels|]|]|]; try done.
    destruct (Resolve _ _ _); [apply IH|done].
  - destruct (json_Marshal results) as [data'|] eqn:Hdata; [|done].
    intros [= ->]. split; [done|]. by exists results.
Qed.
End ExecFacts.

(** X14. [Exec] answers with data only for a request that passes
    validation and whose document holds no mutation and no
    subscription, whatever operation the request names. *)
Theorem Exec_data_only_for_queries `{Values}
    (json_Marshal : gmap string any → res string) (fuel : nat) (s : Server)
    (rq : Request) (data : string) :
  Exec json_Marshal fuel s rq = Some (Returned (Ok (Response_Data data))) →
  rq_Validate rq = None
  ∧ Forall (λ op, od_Operation op ≠ "mutation"
                  ∧ od_Operation op ≠ "subscription") (rq_Operations rq).
Proof.
  intros (Hvalid & results & Hrange & _)%Exec_data. split; [done|].
  by eapply Exec_range_kinds.
Qed.

(** X15. The data of a response are the results of one query: of the
    last operation of the document that is a query and that the
    requested name lets run; the results of the queries before it are
    dropped.  When no operation is such a query, the data are the
    marshalled empty map. *)
Theorem Exec_data_of_last_query `{Values}
    (json_Marshal : gmap string any → res string) (fuel : nat) (s : Server)
    (rq : Request) (data : string) :
  Exec json_Marshal fuel s rq = Some (Returned (Ok (Response_Data data))) →
  (Forall (λ op, ¬ runs_query rq op) (rq_Operations rq) →
   json_Marshal ∅ = Ok data)
  ∧ (∀ before op after,
       rq_Operations rq = before ++ op :: after →
       runs_query rq op →
       Forall (λ op, ¬ runs_query rq op) after →
       ∃ sels results,
         parseASTSelections fuel s (rq_gqlOp rq) (od_SelectionSet op)
           = Some (Returned (Ok sels))
         ∧ Resolve s (root s) sels = Ok results
         ∧ json_Marshal results = Ok data).
Proof.
  intros (_ & results & Hrange & Hdata)%Exec_data. split.
  - intros Hnone. by rewrite <-(Exec_range_skip _ _ _ _ _ _ Hnone Hrange).
  - intros before op after Hops [Hquery Hname] Hafter.
    rewrite Hops, Exec_range_app in Hrange.
    destruct (Exec_range fuel s rq before ∅) as [[[[?|results0]|]|]|];
      try done.
    simpl in Hrange. rewrite decide_True in Hrange by done.
    rewrite decide_False in Hrange by done.
    destruct (parseASTSelections _ _ _ _) as [[[sels|]|]|]; try done.
    destruct (Resolve _ _ _) as [results1|] eqn:Hresults; [|done].
    exists sels, results1. split; [done|]. split; [done|].
    by rewrite <-(Exec_range_skip _ _ _ _ _ _ Hafter Hrange).
Qed.

Lemma Exec_data_only_for_queries_witness :
  let rq := Demo.request "b"
              [Demo.query "a" "boom" (Demo.named "Item");
               Demo.query "b" "first" (Demo.named "Item")] in
  rq_Validate rq = None
  ∧ Forall (λ op, od_Operation op ≠ "mutation"
                  ∧ od_Operation op ≠ "subscription") (rq_Operations rq).
Proof.
  refine (Exec_data_only_for_queries Demo.marshal_keys 2 Demo.srv
            (Demo.request "b"
               [Demo.query "a" "boom" (Demo.named "Item");
                Demo.query "b" "first" (Demo.named "Item")]) "first" _).
  vm_compute. reflexivity.
Defined.

Lemma Exec_data_of_last_query_witness :
  ∃ sels results,
    parseASTSelections 2 Demo.srv
      (rq_gqlOp (Demo.request "" []))
      (od_SelectionSet (Demo.query "b" "loaded" (Demo.named "Item")))
      = Some (Returned (Ok sels))
    ∧ Resolve Demo.srv (root Demo.srv) sels = Ok results
    ∧ Demo.marshal_keys results = Ok "loaded".
Proof.
  refine (proj2 (Exec_data_of_last_query Demo.marshal_keys 2 Demo.srv
                   (Demo.request ""
                      [Demo.query "a" "first" (Demo.named "Item");
                       Demo.query "b" "loaded" (Demo.named "Item")])
                   "loaded" _)
            [Demo.query "a" "first" (Demo.named "Item")]
            (Demo.query "b" "loaded" (Demo.named "Item")) [] _ _ _).
  - vm_compute. reflexivity.
  - reflexivity.
  - split; [reflexivity|]. by intros [? _].
  - constructor.
Defined.

(** ** The shape of a result *)

Section Shape.
Context `{Values}.

Lemma Selection_nested_ind (P : Selection → Prop) :
  (∀ sel, Forall P (Subselections sel) → P sel) → ∀ sel, P sel.
Proof.
  intros HP. fix IH 1. intros [alias selector subs]. apply HP. simpl.
  induction subs as [|sub subs IHsubs]; constructor; [apply IH|apply IHsubs].
Qed.

Lemma mirrors_unfold sel v :
  mirrors sel v ↔
  match v with
  | any_nil => Nth_ (Selector_ sel) = 0
  | any_Typed _ => Subselections sel = []
  | any_map m =>
      Nth_ (Selector_ sel) = 0 ∧ Subselections sel ≠ []
      ∧ mirrors_all (Subselections sel) m
  | any_slice l =>
      Nth_ (Selector_ sel) = 0 ∧ Subselections sel ≠ []
      ∧ Forall (λ x, ∃ m, x = any_map m ∧ mirrors_all (Subselections sel) m) l
  end.
Proof.
  destruct sel as [alias selector subs].
  assert (∀ k v',
    (fix some (subs : list Selection) : Prop :=
       match subs with
       | [] => False
       | sub :: subs => (Name sub = k ∧ mirrors sub v') ∨ some subs
       end) subs
    ↔ ∃ sub, sub ∈ subs ∧ Name sub = k ∧ mirrors sub v') as Hsome.
  { intros k v'. induction subs as [|sub subs IH].
    - split; [done|]. by intros (? & ?%elem_of_nil & _).
    - rewrite IH. split.
      + intros [[? ?]|(sub' & ? & ? & ?)].
        * exists sub. by rewrite elem_of_cons; auto.
        * exists sub'. by rewrite elem_of_cons; auto.
      + intros (sub' & [->|?]%elem_of_cons & ? & ?); [by left|].
        right. by exists sub'. }
  assert (∀ m,
    (dom m = list_to_set (Name <$> subs)
     ∧ ∀ k v', m !! k = Some v' →
         (fix some (subs : list Selection) : Prop :=
            match subs with
            | [] => False
            | sub :: subs => (Name sub = k ∧ mirrors sub v') ∨ some subs
            end) subs)
    ↔ mirrors_all subs m) as Hentries.
  { intros m. unfold mirrors_all. apply and_iff_compat_l.
    split; intros Hm k v' Hk; apply Hsome; by apply Hm. }
  destruct v as [|val|m|l]; simpl; try done.
  - by rewrite Hentries.
  - do 2 apply and_iff_compat_l. apply Forall_iff. intros x.
    split; intros (m & -> & Hm); exists m; (split; [done|]);
      by apply Hentries.
Qed.

Lemma pool_done_entries resolve sels k v :
  (k, v) ∈ pool_done (Resolve_task resolve <$> sels) →
  ∃ sel, sel ∈ sels ∧ Name sel = k ∧ resolve sel = Ok v.
Proof.
  induction sels as [|sel sels IH]; csimpl; [by intros ?%elem_of_nil|].
  destruct (resolve sel) as [v'|e] eqn:Hsel.
  - rewrite (Resolve_task_Ok _ _ _ Hsel). csimpl.
    intros [[= -> ->]|(sel' & ? & ? & ?)%IH]%elem_of_cons.
    + exists sel. by rewrite elem_of_cons; auto.
    + exists sel'. by rewrite elem_of_cons; auto.
  - rewrite (Resolve_task_Err _ _ _ Hsel). csimpl.
    intros (sel' & ? & ? & ?)%IH. exists sel'. by rewrite elem_of_cons; auto.
Qed.

(** The entries of the map of [Resolve]: the names of the selections,
    each with the result of a selection of that name. *)
Lemma Resolve_tasks_entries resolve sels m :
  Resolve_tasks resolve sels = Ok m →
  dom m = list_to_set (Name <$> sels)
  ∧ ∀ k v, m !! k = Some v →
      ∃ sel, sel ∈ sels ∧ Name sel = k ∧ resolve sel = Ok v.
Proof.
  intros [Herrs ->]%Resolve_tasks_Ok.
  pose proof (pool_done_Permutation _ _
                (finished_Permutation (Resolve_task resolve <$> sels)))
    as Hdone.
  split.
  - rewrite Store_all_dom, <-(pool_done_names resolve sels Herrs).
    apply list_to_set_perm_L. by rewrite Hdone.
  - intros k v Hk%Store_all_lookup. rewrite Hdone in Hk.
    by eapply pool_done_entries.
Qed.

Lemma Resolve_tasks_mirrors resolve sels m :
  Forall (λ sel, ∀ v, resolve sel = Ok v → mirrors sel v) sels →
  Resolve_tasks resolve sels = Ok m →
  mirrors_all sels m.
Proof.
  intros Hsels [Hdom Hm]%Resolve_tasks_entries. split; [done|].
  intros k v (sel & Hin & Hname & Hv)%Hm. exists sel.
  split; [done|]. split; [done|].
  by apply (proj1 (Forall_forall _ _) Hsels sel Hin).
Qed.
End Shape.

(** X16. A result has the shape of its selection, at every depth.
    [resolvePath] returns null only for a selection without trailing
    index, a typed value only for a selection without sub-selections,
    and a map or a slice of maps only for a selection with
    sub-selections and no trailing index; the keys of each map are the
    names of the sub-selections, and each entry is a result of the
    shape of a sub-selection of that name.  The map that [Resolve]
    returns has the shape of its group of selections. *)
Theorem resolvePath_mirrors `{Values} (s : Server) :
  (∀ sel self v, resolvePath s self sel = Ok v → mirrors sel v)
  ∧ (∀ sels self m, Resolve s self sels = Ok m → mirrors_all sels m).
Proof.
  assert (∀ sel self v, resolvePath s self sel = Ok v → mirrors sel v)
    as Hpath.
  { induction sel as [sel IH] using Selection_nested_ind. intros self v.
    assert (∀ node m, Resolve s node (Subselections sel) = Ok m →
                      mirrors_all (Subselections sel) m) as Hsubs.
    { intros node m. apply Resolve_tasks_mirrors.
      eapply Forall_impl; [exact IH|]. intros sub Hsub. apply Hsub. }
    rewrite mirrors_unfold, resolvePath_unfold. unfold resolvePath_body.
    destruct (classes s !! _) as [class|]; [|done].
    destruct (FieldDefinition class _) as [fieldDef|]; [|done].
    destruct (Select self _) as [val0|]; [|done]. simpl.
    set (val := match as_Nullable val0 with
                | Some u => u | None => Some val0 end).
    assert (∀ r : res any, (
      res ← r;
      if decide (Nth_ (Selector_ sel) ≠ 0) then
        match any_as_Enumerable res with
        | None =>
            Err (Errorf "cannot sub-select %dth item from %T"
                   [of_int (Nth_ (Selector_ sel)); of_string (fmt_T val)])
        | Some enum => any_Typed <$> Nth enum (Nth_ (Selector_ sel))
        end
      else Ok res) = Ok v →
      (Nth_ (Selector_ sel) = 0 ∧ r = Ok v)
      ∨ ∃ val' val'', r = Ok (any_Typed val') ∧ v = any_Typed val'')
      as Hindex.
    { intros [res|]; [|done]. simpl.
      destruct (decide (Nth_ (Selector_ sel) ≠ 0)) as [Hnth|Hnth].
      - destruct res as [|val'| |]; try done. simpl.
        destruct (as_Enumerable val') as [enum|]; [|done].
        destruct (Nth enum _) as [val''|]; [|done].
        intros [= <-]. right. by exists val', val''.
      - intros [= <-]. left. split; [|done].
        by destruct (decide (Nth_ (Selector_ sel) = 0)). }
    intros Hv. apply Hindex in Hv as [[Hzero Hv]|(val' & val'' & Hv & ->)];
      destruct val as [val|]; try done.
    - destruct (Subselections sel) as [|sub subs] eqn:Hsel;
        [by injection Hv as <-|].
      destruct (decide (NamedType (fd_Type fieldDef) ≠ "")).
      + destruct (toSelectable _ _ val) as [node|]; [|done]. simpl in Hv.
        destruct (Resolve s node (sub :: subs)) as [m|] eqn:Hm; [|done].
        injection Hv as <-. split; [done|]. split; [done|]. by eapply Hsubs.
      + destruct (decide (Elem (fd_Type fieldDef) ≠ None)); [|done].
        destruct (as_Enumerable val) as [enum|]; [|done].
        destruct (for_nth _ _ _ _) as [all|] eqn:Hall; [|done].
        injection Hv as <-. split; [done|]. split; [done|].
        apply for_nth_Ok in Hall as (new & -> & _ & Hnew). simpl.
        apply Forall_lookup. intros i x Hi. apply Hnew in Hi.
        destruct (Nth enum _) as [elem|]; [|done]. simpl in Hi.
        destruct (toSelectable _ _ elem) as [node|]; [|done]. simpl in Hi.
        destruct (Resolve s node (sub :: subs)) as [m|] eqn:Hm; [|done].
        injection Hi as <-. exists m. split; [done|]. by eapply Hsubs.
    - by injection Hv as <-.
    - destruct (Subselections sel) as [|sub subs] eqn:Hsel; [done|].
      destruct (decide (NamedType (fd_Type fieldDef) ≠ "")).
      + destruct (toSelectable _ _ val) as [node|]; [|done]. simpl in Hv.
        by destruct (Resolve s node (sub :: subs)).
      + destruct (decide (Elem (fd_Type fieldDef) ≠ None)); [|done].
        destruct (as_Enumerable val) as [enum|]; [|done].
        by destruct (for_nth _ _ _ _). }
  split; [done|]. intros sels self m. apply Resolve_tasks_mirrors.
  apply Forall_forall. intros sel _ v. apply Hpath.
Qed.

Lemma resolvePath_mirrors_witness :
  mirrors (Demo.pick "" "items" 0 [Demo.pick "" "n" 0 []])
    (any_slice [any_map {[ "n" := any_Typed (Demo.Int 3) ]};
                any_map {[ "n" := any_Typed (Demo.Int 1) ]};
                any_map {[ "n" := any_Typed (Demo.Int 2) ]}]).
Proof.
  refine (proj1 (resolvePath_mirrors Demo.srv) _ (root Demo.srv) _ _).
  vm_compute. reflexivity.
Defined.

(** ** The arguments of a field of a query *)

Section ParseArguments.
Context `{Values}.

Lemma Arguments_ForName_Name l name argDef :
  Arguments_ForName l name = Some argDef → ad_Name argDef = name.
Proof.
  induction l as [|it l IH]; simpl; [done|].
  destruct (decide (ad_Name it = name)); [congruence|done].
Qed.

Lemma parse_Arguments_entries s vars x_Definition x_Arguments acc args :
  parse_Arguments s vars x_Definition x_Arguments acc = Returned (Ok args) →
  dom args = dom acc ∪ list_to_set (av_Name <$> x_Arguments)
  ∧ ∀ name typed, args !! name = Some typed →
      acc !! name = Some typed
      ∨ ∃ arg definition argDef scalar raw,
          arg ∈ x_Arguments ∧ av_Name arg = name
          ∧ x_Definition = Some definition
          ∧ Arguments_ForName (fd_Arguments definition) name = Some argDef
          ∧ scalars s !! ast_Type_Name (ad_Type argDef) = Some scalar
          ∧ Value_Value (av_Value arg) vars = Ok raw
          ∧ Scalar_New scalar raw = Ok typed.
Proof.
  revert acc. induction x_Arguments as [|arg rest IH]; intros acc; simpl.
  - intros [= <-]. split; [by rewrite (right_id_L ∅ (∪))|]. auto.
  - destruct (Value_Value (av_Value arg) vars) as [raw|] eqn:Hraw; [|done].
    simpl. destruct x_Definition as [definition|]; [|done].
    destruct (Arguments_ForName _ _) as [argDef|] eqn:Hdef; [|done].
    destruct (scalars s !! _) as [scalar|] eqn:Hscalar; [|done].
    destruct (Scalar_New scalar raw) as [typed|] eqn:Htyped; [|done].
    simpl. rewrite (Arguments_ForName_Name _ _ _ Hdef).
    intros [Hdom Hargs]%IH. split.
    + rewrite Hdom, dom_insert_L, (assoc_L (∪) (dom acc)).
      by rewrite (comm_L (∪) (dom acc)).
    + intros name typed' [Hacc|Hrest]%Hargs.
      * destruct (decide (av_Name arg = name)) as [<-|Hne].
        -- rewrite lookup_insert_eq in Hacc. injection Hacc as <-.
           right. exists arg, definition, argDef, scalar, raw.
           by rewrite elem_of_cons; auto 10.
        -- rewrite lookup_insert_ne in Hacc by done. by left.
      * right. destruct Hrest as (arg' & ? & ? & ? & ? & ? & ?).
        exists arg'. eexists _, _, _, _. by rewrite elem_of_cons; eauto 10.
Qed.
End ParseArguments.

(** X17. When the arguments of a field of a query are all converted,
    the selection has one argument for each name that the query
    writes, under that name, and each is what the scalar of the
    declared type of the argument makes of the value that the query
    gives under that name. *)
Theorem parse_Arguments_by_name `{Values} (s : Server) (vars : Variables)
    (x_Definition : option ast_FieldDefinition)
    (x_Arguments : list ast_Argument) (args : gmap string Typed) :
  parse_Arguments s vars x_Definition x_Arguments ∅ = Returned (Ok args) →
  dom args = list_to_set (av_Name <$> x_Arguments)
  ∧ ∀ name typed, args !! name = Some typed →
      ∃ arg definition argDef scalar raw,
        arg ∈ x_Arguments ∧ av_Name arg = name
        ∧ x_Definition = Some definition
        ∧ Arguments_ForName (fd_Arguments definition) name = Some argDef
        ∧ scalars s !! ast_Type_Name (ad_Type argDef) = Some scalar
        ∧ Value_Value (av_Value arg) vars = Ok raw
        ∧ Scalar_New scalar raw = Ok typed.
Proof.
  intros [Hdom Hargs]%parse_Arguments_entries. split.
  - by rewrite Hdom, dom_empty_L, (left_id_L ∅ (∪)).
  - intros name typed [Hacc|Harg]%Hargs; [|done].
    by rewrite lookup_empty in Hacc.
Qed.

Lemma parse_Arguments_by_name_witness :
  dom ({[ "name" := Demo.Str "Ada" ]} : gmap string Demo.value)
  = list_to_set (av_Name <$> [{| av_Name := "name"; av_Value := "Ada" |}])
  ∧ ∀ name typed,
      ({[ "name" := Demo.Str "Ada" ]} : gmap string Demo.value) !! name
        = Some typed →
      ∃ arg definition argDef scalar raw,
        arg ∈ [{| av_Name := "name"; av_Value := "Ada" |}]
        ∧ av_Name arg = name
        ∧ Some (Demo.field "hello"
                  [{| ad_Name := "name"; ad_Type := Demo.named "String" |}]
                  (Demo.named "String")) = Some definition
        ∧ Arguments_ForName (fd_Arguments definition) name = Some argDef
        ∧ scalars Demo.srv !! ast_Type_Name (ad_Type argDef) = Some scalar
        ∧ Value_Value (av_Value arg) () = Ok raw
        ∧ Scalar_New scalar raw = Ok typed.
Proof.
  apply (parse_Arguments_by_name Demo.srv ()). reflexivity.
Defined.
